(** * eth-json-rpc: the [eth] management API ([src/api/eth.js])

    A shallow embedding of the block/log batch fetcher ([getBlocks],
    [getBlocksFromArray]), of [call], and of the helpers they use
    ([formatLogOptions], [parseInt16]), followed by the properties the
    specification states about them.

    Modelling conventions.
    - A JavaScript value is a term of [value].  Transport responses are
      decoded JSON documents: finite trees in which no object or array
      is shared between two places.  The in-place updates the source
      performs ([Object.assign], [push], property assignment) are
      therefore functional updates of the block held at an index of the
      local [blocks] array.  For [getBlocks] the updates are also
      modelled as they happen, on objects with an identity held in a
      store ([getBlocks_in_place]), and related to the functional
      reading.
    - A Number is an integer of [Z] or [Nan].  JavaScript Numbers are
      IEEE doubles; integer arithmetic on them is exact on the safe
      range (magnitude below 2^53), which is where block numbers live,
      and the model is meant for that range.
    - A string is a [string] whose characters are code units below 256.
    - A rejected promise / thrown exception is [Throw e]; a fulfilled
      promise / normal completion is [Ok a].
    - The transport ([this.rpc], [this.request]) is a parameter; every
      interaction with it is recorded in a trace. *)

From Stdlib Require Import ZArith Ascii String List Lia Bool.
From stdpp Require Import base tactics option list list_numbers.

Local Open Scope Z_scope.

Set Warnings "-register-all".

(** ** Values *)

(** A Number: an integer-valued double, or NaN. *)
Inductive number : Type :=
| Nan
| Int (z : Z).

(** Primitives other than [undefined] and [null]. *)
Inductive prim : Type :=
| PBool (b : bool)
| PNum (n : number)
| PStr (s : string).

(** [VObj props]: an ordinary object with its own properties in
    insertion order.  [VArr elems props]: an array, its elements and
    any named own properties ([VArr elems []] for a decoded JSON
    array).  [VBox p props]: the wrapper object [Object(p)] of a
    primitive, with its named own properties. *)
Inductive value : Type :=
| VUndef
| VNull
| VPrim (p : prim)
| VObj (props : list (string * value))
| VArr (elems : list value) (props : list (string * value))
| VBox (p : prim) (props : list (string * value)).

Abbreviation VBool b := (VPrim (PBool b)).
Abbreviation VNum n := (VPrim (PNum n)).
Abbreviation VInt z := (VPrim (PNum (Int z))).
Abbreviation VStr s := (VPrim (PStr s)).

Definition props : Type := list (string * value).

(** ** Outcomes *)

(** What a rejection carries: a [TypeError] raised by the runtime, a
    string thrown by this module, or whatever the transport rejected
    with. *)
Inductive error : Type :=
| TypeError
| Thrown (msg : string)
| TransportError (payload : value).

Inductive outcome (A : Type) : Type :=
| Ok (a : A)
| Throw (e : error).

Arguments Ok {A} a.
Arguments Throw {A} e.

Definition obind {A B : Type} (m : outcome A) (f : A -> outcome B) : outcome B :=
  match m with
  | Ok a => f a
  | Throw e => Throw e
  end.

Declare Scope outcome_scope.
Delimit Scope outcome_scope with outcome.
Notation "x <- m ;; k" := (obind m (fun x => k))
  (at level 100, m at next level, right associativity) : outcome_scope.
Local Open Scope outcome_scope.

(** [xs.map(f)] for a callback that may throw: left to right, the first
    exception wins. *)
Fixpoint map_outcome {A B : Type} (f : A -> outcome B) (xs : list A) : outcome (list B) :=
  match xs with
  | [] => Ok []
  | x :: rest =>
      y <- f x ;;
      ys <- map_outcome f rest ;;
      Ok (y :: ys)
  end.

(** [xs.forEach(f)] for a callback that updates a state and may throw. *)
Fixpoint fold_outcome {A S : Type} (f : S -> A -> outcome S) (s : S) (xs : list A) : outcome S :=
  match xs with
  | [] => Ok s
  | x :: rest =>
      s' <- f s x ;;
      fold_outcome f s' rest
  end.

(** ** Strings and numbers *)

Definition digit_char (d : Z) : ascii :=
  match d with
  | 0 => "0" | 1 => "1" | 2 => "2" | 3 => "3" | 4 => "4"
  | 5 => "5" | 6 => "6" | 7 => "7" | 8 => "8" | 9 => "9"
  | 10 => "a" | 11 => "b" | 12 => "c" | 13 => "d" | 14 => "e"
  | _ => "f"
  end%char.

(** Digits of [n >= 0] in [radix], most significant first, in front of
    [acc]. *)
Fixpoint radix_digits (fuel : nat) (radix n : Z) (acc : string) : string :=
  match fuel with
  | O => acc
  | S fuel' =>
      let acc' := String (digit_char (n mod radix)) acc in
      if n / radix =? 0 then acc' else radix_digits fuel' radix (n / radix) acc'
  end.

Definition digits_fuel (n : Z) : nat := S (Z.to_nat (Z.log2 n)).

(** [n.toString(radix)] for an integer [n]. *)
Definition number_toString (radix n : Z) : string :=
  if n <? 0
  then String "-"%char (radix_digits (digits_fuel (- n)) radix (- n) EmptyString)
  else radix_digits (digits_fuel n) radix n EmptyString.

(** The value of a hexadecimal digit, either case. *)
Definition hex_digit_value (c : ascii) : option Z :=
  let n := Z.of_N (N_of_ascii c) in
  if (48 <=? n) && (n <=? 57) then Some (n - 48)
  else if (97 <=? n) && (n <=? 102) then Some (n - 87)
  else if (65 <=? n) && (n <=? 70) then Some (n - 55)
  else None.

(** Reads the longest prefix of hexadecimal digits. *)
Fixpoint parse_hex_digits (s : string) (acc : Z) : Z :=
  match s with
  | EmptyString => acc
  | String c rest =>
      match hex_digit_value c with
      | Some d => parse_hex_digits rest (acc * 16 + d)
      | None => acc
      end
  end.

(** White space and line terminators among the code units below 256. *)
Definition is_whitespace (c : ascii) : bool :=
  let n := N_of_ascii c in
  ((9 <=? n) && (n <=? 13) || (n =? 32) || (n =? 160))%N.

Fixpoint skip_whitespace (s : string) : string :=
  match s with
  | String c rest => if is_whitespace c then skip_whitespace rest else s
  | EmptyString => s
  end.

(** [parseInt(s, 16)] on a string: leading white space, an optional
    sign, an optional [0x]/[0X], then the longest run of hexadecimal
    digits; [NaN] when that run is empty. *)
Definition parseInt_hex (s : string) : number :=
  let s1 := skip_whitespace s in
  let '(sign, s2) :=
    match s1 with
    | String "-"%char rest => (-1, rest)
    | String "+"%char rest => (1, rest)
    | _ => (1, s1)
    end in
  let s3 :=
    match s2 with
    | String "0"%char (String "x"%char rest) => rest
    | String "0"%char (String "X"%char rest) => rest
    | _ => s2
    end in
  match s3 with
  | EmptyString => Nan
  | String c _ =>
      match hex_digit_value c with
      | Some _ => Int (sign * parse_hex_digits s3 0)
      | None => Nan
      end
  end.

(** ** Property access *)

Fixpoint lookup_prop (k : string) (ps : props) : value :=
  match ps with
  | [] => VUndef
  | (k', v) :: rest => if String.eqb k k' then v else lookup_prop k rest
  end.

Fixpoint has_prop (k : string) (ps : props) : bool :=
  match ps with
  | [] => false
  | (k', _) :: rest => String.eqb k k' || has_prop k rest
  end.

(** Writes an own property: in place when the key exists, else at the
    end. *)
Fixpoint write_prop (k : string) (v : value) (ps : props) : props :=
  match ps with
  | [] => [(k, v)]
  | (k', v') :: rest =>
      if String.eqb k k' then (k, v) :: rest else (k', v') :: write_prop k v rest
  end.

(** [v.k] for a property name [k] that is not an array index, not
    [length], and not defined on a built-in prototype.  Every name this
    module reads is of that kind: [result], [number], [timestamp],
    [hash], [logs], [blockNumber], [blockHash]. *)
Definition get_prop (v : value) (k : string) : outcome value :=
  match v with
  | VUndef | VNull => Throw TypeError
  | VPrim _ => Ok VUndef
  | VObj ps | VArr _ ps | VBox _ ps => Ok (lookup_prop k ps)
  end.

(** [v.k = x] in strict mode. *)
Definition set_prop (v : value) (k : string) (x : value) : outcome value :=
  match v with
  | VUndef | VNull | VPrim _ => Throw TypeError
  | VObj ps => Ok (VObj (write_prop k x ps))
  | VArr elems ps => Ok (VArr elems (write_prop k x ps))
  | VBox p ps => Ok (VBox p (write_prop k x ps))
  end.

Definition assign_props (target source : props) : props :=
  fold_left (fun ps kv => write_prop (fst kv) (snd kv) ps) source target.

(** [Object.assign(target, source)] for an object literal [source]. *)
Definition object_assign (target : value) (source : props) : outcome value :=
  match target with
  | VUndef | VNull => Throw TypeError
  | VPrim p => Ok (VBox p (assign_props [] source))
  | VObj ps => Ok (VObj (assign_props ps source))
  | VArr elems ps => Ok (VArr elems (assign_props ps source))
  | VBox p ps => Ok (VBox p (assign_props ps source))
  end.

(** [arr[i]] on an array held as a list. *)
Definition array_index (arr : list value) (i : number) : value :=
  match i with
  | Nan => VUndef
  | Int z => if z <? 0 then VUndef else default VUndef (arr !! Z.to_nat z)
  end.

(** ** Conversions and operators *)

Definition prim_to_string (p : prim) : string :=
  match p with
  | PBool true => "true"
  | PBool false => "false"
  | PNum Nan => "NaN"
  | PNum (Int z) => number_toString 10 z
  | PStr s => s
  end.

(** [ToString(v)].  A decoded object never carries a callable
    [toString]; an own property of that name makes the conversion of an
    object or array fail, as does the pair [toString]/[valueOf] on a
    wrapper. *)
Fixpoint to_string (v : value) : outcome string :=
  match v with
  | VUndef => Ok "undefined"%string
  | VNull => Ok "null"%string
  | VPrim p => Ok (prim_to_string p)
  | VObj ps =>
      if has_prop "toString" ps then Throw TypeError else Ok "[object Object]"%string
  | VArr elems ps =>
      if has_prop "toString" ps then Throw TypeError
      else if has_prop "join" ps then Ok "[object Array]"%string
      else
        (fix join (l : list value) : outcome string :=
           match l with
           | [] => Ok EmptyString
           | x :: rest =>
               s <- match x with
                    | VUndef | VNull => Ok EmptyString
                    | _ => to_string x
                    end ;;
               match rest with
               | [] => Ok s
               | _ => r <- join rest ;; Ok (s ++ "," ++ r)%string
               end
           end) elems
  | VBox p ps =>
      if has_prop "toString" ps && has_prop "valueOf" ps
      then Throw TypeError
      else Ok (prim_to_string p)
  end.

Definition number_eqb (a b : number) : bool :=
  match a, b with
  | Int x, Int y => x =? y
  | _, _ => false
  end.

Definition prim_eqb (p q : prim) : bool :=
  match p, q with
  | PBool a, PBool b => Bool.eqb a b
  | PNum a, PNum b => number_eqb a b
  | PStr a, PStr b => String.eqb a b
  | _, _ => false
  end.

(** [a === b].  Two objects of a decoded response are never the same
    object. *)
Definition strict_eq (a b : value) : bool :=
  match a, b with
  | VUndef, VUndef => true
  | VNull, VNull => true
  | VPrim p, VPrim q => prim_eqb p q
  | _, _ => false
  end.

(** Truthiness. *)
Definition truthy (v : value) : bool :=
  match v with
  | VUndef | VNull => false
  | VPrim (PBool b) => b
  | VPrim (PNum Nan) => false
  | VPrim (PNum (Int z)) => negb (z =? 0)
  | VPrim (PStr s) => negb (String.eqb s EmptyString)
  | VObj _ | VArr _ _ | VBox _ _ => true
  end.

Definition type_of (v : value) : string :=
  match v with
  | VUndef => "undefined"
  | VPrim (PBool _) => "boolean"
  | VPrim (PNum _) => "number"
  | VPrim (PStr _) => "string"
  | VNull | VObj _ | VArr _ _ | VBox _ _ => "object"
  end.

(** [a - z] for a Number [a] and an integer [z]. *)
Definition number_sub (a : number) (z : Z) : number :=
  match a with
  | Nan => Nan
  | Int x => Int (x - z)
  end.

(** [arr.push(x)]: only an array has a callable [push]. *)
Definition array_push (arr x : value) : outcome value :=
  match arr with
  | VArr elems ps =>
      if has_prop "push" ps then Throw TypeError else Ok (VArr (elems ++ [x]) ps)
  | _ => Throw TypeError
  end.

(** The elements [arr.forEach] visits: only an array has a callable
    [forEach]. *)
Definition forEach_elements (arr : value) : outcome (list value) :=
  match arr with
  | VArr elems ps => if has_prop "forEach" ps then Throw TypeError else Ok elems
  | _ => Throw TypeError
  end.

(** ** The transport *)

(** A JSON-RPC request object as built by [this.client.request(method,
    params, undefined, false)]: with [false] for the callback the
    client only builds the request and sends nothing.  The generated
    [id] and the protocol version are left out. *)
Record rpc_request : Type := {
  method : string;
  params : list value
}.

Definition client_request (method : string) (params : list value) : rpc_request :=
  {| method := method; params := params |}.

(** What the module is handed at construction: [this.rpc] for a single
    call, [this.request] for a batch. *)
Record transport : Type := {
  rpc_answer : string -> list value -> outcome value;
  batch_answer : list rpc_request -> outcome (list value)
}.

(** One interaction with the transport. *)
Inductive event : Type :=
| RpcCall (method : string) (params : list value)
| BatchSent (batch : list rpc_request).

(** An asynchronous operation: from the interactions so far to its
    outcome and the interactions after it. *)
Definition io (A : Type) : Type := list event -> outcome A * list event.

Definition io_ret {A : Type} (a : A) : io A := fun h => (Ok a, h).

Definition io_throw {A : Type} (e : error) : io A := fun h => (Throw e, h).

Definition io_lift {A : Type} (m : outcome A) : io A := fun h => (m, h).

Definition io_bind {A B : Type} (m : io A) (f : A -> io B) : io B :=
  fun h =>
    match m h with
    | (Ok a, h') => f a h'
    | (Throw e, h') => (Throw e, h')
    end.

Declare Scope io_scope.
Delimit Scope io_scope with io.
Notation "x <- m ;; k" := (io_bind m (fun x => k))
  (at level 100, m at next level, right associativity) : io_scope.

(** [this.rpc(method, params)]. *)
Definition rpc (tr : transport) (method : string) (params : list value) : io value :=
  fun h => (rpc_answer tr method params, h ++ [RpcCall method params]).

(** [this.request(batch)]. *)
Definition request (tr : transport) (batch : list rpc_request) : io (list value) :=
  fun h => (batch_answer tr batch, h ++ [BatchSent batch]).

(** ** [src/api/eth.js] *)

(** ['0x' + n.toString(16)]. *)
Definition hex_literal (n : Z) : value :=
  VStr ("0x" ++ number_toString 16 n)%string.

Definition formatLogOptions (fromBlock toBlock : Z) : value :=
  VObj [("fromBlock"%string, hex_literal fromBlock);
        ("toBlock"%string, hex_literal toBlock)].

Definition parseInt16 (int : value) : outcome number :=
  s <- to_string int ;;
  Ok (parseInt_hex s).

(** The request [getBlocks] and [getBlocksFromArray] push for one
    block: by number, with full transaction objects. *)
Definition block_request (i : Z) : rpc_request :=
  client_request "eth_getBlockByNumber" [hex_literal i; VBool true].

Definition logs_request (fromBlock toBlock : Z) : rpc_request :=
  client_request "eth_getLogs" [formatLogOptions fromBlock toBlock].

(** *** [getBlocks] *)

(** [for (let i = fromBlock; i < toBlock; i++) batch.push(...)]. *)
Fixpoint getBlocks_loop (fuel : nat) (i toBlock : Z) (batch : list rpc_request)
  : list rpc_request :=
  match fuel with
  | O => batch
  | S fuel' =>
      if i <? toBlock
      then getBlocks_loop fuel' (i + 1) toBlock (batch ++ [block_request i])
      else batch
  end.

Definition getBlocks_batch (fromBlock toBlock : Z) : list rpc_request :=
  let batch := getBlocks_loop (Z.to_nat (toBlock - fromBlock)) fromBlock toBlock [] in
  let options := formatLogOptions fromBlock (toBlock - 1) in
  batch ++ [client_request "eth_getLogs" [options]].

(** [Object.assign(block, {number: parseInt16(block.number),
    timestamp: parseInt16(block.timestamp)})]. *)
Definition normalize_block (block : value) : outcome value :=
  n <- get_prop block "number" ;;
  number <- parseInt16 n ;;
  t <- get_prop block "timestamp" ;;
  timestamp <- parseInt16 t ;;
  object_assign block [("number"%string, VNum number); ("timestamp"%string, VNum timestamp)].

(** The position [blocks[index]] written through when the block found
    there is updated in place. *)
Definition array_update (arr : list value) (i : number) (x : value) : list value :=
  match i with
  | Nan => arr
  | Int z => if z <? 0 then arr else <[Z.to_nat z := x]> arr
  end.

Definition mismatch_message (logHash blockHash : string) : string :=
  ("Error during fetch of logs. Log block hash (" ++ logHash
     ++ ") differs from block hash (" ++ blockHash ++ ")")%string.

(** [log.blockNumber], parsed. *)
Definition log_block_number (log : value) : outcome number :=
  bn <- get_prop log "blockNumber" ;;
  parseInt16 bn.

(** [block.logs ? block.logs.push(log) : block.logs = [...[log]]],
    leaving the block with its updated [logs]. *)
Definition append_log (block log : value) : outcome value :=
  blockLogs <- get_prop block "logs" ;;
  if truthy blockLogs
  then
    pushed <- array_push blockLogs log ;;
    set_prop block "logs" pushed
  else set_prop block "logs" (VArr [log] []).

(** The callback of [logs.forEach]. *)
Definition merge_log (fromBlock : Z) (blocks : list value) (log : value)
  : outcome (list value) :=
  logBlockNumber <- log_block_number log ;;
  let index := number_sub logBlockNumber fromBlock in
  let block := array_index blocks index in
  logHash <- get_prop log "blockHash" ;;
  blockHash <- get_prop block "hash" ;;
  if negb (strict_eq logHash blockHash)
  then
    s1 <- to_string logHash ;;
    s2 <- to_string blockHash ;;
    Throw (Thrown (mismatch_message s1 s2))
  else
    block' <- append_log block log ;;
    Ok (array_update blocks index block').

(** [responses.slice(0, -1).map(res => res.result)]. *)
Definition block_results (responses : list value) : outcome (list value) :=
  map_outcome (fun res => get_prop res "result")
    (take (length responses - 1) responses).

(** [responses[responses.length-1].result], as [forEach] walks it. *)
Definition logs_result (responses : list value) : outcome (list value) :=
  logs <- get_prop (array_index responses (Int (Z.of_nat (length responses) - 1)))
            "result" ;;
  forEach_elements logs.

(** Everything [getBlocks] does once the batch has been answered. *)
Definition getBlocks_merge (fromBlock : Z) (responses : list value)
  : outcome (list value) :=
  results <- block_results responses ;;
  blocks <- map_outcome normalize_block results ;;
  logs <- logs_result responses ;;
  fold_outcome (merge_log fromBlock) blocks logs.

Definition getBlocks (tr : transport) (fromBlock toBlock : Z) : io (list value) :=
  (responses <- request tr (getBlocks_batch fromBlock toBlock) ;;
   io_lift (getBlocks_merge fromBlock responses))%io.

(** *** [getBlocks] and the objects it updates *)

(** [getBlocks] changes the block objects of the response where they
    are, and the blocks it returns are those objects.  What that does
    to an object reachable twice -- from two places of a response, or
    from a response handed out again -- shows once objects have an
    identity: a [store] holds, by location, the current state of the
    objects that may be shared. *)
Abbreviation loc := nat.

Abbreviation store := (list value).

(** The object at [l]; where there is none, [undefined]. *)
Definition read (s : store) (l : loc) : value := default VUndef (s !! l).

(** An element of the array the batch resolves with.  [Shared l]: an
    envelope whose [result] is the object at [l].  [Tree v]: a value on
    its own, no part of which is reachable from anywhere else. *)
Inductive element : Type :=
| Shared (l : loc)
| Tree (v : value).

(** What [res.result] gives: the object at a location, or a value on
    its own. *)
Inductive answer : Type :=
| At (l : loc)
| Own (v : value).

Definition element_result (e : element) : outcome answer :=
  match e with
  | Shared l => Ok (At l)
  | Tree v =>
      r <- get_prop v "result" ;;
      Ok (Own r)
  end.

(** [Object.assign(block, {number: ..., timestamp: ...})] on what
    [res.result] gave.  The object at a location is updated there.  A
    value on its own becomes an object of the store: itself updated,
    or the wrapper [Object.assign] makes for a primitive. *)
Definition assign_in_place (a : answer) (s : store) : outcome loc * store :=
  match a with
  | At l =>
      match normalize_block (read s l) with
      | Ok block => (Ok l, <[l := block]> s)
      | Throw e => (Throw e, s)
      end
  | Own v =>
      match normalize_block v with
      | Ok block => (Ok (length s), s ++ [block])
      | Throw e => (Throw e, s)
      end
  end.

(** [.map(block => Object.assign(block, ...))], left to right: an
    exception leaves the objects already updated as they are. *)
Fixpoint normalize_in_place (answers : list answer) (s : store)
  : outcome (list loc) * store :=
  match answers with
  | [] => (Ok [], s)
  | a :: rest =>
      match assign_in_place a s with
      | (Ok l, s1) =>
          match normalize_in_place rest s1 with
          | (Ok ls, s2) => (Ok (l :: ls), s2)
          | (Throw e, s2) => (Throw e, s2)
          end
      | (Throw e, s1) => (Throw e, s1)
      end
  end.

(** [responses[i]]. *)
Definition element_at (responses : list element) (i : Z) : option element :=
  if i <? 0 then None else responses !! Z.to_nat i.

(** [responses[responses.length-1].result], as [forEach] walks it. *)
Definition logs_in_place (responses : list element) (s : store)
  : outcome (list value) :=
  match element_at responses (Z.of_nat (length responses) - 1) with
  | Some (Shared l) => forEach_elements (read s l)
  | Some (Tree v) =>
      logs <- get_prop v "result" ;;
      forEach_elements logs
  | None => Throw TypeError
  end.

(** [blocks[index]], the blocks being objects of the store. *)
Definition block_at (blocks : list loc) (i : number) : option loc :=
  match i with
  | Nan => None
  | Int z => if z <? 0 then None else blocks !! Z.to_nat z
  end.

(** The callback of [logs.forEach]: the log goes into the [logs] of
    the object [blocks[index]] designates. *)
Definition merge_log_in_place (fromBlock : Z) (blocks : list loc) (s : store)
    (log : value) : outcome store :=
  logBlockNumber <- log_block_number log ;;
  let index := number_sub logBlockNumber fromBlock in
  let block := match block_at blocks index with
               | Some l => read s l
               | None => VUndef
               end in
  logHash <- get_prop log "blockHash" ;;
  blockHash <- get_prop block "hash" ;;
  if negb (strict_eq logHash blockHash)
  then
    s1 <- to_string logHash ;;
    s2 <- to_string blockHash ;;
    Throw (Thrown (mismatch_message s1 s2))
  else
    block' <- append_log block log ;;
    Ok match block_at blocks index with
       | Some l => <[l := block']> s
       | None => s
       end.

(** [logs.forEach(...)] and [return blocks]: an exception leaves the
    logs already attached where they are. *)
Fixpoint merge_logs_in_place (fromBlock : Z) (blocks : list loc) (logs : list value)
    (s : store) : outcome (list loc) * store :=
  match logs with
  | [] => (Ok blocks, s)
  | log :: rest =>
      match merge_log_in_place fromBlock blocks s log with
      | Ok s1 => merge_logs_in_place fromBlock blocks rest s1
      | Throw e => (Throw e, s)
      end
  end.

(** Everything [getBlocks] does once the batch has been answered: the
    blocks it returns, or the exception, and the objects as it leaves
    them. *)
Definition getBlocks_in_place (fromBlock : Z) (responses : list element) (s : store)
  : outcome (list loc) * store :=
  match map_outcome element_result (take (length responses - 1) responses) with
  | Ok answers =>
      match normalize_in_place answers s with
      | (Ok blocks, s1) =>
          match logs_in_place responses s1 with
          | Ok logs => merge_logs_in_place fromBlock blocks logs s1
          | Throw e => (Throw e, s1)
          end
      | (Throw e, s1) => (Throw e, s1)
      end
  | Throw e => (Throw e, s)
  end.

(** *** [getBlocksFromArray] *)

(** [for (let bn of blockNumbers) { batch.push(...); batch.push(...) }]. *)
Definition getBlocksFromArray_batch (blockNumbers : list Z) : list rpc_request :=
  fold_left
    (fun batch bn => (batch ++ [block_request bn]) ++ [logs_request bn bn])
    blockNumbers [].

(** The body of the loop below: the block built from [responses[i]]
    and [responses[i + 1]]. *)
Definition getBlocksFromArray_step (responses : list value) (i : Z) : outcome value :=
  block <- get_prop (array_index responses (Int i)) "result" ;;
  n <- get_prop block "number" ;;
  number <- parseInt16 n ;;
  t <- get_prop block "timestamp" ;;
  timestamp <- parseInt16 t ;;
  logs <- get_prop (array_index responses (Int (i + 1))) "result" ;;
  object_assign block
    [("number"%string, VNum number);
     ("timestamp"%string, VNum timestamp);
     ("logs"%string, logs)].

(** [for (let i = 0; i < responses.length - 1; i += 2) blocks.push(...)]. *)
Fixpoint getBlocksFromArray_loop (fuel : nat) (i : Z) (responses blocks : list value)
  : outcome (list value) :=
  match fuel with
  | O => Ok blocks
  | S fuel' =>
      if i <? Z.of_nat (length responses) - 1
      then
        merged <- getBlocksFromArray_step responses i ;;
        getBlocksFromArray_loop fuel' (i + 2) responses (blocks ++ [merged])
      else Ok blocks
  end.

Definition getBlocksFromArray_merge (responses : list value) : outcome (list value) :=
  getBlocksFromArray_loop (length responses) 0 responses [].

Definition getBlocksFromArray (tr : transport) (blockNumbers : list Z) : io (list value) :=
  (responses <- request tr (getBlocksFromArray_batch blockNumbers) ;;
   io_lift (getBlocksFromArray_merge responses))%io.

(** *** [call] *)

Section Call.

(** [utils.isHex] and [utils.encodeTxData] of [lib/helpers].  Either
    may raise: [isHex] gives the truth value of what the helper
    returns, or the exception it raises on its argument. *)
Variable isHex : value -> outcome bool.
Variable encodeTxData : value -> value -> outcome value.

(** A parameter with a default takes it when the argument is
    [undefined]. *)
Definition default_arg (arg dflt : value) : value :=
  match arg with
  | VUndef => dflt
  | _ => arg
  end.

Definition expected_hex_message (blockNumber : value) : outcome string :=
  s <- to_string blockNumber ;;
  Ok ("Expected hex, got: " ++ s ++ " (type " ++ type_of blockNumber ++ ")")%string.

(** [blockNumber !== 'latest' && !utils.isHex(blockNumber)]: the
    helper is consulted only for a block number other than
    ['latest']. *)
Definition refused (blockNumber : value) : outcome bool :=
  if negb (strict_eq blockNumber (VStr "latest"))
  then
    hex <- isHex blockNumber ;;
    Ok (negb hex)
  else Ok false.

Definition call (tr : transport) (methodSignature to args blockNumber : value)
  : io value :=
  let args := default_arg args (VArr [] []) in
  let blockNumber := default_arg blockNumber (VStr "latest") in
  (no <- io_lift (refused blockNumber) ;;
   if no : bool
   then
     msg <- io_lift (expected_hex_message blockNumber) ;;
     io_throw (Thrown msg)
   else
     data <- io_lift (encodeTxData methodSignature args) ;;
     rpc tr "eth_call" [VObj [("to"%string, to); ("data"%string, data)]; blockNumber])%io.

End Call.

(** *** The single calls *)

(** [DEFAULT_GAS_LIMIT]. *)
Definition DEFAULT_GAS_LIMIT : value := VStr "0x6691b7".

Definition gasPrice (tr : transport) : io value :=
  rpc tr "eth_gasPrice" [].

Definition getCode (tr : transport) (address : value) : io value :=
  rpc tr "eth_getCode" [address; VStr "latest"].

Definition getTransactionReceipt (tr : transport) (transactionHash : value) : io value :=
  rpc tr "eth_getTransactionReceipt" [transactionHash].

Definition getTransactionCount (tr : transport) (address bn : value) : io value :=
  let bn := default_arg bn (VStr "latest") in
  rpc tr "eth_getTransactionCount" [address; bn].

(** [this.rpc('eth_blockNumber', []).then(parseInt16)]. *)
Definition blockNumber (tr : transport) : io number :=
  (answer <- rpc tr "eth_blockNumber" [] ;;
   io_lift (parseInt16 answer))%io.

(** The callback of [getBlock]: two assignments on the block, in
    strict mode, then the block. *)
Definition getBlock_then (block : value) : outcome value :=
  n <- get_prop block "number" ;;
  number <- parseInt16 n ;;
  block <- set_prop block "number" (VNum number) ;;
  t <- get_prop block "timestamp" ;;
  timestamp <- parseInt16 t ;;
  block <- set_prop block "timestamp" (VNum timestamp) ;;
  Ok block.

Definition getBlock (tr : transport) (blockNumber : Z) : io value :=
  (block <- rpc tr "eth_getBlockByNumber" [hex_literal blockNumber; VBool true] ;;
   io_lift (getBlock_then block))%io.

Definition getLogs (tr : transport) (fromBlock toBlock : Z) : io value :=
  rpc tr "eth_getLogs" [formatLogOptions fromBlock toBlock].

(** *** [transaction] *)

Section Transaction.

(** [utils.encodeTxData] and [utils.privateToAddress] of
    [lib/helpers]; [Buffer.isBuffer] and [Buffer.from(_, 'hex')] of
    the runtime; and, as one step, what [ethereumjs-tx] does with the
    fields and the key: [new ethereumTx(fields)], [tx.sign(key)],
    [tx.serialize()]. *)
Variable encodeTxData : value -> value -> outcome value.
Variable privateToAddress : value -> outcome value.
Variable isBuffer : value -> bool.
Variable bufferFromHex : value -> outcome value.
Variable signAndSerialize : value -> value -> outcome value.

(** [a || b] when [b] has no effect. *)
Definition js_or (a b : value) : value :=
  if truthy a then a else b.

(** The fields handed to [new ethereumTx]. *)
Definition tx_fields (to data nonce gas gasPrice_ value_ : value) : value :=
  VObj [("to"%string, to);
        ("data"%string, data);
        ("nonce"%string, nonce);
        ("gas"%string, js_or gas DEFAULT_GAS_LIMIT);
        ("gasPrice"%string, gasPrice_);
        ("value"%string, js_or value_ (VStr "0x"))].

(** The parameters [value] and [gasPrice] of the source are [value_]
    and [gasPrice_] here, where the plain names are taken. *)
Definition transaction (tr : transport)
    (methodSignature to args privateKey nonce value_ gas gasPrice_ data : value)
  : io value :=
  let args := default_arg args (VArr [] []) in
  (data <- (if truthy data then io_ret data
            else io_lift (encodeTxData methodSignature args)) ;;
   privateKey <- (if isBuffer privateKey then io_ret privateKey
                  else io_lift (bufferFromHex privateKey)) ;;
   nonce <- (if truthy nonce then io_ret nonce
             else (address <- io_lift (privateToAddress privateKey) ;;
                   getTransactionCount tr address VUndef)) ;;
   gasPrice_ <- (if truthy gasPrice_ then io_ret gasPrice_ else gasPrice tr) ;;
   raw <- io_lift (signAndSerialize (tx_fields to data nonce gas gasPrice_ value_)
                     privateKey) ;;
   rpc tr "eth_sendRawTransaction" [raw])%io.

End Transaction.

(** ** Observations used to state the properties *)

(** The comparison the callback of [getBlocks] makes for [log] against
    the block its index designates in [blocks]: [Ok true] when the
    hashes are strictly equal, [Ok false] when they differ, an
    exception when the index designates no block. *)
Definition log_matches (fromBlock : Z) (blocks : list value) (log : value)
  : outcome bool :=
  logBlockNumber <- log_block_number log ;;
  let block := array_index blocks (number_sub logBlockNumber fromBlock) in
  logHash <- get_prop log "blockHash" ;;
  blockHash <- get_prop block "hash" ;;
  Ok (strict_eq logHash blockHash).

(** Whether the index computed for [log] is [k]. *)
Definition at_index (fromBlock : Z) (k : nat) (log : value) : bool :=
  match log_block_number log with
  | Ok (Int m) => m - fromBlock =? Z.of_nat k
  | _ => false
  end.

(** The [logs] sequence a block carries, empty when it carries none. *)
Definition block_logs (block : value) : list value :=
  match get_prop block "logs" with
  | Ok (VArr elems _) => elems
  | _ => []
  end.

Definition logs_at (blocks : list value) (k : nat) : list value :=
  block_logs (default VUndef (blocks !! k)).

(** Values whose conversion to a string cannot fail. *)
Definition is_scalar (v : value) : bool :=
  match v with
  | VUndef | VNull | VPrim _ => true
  | _ => false
  end.

(** A [logs] property a log can be merged into: none, or an array. *)
Definition logs_slot_ok (v : value) : bool :=
  negb (truthy v) ||
  match v with
  | VArr _ ps => negb (has_prop "push" ps)
  | _ => false
  end.

(** A block object as a node answers it: an object whose [number] and
    [timestamp] are scalars. *)
Definition block_object (block : value) : bool :=
  match block with
  | VObj ps =>
      is_scalar (lookup_prop "number" ps) && is_scalar (lookup_prop "timestamp" ps)
  | _ => false
  end.

(** Such a block, ready for [getBlocks] to merge logs into. *)
Definition well_formed_block (block : value) : bool :=
  block_object block
  && match block with
     | VObj ps => logs_slot_ok (lookup_prop "logs" ps)
     | _ => false
     end.

(** One response per request, in the order of the requests: the
    response at position [k] carries the block numbered
    [fromBlock + k]. *)
Definition answers_in_order (fromBlock toBlock : Z) (responses : list value) : Prop :=
  length responses = length (getBlocks_batch fromBlock toBlock)
  /\ forall (k : nat) (res : value),
       Z.of_nat k < toBlock - fromBlock ->
       responses !! k = Some res ->
       exists block,
         get_prop res "result" = Ok block
         /\ get_prop block "number" = Ok (hex_literal (fromBlock + Z.of_nat k)).

(** [b'] is [b] up to the properties named in [names]: the same kind of
    object, and the same value under every other name. *)
Definition same_but (names : list string) (b b' : value) : Prop :=
  (forall key, ~ In key names -> get_prop b' key = get_prop b key)
  /\ (forall ps, b = VObj ps -> exists ps', b' = VObj ps').

(** Blocks related position by position. *)
Definition blocks_same_but (names : list string) (blocks blocks' : list value) : Prop :=
  Forall2 (same_but names) blocks blocks'.

(** A block the callback can append to: an object whose [logs] is
    absent or an array. *)
Definition mergeable_block (b : value) : Prop :=
  exists ps, b = VObj ps /\ logs_slot_ok (lookup_prop "logs" ps) = true.

(** The pair of responses for the [k]-th requested block of
    [getBlocksFromArray]: a block object, then some answer for its
    logs, whatever it holds. *)
Definition pair_answered (responses : list value) (k : nat) : Prop :=
  exists res block res' logs,
    responses !! (2 * k)%nat = Some res
    /\ get_prop res "result" = Ok block
    /\ block_object block = true
    /\ responses !! (2 * k + 1)%nat = Some res'
    /\ get_prop res' "result" = Ok logs.

(** The block [getBlocksFromArray] builds from the [k]-th pair of
    responses: the block of response [2k], its [number] and
    [timestamp] parsed, its [logs] the result of response [2k + 1]. *)
Definition built_from_pair (responses : list value) (k : nat) (block : value) : Prop :=
  exists res raw res' logs vn n vt t,
    responses !! (2 * k)%nat = Some res
    /\ get_prop res "result" = Ok raw
    /\ responses !! (2 * k + 1)%nat = Some res'
    /\ get_prop res' "result" = Ok logs
    /\ get_prop raw "number" = Ok vn /\ parseInt16 vn = Ok n
    /\ get_prop raw "timestamp" = Ok vt /\ parseInt16 vt = Ok t
    /\ object_assign raw
         [("number"%string, VNum n); ("timestamp"%string, VNum t); ("logs"%string, logs)]
       = Ok block.

(** The values of [i] the loop of [getBlocksFromArray] goes through in
    [n] rounds. *)
Fixpoint pair_starts (n : nat) (i : Z) : list Z :=
  match n with
  | O => []
  | S n' => i :: pair_starts n' (i + 2)
  end.

(** What a call on objects of a store yields to its caller: the
    blocks as they are when it returns, or the exception. *)
Definition yielded (r : outcome (list loc) * store) : outcome (list value) :=
  match fst r with
  | Ok blocks => Ok (map (read (snd r)) blocks)
  | Throw e => Throw e
  end.

(** The [number] of each block yielded. *)
Definition numbers_of (o : outcome (list value)) : list (outcome value) :=
  match o with
  | Ok blocks => map (fun block => get_prop block "number") blocks
  | Throw _ => []
  end.

(** The [logs] of each block yielded. *)
Definition logs_of (o : outcome (list value)) : list (list value) :=
  match o with
  | Ok blocks => map block_logs blocks
  | Throw _ => []
  end.

(** An element of a response as a deep comparison sees it, and a
    response as received. *)
Definition element_value (s : store) (e : element) : value :=
  match e with
  | Shared l => VObj [("result"%string, read s l)]
  | Tree v => v
  end.

Definition received (s : store) (responses : list element) : list value :=
  map (element_value s) responses.

(** What [res.result] stands for as a value. *)
Definition content (s : store) (a : answer) : value :=
  match a with
  | At l => read s l
  | Own v => v
  end.

(** The locations a response refers to, and those of its blocks. *)
Fixpoint shared_locs (responses : list element) : list loc :=
  match responses with
  | [] => []
  | Shared l :: rest => l :: shared_locs rest
  | Tree _ :: rest => shared_locs rest
  end.

Definition block_locs (responses : list element) : list loc :=
  shared_locs (take (length responses - 1) responses).

Fixpoint at_locs (answers : list answer) : list loc :=
  match answers with
  | [] => []
  | At l :: rest => l :: at_locs rest
  | Own _ :: rest => at_locs rest
  end.

Fixpoint distinct (ls : list loc) : bool :=
  match ls with
  | [] => true
  | l :: rest => negb (existsb (Nat.eqb l) rest) && distinct rest
  end.

(** A response none of whose objects occurs twice in it, all of them
    objects of the store: what decoding a JSON document gives. *)
Definition separate (s : store) (responses : list element) : bool :=
  distinct (shared_locs responses)
  && forallb (fun l => l <? length s)%nat (shared_locs responses).

(** ** A sample node *)

Definition envelope (result : value) : value :=
  VObj [("jsonrpc"%string, VStr "2.0"); ("result"%string, result)].

Definition sample_block (n : Z) (hash : string) : value :=
  VObj [("number"%string, hex_literal n);
        ("hash"%string, VStr hash);
        ("timestamp"%string, VStr "0x5f5e100");
        ("miner"%string, VStr "0x00")].

Definition sample_log (n : Z) (hash data : string) : value :=
  VObj [("blockNumber"%string, hex_literal n);
        ("blockHash"%string, VStr hash);
        ("data"%string, VStr data)].

Definition sample_logs : list value :=
  [sample_log 11 "0xbb" "first";
   sample_log 10 "0xaa" "second";
   sample_log 11 "0xbb" "third"].

(** An answer to [getBlocks(10, 12)]. *)
Definition sample_responses : list value :=
  [envelope (sample_block 10 "0xaa");
   envelope (sample_block 11 "0xbb");
   envelope (VArr sample_logs [])].

(** The sample answer with the hash of the second log altered. *)
Definition mismatching_responses : list value :=
  [envelope (sample_block 10 "0xaa");
   envelope (sample_block 11 "0xbb");
   envelope (VArr [sample_log 11 "0xbb" "first";
                   sample_log 10 "0xee" "second";
                   sample_log 11 "0xbb" "third"] [])].

(** The sample answer with a log of block 12, which was not asked
    for. *)
Definition stray_responses : list value :=
  [envelope (sample_block 10 "0xaa");
   envelope (sample_block 11 "0xbb");
   envelope (VArr [sample_log 11 "0xbb" "first"; sample_log 12 "0xbb" "late"] [])].

(** An answer to [getBlocksFromArray([10, 11])], the log of block 11
    carrying a hash that is not the block's. *)
Definition sample_pairs : list value :=
  [envelope (sample_block 10 "0xaa");
   envelope (VArr [sample_log 10 "0xaa" "second"] []);
   envelope (sample_block 11 "0xbb");
   envelope (VArr [sample_log 11 "0xcc" "first"] [])].

(** The block objects of two answers to [getBlocks(10, 12)], decoded
    one after the other. *)
Definition sample_store : store :=
  [sample_block 10 "0xaa"; sample_block 11 "0xbb";
   sample_block 10 "0xaa"; sample_block 11 "0xbb"].

(** The first answer, and the second. *)
Definition sample_shared : list element :=
  [Shared 0%nat; Shared 1%nat; Tree (envelope (VArr sample_logs []))].

Definition sample_shared_copy : list element :=
  [Shared 2%nat; Shared 3%nat; Tree (envelope (VArr sample_logs []))].

(** A mocked answer holding one block object in both places, and one
    holding two equal block objects. *)
Definition twice_shared : list element :=
  [Shared 0%nat; Shared 0%nat; Tree (envelope (VArr [] []))].

Definition apart_shared : list element :=
  [Shared 0%nat; Shared 2%nat; Tree (envelope (VArr [] []))].

(** Two calls in a row handed the same response objects. *)
Definition first_call : outcome (list loc) * store :=
  getBlocks_in_place 10 sample_shared sample_store.

Definition second_call : outcome (list loc) * store :=
  getBlocks_in_place 10 sample_shared (snd first_call).

(** A transport that answers every batch with [responses]. *)
Definition fixed_transport (responses : list value) : transport :=
  {| rpc_answer := fun _ _ => Ok VNull;
     batch_answer := fun _ => Ok responses |}.

Fixpoint all_hex_digits (s : string) : bool :=
  match s with
  | EmptyString => true
  | String c rest =>
      match hex_digit_value c with
      | Some _ => all_hex_digits rest
      | None => false
      end
  end.

(** Hexadecimal digits, at least one. *)
Definition hex_digits (s : string) : bool :=
  match s with
  | EmptyString => false
  | _ => all_hex_digits s
  end.

(** Stand-ins for [utils.isHex] and [utils.encodeTxData] in the
    examples, [lib/helpers] being outside this file.  The one for
    [isHex] works on its argument as a string: it raises a [TypeError]
    on anything else, accepts hexadecimal digits with or without [0x]
    in front (['0xa'], ['12']), and answers false on a string with
    another character (['zz']).  Every call encodes to the empty
    payload. *)
Definition sample_isHex (v : value) : outcome bool :=
  match v with
  | VStr (String "0" (String "x" digits)) => Ok (hex_digits digits)
  | VStr s => Ok (hex_digits s)
  | _ => Throw TypeError
  end.

Definition sample_encodeTxData (methodSignature args : value) : outcome value :=
  Ok (VStr "0x").

(** An argument as [transaction] sees it through [||] and
    [if]: a falsy one counts as left out. *)
Definition omitted_if_falsy (v : value) : value :=
  if truthy v then v else VUndef.

(** A transport that answers single calls with [answer] and every
    batch with [responses]. *)
Definition node_transport (answer : string -> list value -> outcome value)
    (responses : list value) : transport :=
  {| rpc_answer := answer; batch_answer := fun _ => Ok responses |}.

(** Stand-ins for the libraries [transaction] uses, in the examples:
    a buffer is an array, the address of a key is a fixed string, and
    the signed transaction shows its fields and its key. *)
Definition sample_isBuffer (v : value) : bool :=
  match v with
  | VArr _ _ => true
  | _ => false
  end.

Definition sample_bufferFromHex (v : value) : outcome value :=
  match v with
  | VStr s => Ok (VArr [VStr s] [])
  | _ => Throw TypeError
  end.

Definition sample_privateToAddress (key : value) : outcome value :=
  Ok (VStr "0xa1").

Definition sample_signAndSerialize (fields key : value) : outcome value :=
  Ok (VArr [fields; key] []).

(** A node for the examples of [transaction]: seven transactions sent
    so far, a gas price, and a hash for what is sent. *)
Definition sample_node_answer (method : string) (params : list value) : outcome value :=
  if String.eqb method "eth_getTransactionCount" then Ok (VStr "0x7")
  else if String.eqb method "eth_gasPrice" then Ok (VStr "0x3b9aca00")
  else Ok (VStr "0xf00d").

(** * Properties *)

(** ** Hexadecimal literals *)

Lemma hex_digit_value_digit_char (d : Z) :
  0 <= d < 16 -> hex_digit_value (digit_char d) = Some d.
Proof.
  intros Hd.
  assert (Hcases : d = 0 \/ d = 1 \/ d = 2 \/ d = 3 \/ d = 4 \/ d = 5 \/ d = 6
                   \/ d = 7 \/ d = 8 \/ d = 9 \/ d = 10 \/ d = 11 \/ d = 12
                   \/ d = 13 \/ d = 14 \/ d = 15) by lia.
  repeat (destruct Hcases as [-> | Hcases]; [reflexivity |]).
  subst d. reflexivity.
Qed.

(** Reading back the digits written for [n] shifts the accumulator by
    as many places and adds [n]. *)
Lemma parse_radix_digits (fuel : nat) :
  forall (n : Z) (acc : string),
    0 <= n < 2 ^ Z.of_nat fuel ->
    exists k, 0 <= k /\
      forall a, parse_hex_digits (radix_digits fuel 16 n acc) a
                = parse_hex_digits acc (a * 16 ^ k + n).
Proof.
  induction fuel as [| fuel IH]; intros n acc Hn.
  - exists 0. split; [lia |]. intros a. simpl in *.
    f_equal. lia.
  - assert (Hmod : 0 <= n mod 16 < 16) by (apply Z.mod_pos_bound; lia).
    assert (Hdiv : n = 16 * (n / 16) + n mod 16) by (apply Z.div_mod; lia).
    simpl radix_digits.
    destruct (n / 16 =? 0) eqn:Hq.
    + apply Z.eqb_eq in Hq. exists 1. split; [lia |]. intros a.
      simpl. rewrite hex_digit_value_digit_char by exact Hmod.
      f_equal. lia.
    + apply Z.eqb_neq in Hq.
      assert (Hbound : 0 <= n / 16 < 2 ^ Z.of_nat fuel).
      { split; [apply Z.div_pos; lia |].
        apply Z.div_lt_upper_bound; [lia |].
        rewrite Nat2Z.inj_succ, Z.pow_succ_r in Hn by lia. lia. }
      destruct (IH (n / 16) (String (digit_char (n mod 16)) acc) Hbound)
        as (k & Hk & Hparse).
      exists (k + 1). split; [lia |]. intros a.
      rewrite Hparse. simpl.
      rewrite hex_digit_value_digit_char by exact Hmod.
      f_equal. rewrite Z.pow_add_r by lia. lia.
Qed.

Lemma radix_digits_head (fuel : nat) :
  forall (n : Z) (acc : string),
    0 <= n ->
    exists d rest, 0 <= d < 16 /\
      radix_digits (S fuel) 16 n acc = String (digit_char d) rest.
Proof.
  induction fuel as [| fuel IH]; intros n acc Hn.
  - exists (n mod 16), acc. split; [apply Z.mod_pos_bound; lia |].
    simpl. destruct (n / 16 =? 0); reflexivity.
  - change (radix_digits (S (S fuel)) 16 n acc)
      with (if n / 16 =? 0 then String (digit_char (n mod 16)) acc
            else radix_digits (S fuel) 16 (n / 16) (String (digit_char (n mod 16)) acc)).
    destruct (n / 16 =? 0).
    + exists (n mod 16), acc. split; [apply Z.mod_pos_bound; lia | reflexivity].
    + apply IH. apply Z.div_pos; lia.
Qed.

Lemma digits_fuel_enough (n : Z) :
  0 <= n -> 0 <= n < 2 ^ Z.of_nat (digits_fuel n).
Proof.
  intros Hn. split; [exact Hn |].
  unfold digits_fuel. rewrite Nat2Z.inj_succ, Z2Nat.id by apply Z.log2_nonneg.
  destruct (Z.eq_dec n 0) as [-> | Hne]; [reflexivity |].
  apply Z.log2_spec. lia.
Qed.

(** After [0x], a string that starts with a hexadecimal digit is read
    as its run of digits. *)
Lemma parseInt_hex_prefixed (c : ascii) (rest : string) (d : Z) :
  hex_digit_value c = Some d ->
  parseInt_hex ("0x" ++ String c rest) = Int (parse_hex_digits (String c rest) 0).
Proof.
  intros Hc. unfold parseInt_hex.
  change (skip_whitespace ("0x" ++ String c rest))
    with (String "0" (String "x" (String c rest))).
  cbv iota beta. rewrite Hc. f_equal.
  destruct (parse_hex_digits (String c rest) 0); reflexivity.
Qed.

(** [parseInt('0x' + n.toString(16), 16)] is [n] for [n >= 0]. *)
Lemma parseInt16_hex_literal (n : Z) :
  0 <= n -> parseInt16 (hex_literal n) = Ok (Int n).
Proof.
  intros Hn. unfold parseInt16, hex_literal, number_toString.
  destruct (n <? 0) eqn:Hneg; [apply Z.ltb_lt in Hneg; lia |].
  destruct (radix_digits_head (Z.to_nat (Z.log2 n)) n EmptyString Hn)
    as (d & rest & Hd & Hshape).
  destruct (parse_radix_digits (digits_fuel n) n EmptyString (digits_fuel_enough n Hn))
    as (k & Hk & Hparse).
  specialize (Hparse 0).
  unfold digits_fuel in *. rewrite Hshape in *.
  cbn [to_string prim_to_string obind].
  rewrite (parseInt_hex_prefixed _ _ d) by (apply hex_digit_value_digit_char; exact Hd).
  rewrite Hparse. cbn [parse_hex_digits]. rewrite Z.mul_0_l, Z.add_0_l. reflexivity.
Qed.

(** ** The batches *)

(** The loop of [getBlocks] pushes the requests for [i, i+1, ...,
    toBlock-1] and then stops, whatever fuel is left. *)
Lemma getBlocks_loop_spec (fuel : nat) :
  forall (i toBlock : Z) (batch : list rpc_request),
    (Z.to_nat (toBlock - i) <= fuel)%nat ->
    getBlocks_loop fuel i toBlock batch
    = batch ++ map block_request (seqZ i (toBlock - i)).
Proof.
  induction fuel as [| fuel IH]; intros i toBlock batch Hfuel.
  - assert (Hle : toBlock - i <= 0) by lia.
    simpl. unfold seqZ. replace (Z.to_nat (toBlock - i)) with O by lia.
    simpl. now rewrite app_nil_r.
  - simpl. destruct (i <? toBlock) eqn:Hlt.
    + apply Z.ltb_lt in Hlt.
      rewrite IH by lia.
      rewrite (seqZ_cons i (toBlock - i)) by lia.
      replace (Z.pred (toBlock - i)) with (toBlock - (i + 1)) by lia.
      replace (Z.succ i) with (i + 1) by lia.
      simpl. now rewrite <- app_assoc.
    + apply Z.ltb_ge in Hlt.
      unfold seqZ. replace (Z.to_nat (toBlock - i)) with O by lia.
      simpl. now rewrite app_nil_r.
Qed.

Lemma getBlocks_batch_spec (fromBlock toBlock : Z) :
  getBlocks_batch fromBlock toBlock
  = map block_request (seqZ fromBlock (toBlock - fromBlock))
      ++ [logs_request fromBlock (toBlock - 1)].
Proof.
  unfold getBlocks_batch. now rewrite getBlocks_loop_spec by lia.
Qed.

Lemma getBlocks_batch_length (fromBlock toBlock : Z) :
  fromBlock <= toBlock ->
  Z.of_nat (length (getBlocks_batch fromBlock toBlock)) = toBlock - fromBlock + 1.
Proof.
  intros Hle. rewrite getBlocks_batch_spec.
  rewrite length_app, length_map, length_seqZ. simpl. lia.
Qed.

(** What [getBlocks] leaves in the trace: the one batch. *)
Lemma getBlocks_trace (tr : transport) (fromBlock toBlock : Z) (h : list event) :
  snd (getBlocks tr fromBlock toBlock h)
  = h ++ [BatchSent (getBlocks_batch fromBlock toBlock)].
Proof.
  unfold getBlocks, io_bind, request, io_lift.
  destruct (batch_answer tr (getBlocks_batch fromBlock toBlock)); reflexivity.
Qed.

(** And what it returns: the merge of what the transport answered. *)
Lemma getBlocks_outcome (tr : transport) (fromBlock toBlock : Z) (h : list event) :
  fst (getBlocks tr fromBlock toBlock h)
  = (responses <- batch_answer tr (getBlocks_batch fromBlock toBlock) ;;
     getBlocks_merge fromBlock responses).
Proof.
  unfold getBlocks, io_bind, request, io_lift.
  destruct (batch_answer tr (getBlocks_batch fromBlock toBlock)); reflexivity.
Qed.

Lemma getBlocksFromArray_fold (blockNumbers : list Z) :
  forall batch : list rpc_request,
    fold_left
      (fun batch bn => (batch ++ [block_request bn]) ++ [logs_request bn bn])
      blockNumbers batch
    = batch ++ flat_map (fun bn => [block_request bn; logs_request bn bn]) blockNumbers.
Proof.
  induction blockNumbers as [| bn rest IH]; intros batch; simpl.
  - now rewrite app_nil_r.
  - rewrite IH. now rewrite <- !app_assoc.
Qed.

Lemma getBlocksFromArray_batch_spec (blockNumbers : list Z) :
  getBlocksFromArray_batch blockNumbers
  = flat_map (fun bn => [block_request bn; logs_request bn bn]) blockNumbers.
Proof.
  unfold getBlocksFromArray_batch. now rewrite getBlocksFromArray_fold.
Qed.

Lemma paired_requests_lookup (blockNumbers : list Z) :
  forall (k : nat) (bn : Z),
    blockNumbers !! k = Some bn ->
    flat_map (fun bn => [block_request bn; logs_request bn bn]) blockNumbers !! (2 * k)%nat
    = Some (block_request bn)
    /\ flat_map (fun bn => [block_request bn; logs_request bn bn]) blockNumbers
         !! (2 * k + 1)%nat
       = Some (logs_request bn bn).
Proof.
  induction blockNumbers as [| b rest IH]; intros k bn Hk; [discriminate |].
  destruct k as [| k].
  - simpl in Hk. injection Hk as ->. split; reflexivity.
  - simpl in Hk. destruct (IH k bn Hk) as [Hblock Hlogs].
    replace (2 * S k)%nat with (S (S (2 * k))) by lia.
    replace (S (S (2 * k)) + 1)%nat with (S (S (2 * k + 1))) by lia.
    simpl flat_map. split; assumption.
Qed.

Lemma paired_requests_length (blockNumbers : list Z) :
  length (flat_map (fun bn => [block_request bn; logs_request bn bn]) blockNumbers)
  = (2 * length blockNumbers)%nat.
Proof.
  induction blockNumbers as [| b rest IH]; simpl; [reflexivity |].
  rewrite IH. lia.
Qed.

Lemma getBlocksFromArray_trace (tr : transport) (blockNumbers : list Z) (h : list event) :
  snd (getBlocksFromArray tr blockNumbers h)
  = h ++ [BatchSent (getBlocksFromArray_batch blockNumbers)].
Proof.
  unfold getBlocksFromArray, io_bind, request, io_lift.
  destruct (batch_answer tr (getBlocksFromArray_batch blockNumbers)); reflexivity.
Qed.

Lemma getBlocksFromArray_outcome (tr : transport) (blockNumbers : list Z) (h : list event) :
  fst (getBlocksFromArray tr blockNumbers h)
  = (responses <- batch_answer tr (getBlocksFromArray_batch blockNumbers) ;;
     getBlocksFromArray_merge responses).
Proof.
  unfold getBlocksFromArray, io_bind, request, io_lift.
  destruct (batch_answer tr (getBlocksFromArray_batch blockNumbers)); reflexivity.
Qed.

(** ** Outcomes, maps and folds *)

Lemma obind_ok {A B : Type} (m : outcome A) (f : A -> outcome B) (b : B) :
  obind m f = Ok b -> exists a, m = Ok a /\ f a = Ok b.
Proof.
  destruct m as [a | e]; simpl; intros H; [eauto | discriminate].
Qed.

(** Splits a hypothesis [x <- m ;; k = Ok b] into its two steps. *)
Ltac ok_inv H :=
  let a := fresh "a" in
  let Ha := fresh "Hstep" in
  apply obind_ok in H; destruct H as (a & Ha & H).

Lemma map_outcome_Forall2 {A B : Type} (f : A -> outcome B) (xs : list A) :
  forall ys, map_outcome f xs = Ok ys <-> Forall2 (fun x y => f x = Ok y) xs ys.
Proof.
  induction xs as [| x rest IH]; intros ys; simpl.
  - split.
    + intros H. injection H as <-. constructor.
    + intros H. inversion H. reflexivity.
  - split.
    + intros H. ok_inv H. ok_inv H. injection H as <-.
      constructor; [assumption | now apply IH].
    + intros H. inversion H as [| x' y l l' Hxy Hrest]; subst.
      rewrite Hxy. simpl. apply IH in Hrest. rewrite Hrest. reflexivity.
Qed.

Lemma map_outcome_total {A B : Type} (f : A -> outcome B) (xs : list A) :
  Forall (fun x => exists y, f x = Ok y) xs -> exists ys, map_outcome f xs = Ok ys.
Proof.
  induction 1 as [| x rest [y Hy] _ [ys Hys]]; simpl.
  - eauto.
  - rewrite Hy, Hys. simpl. eauto.
Qed.

(** A fold fails as soon as the list holds an element on which the
    callback fails in every state the fold can be in. *)
Lemma fold_outcome_poisoned {A S : Type} (f : S -> A -> outcome S)
      (Inv : S -> Prop) (x : A) :
  (forall s y s', Inv s -> f s y = Ok s' -> Inv s') ->
  (forall s, Inv s -> exists e, f s x = Throw e) ->
  forall xs s, In x xs -> Inv s -> exists e, fold_outcome f s xs = Throw e.
Proof.
  intros Hkeep Hfail xs.
  induction xs as [| y rest IH]; intros s Hin Hs; [destruct Hin |].
  simpl. destruct (f s y) as [s' | e] eqn:Hstep; simpl; [| eauto].
  destruct Hin as [-> | Hin].
  - destruct (Hfail s Hs) as [e He]. congruence.
  - apply IH; [assumption | eauto].
Qed.

(** A fold succeeds when the callback succeeds on every element in
    every state the fold can be in. *)
Lemma fold_outcome_total {A S : Type} (f : S -> A -> outcome S)
      (Inv : S -> Prop) (xs : list A) :
  (forall s y, Inv s -> In y xs -> exists s', f s y = Ok s' /\ Inv s') ->
  forall s, Inv s -> exists s', fold_outcome f s xs = Ok s' /\ Inv s'.
Proof.
  induction xs as [| y rest IH]; intros Hstep s Hs; simpl.
  - eauto.
  - destruct (Hstep s y Hs (or_introl eq_refl)) as (s1 & Hs1 & Hinv1).
    rewrite Hs1. simpl. apply IH; [| assumption].
    intros s2 z Hs2 Hz. apply Hstep; [assumption | now right].
Qed.

(** A property of the state that every successful step carries along
    holds at the end of a successful fold. *)
Lemma fold_outcome_invariant {A S : Type} (f : S -> A -> outcome S)
      (R : S -> S -> Prop) :
  (forall s, R s s) ->
  (forall s1 s2 s3, R s1 s2 -> R s2 s3 -> R s1 s3) ->
  (forall s y s', f s y = Ok s' -> R s s') ->
  forall xs s s', fold_outcome f s xs = Ok s' -> R s s'.
Proof.
  intros Hrefl Htrans Hstep xs.
  induction xs as [| y rest IH]; intros s s' H; simpl in H.
  - injection H as <-. apply Hrefl.
  - ok_inv H. eapply Htrans; [eapply Hstep | eapply IH]; eassumption.
Qed.

(** ** Own properties *)

Lemma lookup_prop_write_eq (k : string) (v : value) (ps : props) :
  lookup_prop k (write_prop k v ps) = v.
Proof.
  induction ps as [| [k' v'] rest IH]; simpl.
  - now rewrite String.eqb_refl.
  - destruct (String.eqb k k') eqn:Hk; simpl.
    + now rewrite String.eqb_refl.
    + now rewrite Hk.
Qed.

Lemma lookup_prop_write_ne (k key : string) (v : value) (ps : props) :
  key <> k -> lookup_prop key (write_prop k v ps) = lookup_prop key ps.
Proof.
  intros Hne. induction ps as [| [k' v'] rest IH]; simpl.
  - apply String.eqb_neq in Hne. now rewrite Hne.
  - destruct (String.eqb k k') eqn:Hk; simpl.
    + apply String.eqb_eq in Hk. subst k'.
      apply String.eqb_neq in Hne. now rewrite Hne.
    + now rewrite IH.
Qed.

Lemma has_prop_write_ne (k key : string) (v : value) (ps : props) :
  key <> k -> has_prop key (write_prop k v ps) = has_prop key ps.
Proof.
  intros Hne. induction ps as [| [k' v'] rest IH]; simpl.
  - apply String.eqb_neq in Hne. now rewrite Hne.
  - destruct (String.eqb k k') eqn:Hk; simpl.
    + apply String.eqb_eq in Hk. now subst k'.
    + now rewrite IH.
Qed.

Lemma lookup_prop_assign_other (key : string) (source : props) :
  ~ In key (map fst source) ->
  forall target, lookup_prop key (assign_props target source) = lookup_prop key target.
Proof.
  unfold assign_props.
  induction source as [| [k v] rest IH]; intros Hnot target; simpl; [reflexivity |].
  simpl in Hnot. rewrite IH by tauto.
  apply lookup_prop_write_ne. intros ->. tauto.
Qed.

Lemma same_but_refl (names : list string) (b : value) : same_but names b b.
Proof. split; eauto. Qed.

Lemma same_but_trans (names : list string) (b1 b2 b3 : value) :
  same_but names b1 b2 -> same_but names b2 b3 -> same_but names b1 b3.
Proof.
  intros [H12 K12] [H23 K23]. split.
  - intros key Hkey. rewrite H23, H12 by assumption. reflexivity.
  - intros ps Hps. destruct (K12 ps Hps) as [ps2 Hps2]. eauto.
Qed.

Lemma same_but_weaken (names names' : list string) (b b' : value) :
  (forall key, In key names -> In key names') ->
  same_but names b b' -> same_but names' b b'.
Proof.
  intros Hsub [H K]. split; [| assumption].
  intros key Hkey. apply H. intros Hin. apply Hkey, Hsub, Hin.
Qed.

Lemma object_assign_same_but (b b' : value) (source : props) :
  object_assign b source = Ok b' -> same_but (map fst source) b b'.
Proof.
  intros H. split.
  - intros key Hkey.
    destruct b; simpl in H; try discriminate; injection H as <-; simpl;
      rewrite lookup_prop_assign_other by assumption; reflexivity.
  - intros ps ->. simpl in H. injection H as <-. eauto.
Qed.

Lemma set_prop_same_but (b b' x : value) (k : string) :
  set_prop b k x = Ok b' -> same_but [k] b b'.
Proof.
  intros H. split.
  - intros key Hkey.
    assert (Hne : key <> k) by (intros ->; apply Hkey; now left).
    destruct b; simpl in H; try discriminate; injection H as <-; simpl;
      rewrite lookup_prop_write_ne by assumption; reflexivity.
  - intros ps ->. simpl in H. injection H as <-. eauto.
Qed.

Lemma set_prop_get (b b' x : value) (k : string) :
  set_prop b k x = Ok b' -> get_prop b' k = Ok x.
Proof.
  intros H.
  destruct b; simpl in H; try discriminate; injection H as <-; simpl;
    now rewrite lookup_prop_write_eq.
Qed.

(** ** Normalising a block *)

Lemma normalize_block_inv (b b' : value) :
  normalize_block b = Ok b' ->
  exists vn n vt t,
    get_prop b "number" = Ok vn /\ parseInt16 vn = Ok n
    /\ get_prop b "timestamp" = Ok vt /\ parseInt16 vt = Ok t
    /\ object_assign b [("number"%string, VNum n); ("timestamp"%string, VNum t)] = Ok b'.
Proof.
  unfold normalize_block. intros H.
  ok_inv H. ok_inv H. ok_inv H. ok_inv H.
  eauto 10.
Qed.

Lemma normalize_block_same_but (b b' : value) :
  normalize_block b = Ok b' -> same_but ["number"; "timestamp"]%string b b'.
Proof.
  intros H. apply normalize_block_inv in H.
  destruct H as (vn & n & vt & t & _ & _ & _ & _ & H).
  now apply object_assign_same_but in H.
Qed.

Lemma normalize_block_fields (b b' : value) :
  normalize_block b = Ok b' ->
  exists vn n vt t,
    get_prop b "number" = Ok vn /\ parseInt16 vn = Ok n
    /\ get_prop b "timestamp" = Ok vt /\ parseInt16 vt = Ok t
    /\ get_prop b' "number" = Ok (VNum n)
    /\ get_prop b' "timestamp" = Ok (VNum t).
Proof.
  intros H. apply normalize_block_inv in H.
  destruct H as (vn & n & vt & t & Hn & Hpn & Ht & Hpt & H).
  exists vn, n, vt, t. repeat (split; [assumption |]).
  destruct b; cbn [object_assign] in H; try discriminate; injection H as <-;
    cbn [get_prop];
    (split; [rewrite ?lookup_prop_write_ne by discriminate |]);
    rewrite ?lookup_prop_write_eq; reflexivity.
Qed.

Lemma to_string_scalar (v : value) :
  is_scalar v = true -> exists s, to_string v = Ok s.
Proof.
  destruct v; simpl; intros H; try discriminate; eauto.
Qed.

Lemma parseInt16_scalar (v : value) :
  is_scalar v = true -> exists n, parseInt16 v = Ok n.
Proof.
  intros H. destruct (to_string_scalar v H) as [s Hs].
  unfold parseInt16. rewrite Hs. simpl. eauto.
Qed.

Lemma normalize_block_well_formed (b : value) :
  well_formed_block b = true ->
  exists ps', normalize_block b = Ok (VObj ps').
Proof.
  destruct b as [| | p | ps | elems ps | p ps]; simpl; try discriminate.
  intros H. apply andb_prop in H as [H Hlogs]. apply andb_prop in H as [Hn Ht].
  destruct (parseInt16_scalar _ Hn) as [n Hpn].
  destruct (parseInt16_scalar _ Ht) as [t Hpt].
  unfold normalize_block. simpl. rewrite Hpn. simpl. rewrite Hpt. simpl. eauto.
Qed.

(** ** Merging one log *)

Lemma get_prop_array_index (arr : list value) (i : number) (key : string) (v : value) :
  get_prop (array_index arr i) key = Ok v ->
  exists z x, i = Int z /\ 0 <= z /\ arr !! Z.to_nat z = Some x
              /\ array_index arr i = x.
Proof.
  destruct i as [| z]; simpl; [discriminate |].
  destruct (z <? 0) eqn:Hz; simpl; [discriminate |].
  apply Z.ltb_ge in Hz.
  destruct (arr !! Z.to_nat z) as [x |] eqn:Hx; simpl; [| discriminate].
  intros _. exists z, x. auto.
Qed.

Lemma array_index_out_of_range (arr : list value) (z : Z) :
  z < 0 \/ Z.of_nat (length arr) <= z -> array_index arr (Int z) = VUndef.
Proof.
  intros Hz. simpl. destruct (z <? 0) eqn:Hneg; [reflexivity |].
  apply Z.ltb_ge in Hneg.
  rewrite (lookup_ge_None_2 arr (Z.to_nat z)) by lia. reflexivity.
Qed.

Lemma falsy_not_array (v : value) :
  truthy v = false -> match v with VArr elems _ => elems | _ => [] end = [].
Proof.
  destruct v; simpl; intros H; try reflexivity. discriminate.
Qed.

Lemma append_log_same_but (block block' log : value) :
  append_log block log = Ok block' -> same_but ["logs"%string] block block'.
Proof.
  unfold append_log. intros H. ok_inv H.
  destruct (truthy a).
  - ok_inv H. now apply set_prop_same_but in H.
  - now apply set_prop_same_but in H.
Qed.

Lemma append_log_logs (block block' log : value) :
  append_log block log = Ok block' ->
  block_logs block' = block_logs block ++ [log]
  /\ exists elems ps, get_prop block' "logs" = Ok (VArr elems ps)
                      /\ has_prop "push" ps = false.
Proof.
  unfold append_log, block_logs. intros H. ok_inv H. rewrite Hstep.
  destruct (truthy a) eqn:Htruthy.
  - ok_inv H. apply set_prop_get in H. rewrite H.
    destruct a as [| | p | ps | elems ps | p ps]; simpl in Hstep0; try discriminate.
    destruct (has_prop "push" ps) eqn:Hpush; [discriminate |].
    injection Hstep0 as <-. eauto.
  - apply set_prop_get in H. rewrite H.
    rewrite (falsy_not_array a Htruthy). eauto.
Qed.

Lemma append_log_total (block log : value) (ps : props) :
  block = VObj ps ->
  logs_slot_ok (lookup_prop "logs" ps) = true ->
  exists block', append_log block log = Ok block'.
Proof.
  intros -> Hslot. unfold append_log. simpl.
  unfold logs_slot_ok in Hslot.
  destruct (truthy (lookup_prop "logs" ps)) eqn:Htruthy; simpl in *.
  - destruct (lookup_prop "logs" ps) as [| | p | qs | elems qs | p qs];
      try discriminate.
    simpl. apply negb_true_iff in Hslot. rewrite Hslot. simpl. eauto.
  - eauto.
Qed.

(** What a successful call of the callback did. *)
Lemma merge_log_inv (fromBlock : Z) (blocks blocks' : list value) (log : value) :
  merge_log fromBlock blocks log = Ok blocks' ->
  exists m block block',
    log_block_number log = Ok (Int m)
    /\ 0 <= m - fromBlock
    /\ blocks !! Z.to_nat (m - fromBlock) = Some block
    /\ log_matches fromBlock blocks log = Ok true
    /\ append_log block log = Ok block'
    /\ blocks' = <[Z.to_nat (m - fromBlock) := block']> blocks.
Proof.
  unfold merge_log, log_matches. intros H.
  ok_inv H. rename a into n. cbv beta zeta in H.
  ok_inv H. rename a into logHash.
  ok_inv H. rename a into blockHash.
  destruct (get_prop_array_index _ _ _ _ Hstep1) as (z & block & Hn & Hz & Hblock & Hidx).
  destruct n as [| m]; [discriminate |].
  cbn [number_sub] in *. injection Hn as <-.
  rewrite Hstep. cbn [obind number_sub]. rewrite Hstep0. cbn [obind].
  rewrite Hstep1. cbn [obind]. rewrite Hidx in *.
  destruct (strict_eq logHash blockHash) eqn:Heq; cbn [negb] in H.
  - ok_inv H. rename a into block'. injection H as <-.
    exists m, block, block'.
    repeat (split; [assumption || reflexivity |]).
    unfold array_update.
    destruct (m - fromBlock <? 0) eqn:Hneg; [apply Z.ltb_lt in Hneg; lia | reflexivity].
  - destruct (to_string logHash); cbn [obind] in H; [| discriminate].
    destruct (to_string blockHash); cbn [obind] in H; discriminate.
Qed.

(** When the comparison finds different hashes the callback throws. *)
Lemma merge_log_mismatch (fromBlock : Z) (blocks : list value) (log : value) :
  log_matches fromBlock blocks log = Ok false ->
  exists e, merge_log fromBlock blocks log = Throw e.
Proof.
  unfold merge_log, log_matches. intros H.
  ok_inv H. ok_inv H. ok_inv H. injection H as Heq.
  rewrite Hstep. simpl. rewrite Hstep0. simpl. rewrite Hstep1. simpl.
  rewrite Heq. simpl.
  destruct (to_string a0); simpl; [| eauto].
  destruct (to_string a1); simpl; eauto.
Qed.

(** When the index designates no block the callback raises a
    [TypeError]. *)
Lemma merge_log_out_of_range (fromBlock : Z) (blocks : list value) (log : value) (m : Z) :
  log_block_number log = Ok (Int m) ->
  m - fromBlock < 0 \/ Z.of_nat (length blocks) <= m - fromBlock ->
  merge_log fromBlock blocks log = Throw TypeError.
Proof.
  intros Hm Hrange. unfold merge_log. rewrite Hm. cbn [obind number_sub].
  rewrite (array_index_out_of_range blocks (m - fromBlock) Hrange).
  unfold log_block_number in Hm. ok_inv Hm.
  destruct log; simpl in Hstep; try discriminate; reflexivity.
Qed.

(** ** Merging all logs *)

Lemma blocks_same_but_refl (names : list string) (blocks : list value) :
  blocks_same_but names blocks blocks.
Proof.
  apply Forall_Forall2_diag, Forall_forall. intros b _. apply same_but_refl.
Qed.

Lemma blocks_same_but_trans (names : list string) (l1 l2 l3 : list value) :
  blocks_same_but names l1 l2 -> blocks_same_but names l2 l3 ->
  blocks_same_but names l1 l3.
Proof.
  unfold blocks_same_but. intros H12 H23.
  eapply Forall2_trans; [| exact H12 | exact H23].
  intros x y z. apply same_but_trans.
Qed.

Lemma blocks_same_but_weaken (names names' : list string) (l l' : list value) :
  (forall key, In key names -> In key names') ->
  blocks_same_but names l l' -> blocks_same_but names' l l'.
Proof.
  intros Hsub H. eapply Forall2_impl; [exact H |].
  intros x y. now apply same_but_weaken.
Qed.

(** A property outside [names] reads the same at every index, in range
    or not. *)
Lemma blocks_same_but_index (names : list string) (l l' : list value)
      (key : string) (i : number) :
  blocks_same_but names l l' -> ~ In key names ->
  get_prop (array_index l' i) key = get_prop (array_index l i) key.
Proof.
  intros H Hkey. destruct i as [| z]; simpl; [reflexivity |].
  destruct (z <? 0); [reflexivity |].
  pose proof (proj1 (Forall2_lookup (same_but names) l l') H (Z.to_nat z)) as Hz.
  inversion Hz as [x y Hxy Hx Hy | Hx Hy]; simpl; [| reflexivity].
  destruct Hxy as [Hxy _]. now apply Hxy.
Qed.

Lemma log_matches_same_but (names : list string) (fromBlock : Z)
      (l l' : list value) (log : value) :
  blocks_same_but names l l' -> ~ In "hash"%string names ->
  log_matches fromBlock l' log = log_matches fromBlock l log.
Proof.
  intros H Hkey. unfold log_matches.
  destruct (log_block_number log) as [n | e]; simpl; [| reflexivity].
  destruct (get_prop log "blockHash") as [logHash | e]; simpl; [| reflexivity].
  now rewrite (blocks_same_but_index names l l' "hash" _ H Hkey).
Qed.

Lemma merge_log_same_but (fromBlock : Z) (blocks blocks' : list value) (log : value) :
  merge_log fromBlock blocks log = Ok blocks' ->
  blocks_same_but ["logs"%string] blocks blocks'.
Proof.
  intros H. apply merge_log_inv in H.
  destruct H as (m & block & block' & _ & _ & Hblock & _ & Happend & ->).
  unfold blocks_same_but.
  rewrite <- (list_insert_id blocks _ _ Hblock) at 1.
  apply Forall2_insert; [apply blocks_same_but_refl |].
  now apply append_log_same_but in Happend.
Qed.

Lemma merge_logs_same_but (fromBlock : Z) (logs blocks blocks' : list value) :
  fold_outcome (merge_log fromBlock) blocks logs = Ok blocks' ->
  blocks_same_but ["logs"%string] blocks blocks'.
Proof.
  apply (fold_outcome_invariant (merge_log fromBlock) (blocks_same_but ["logs"%string])).
  - apply blocks_same_but_refl.
  - apply blocks_same_but_trans.
  - intros s y s'. apply merge_log_same_but.
Qed.

(** One call of the callback appends the log to the block at its index
    and to no other. *)
Lemma merge_log_logs_at (fromBlock : Z) (blocks blocks' : list value) (log : value) :
  merge_log fromBlock blocks log = Ok blocks' ->
  forall k, logs_at blocks' k
            = logs_at blocks k ++ (if at_index fromBlock k log then [log] else []).
Proof.
  intros H k. apply merge_log_inv in H.
  destruct H as (m & block & block' & Hm & Hpos & Hblock & _ & Happend & ->).
  apply append_log_logs in Happend as [Hlogs _].
  unfold logs_at, at_index. rewrite Hm.
  destruct (m - fromBlock =? Z.of_nat k) eqn:Hk.
  - apply Z.eqb_eq in Hk.
    replace k with (Z.to_nat (m - fromBlock)) by lia.
    rewrite list_lookup_insert_eq by (eapply lookup_lt_Some; exact Hblock).
    rewrite Hblock. simpl. exact Hlogs.
  - apply Z.eqb_neq in Hk.
    rewrite list_lookup_insert_ne by lia.
    now rewrite app_nil_r.
Qed.

(** After all logs: each block holds what it held, then the logs whose
    index is its own, in the order they arrived. *)
Lemma merge_logs_logs_at (fromBlock : Z) (logs : list value) :
  forall blocks blocks',
    fold_outcome (merge_log fromBlock) blocks logs = Ok blocks' ->
    forall k, logs_at blocks' k
              = logs_at blocks k ++ List.filter (at_index fromBlock k) logs.
Proof.
  induction logs as [| log rest IH]; intros blocks blocks' H k; simpl in H.
  - injection H as <-. simpl. now rewrite app_nil_r.
  - ok_inv H. rename a into blocks1.
    rewrite (IH _ _ H k), (merge_log_logs_at _ _ _ _ Hstep k).
    simpl. destruct (at_index fromBlock k log); simpl.
    + now rewrite <- app_assoc.
    + now rewrite app_nil_r.
Qed.

(** Every log of a successful merge had an index inside the blocks. *)
Lemma merge_logs_in_range (fromBlock : Z) (logs : list value) :
  forall blocks blocks',
    fold_outcome (merge_log fromBlock) blocks logs = Ok blocks' ->
    forall log, In log logs ->
      exists k, (k < length blocks)%nat /\ at_index fromBlock k log = true
                /\ log_matches fromBlock blocks log = Ok true.
Proof.
  induction logs as [| log0 rest IH]; intros blocks blocks' H log Hin; [destruct Hin |].
  simpl in H. ok_inv H. rename a into blocks1.
  destruct Hin as [-> | Hin].
  - apply merge_log_inv in Hstep.
    destruct Hstep as (m & block & block' & Hm & Hpos & Hblock & Hmatch & _ & _).
    exists (Z.to_nat (m - fromBlock)). split; [eapply lookup_lt_Some; exact Hblock |].
    split; [| exact Hmatch].
    unfold at_index. rewrite Hm. apply Z.eqb_eq. lia.
  - pose proof (merge_log_same_but _ _ _ _ Hstep) as Hsame.
    destruct (IH _ _ H log Hin) as (k & Hk & Hat & Hmatch).
    exists k. split; [| split; [exact Hat |]].
    + rewrite (Forall2_length _ _ _ Hsame). exact Hk.
    + rewrite <- Hmatch. symmetry.
      apply (log_matches_same_but ["logs"%string]); [exact Hsame |].
      simpl. intros [Hbad | []]. discriminate.
Qed.

(** A log whose hash differs from its block's makes the merge fail. *)
Lemma merge_logs_mismatch (fromBlock : Z) (logs blocks : list value) (log : value) :
  In log logs ->
  log_matches fromBlock blocks log = Ok false ->
  exists e, fold_outcome (merge_log fromBlock) blocks logs = Throw e.
Proof.
  intros Hin Hmis.
  apply (fold_outcome_poisoned (merge_log fromBlock)
           (fun s => blocks_same_but ["logs"%string] blocks s) log).
  - intros s y s' Hs Hstep.
    eapply blocks_same_but_trans; [exact Hs |]. now apply merge_log_same_but in Hstep.
  - intros s Hs. apply merge_log_mismatch.
    rewrite (log_matches_same_but ["logs"%string] fromBlock blocks s); [exact Hmis | exact Hs |].
    simpl. intros [Hbad | []]. discriminate.
  - exact Hin.
  - apply blocks_same_but_refl.
Qed.

(** A log whose index designates no block makes the merge fail. *)
Lemma merge_logs_out_of_range (fromBlock : Z) (logs blocks : list value)
      (log : value) (m : Z) :
  In log logs ->
  log_block_number log = Ok (Int m) ->
  m - fromBlock < 0 \/ Z.of_nat (length blocks) <= m - fromBlock ->
  exists e, fold_outcome (merge_log fromBlock) blocks logs = Throw e.
Proof.
  intros Hin Hm Hrange.
  apply (fold_outcome_poisoned (merge_log fromBlock)
           (fun s => length s = length blocks) log).
  - intros s y s' Hs Hstep. apply merge_log_same_but in Hstep.
    rewrite <- (Forall2_length _ _ _ Hstep). exact Hs.
  - intros s Hs. exists TypeError.
    apply (merge_log_out_of_range fromBlock s log m Hm). rewrite Hs. exact Hrange.
  - exact Hin.
  - reflexivity.
Qed.

(** ** When the merge succeeds *)

Lemma not_in_logs (key : string) : key <> "logs"%string -> ~ In key ["logs"%string].
Proof. intros Hne [Heq | []]. congruence. Qed.

Lemma append_log_mergeable (block block' log : value) :
  mergeable_block block ->
  append_log block log = Ok block' ->
  mergeable_block block'.
Proof.
  intros (ps & -> & _) H.
  destruct (append_log_same_but _ _ _ H) as [_ Hkind].
  destruct (Hkind ps eq_refl) as [ps' ->].
  destruct (append_log_logs _ _ _ H) as [_ (elems & qs & Hget & Hpush)].
  exists ps'. split; [reflexivity |].
  simpl in Hget. injection Hget as ->. unfold logs_slot_ok. simpl.
  now rewrite Hpush.
Qed.

Lemma merge_log_total (fromBlock : Z) (blocks : list value) (log : value) :
  log_matches fromBlock blocks log = Ok true ->
  Forall mergeable_block blocks ->
  exists blocks', merge_log fromBlock blocks log = Ok blocks'
                  /\ Forall mergeable_block blocks'.
Proof.
  unfold log_matches, merge_log. intros H Hall.
  ok_inv H. rename a into n. cbv beta zeta in H.
  ok_inv H. rename a into logHash. ok_inv H. rename a into blockHash.
  injection H as Heq.
  destruct (get_prop_array_index _ _ _ _ Hstep1) as (z & block & Hn & Hz & Hblock & Hidx).
  rewrite Hstep. cbn [obind]. rewrite Hstep0. cbn [obind].
  rewrite Hstep1. cbn [obind]. rewrite Heq. cbn [negb]. rewrite Hidx.
  assert (Hmerge : mergeable_block block).
  { apply (proj1 (Forall_lookup mergeable_block blocks) Hall _ _ Hblock). }
  destruct Hmerge as (ps & Hps & Hslot).
  destruct (append_log_total block log ps Hps Hslot) as [block' Happend].
  rewrite Happend. cbn [obind]. eexists. split; [reflexivity |].
  rewrite Hn. unfold array_update.
  destruct (z <? 0); [assumption |].
  apply Forall_insert; [assumption |].
  apply (append_log_mergeable block block' log); [| assumption].
  exists ps. auto.
Qed.

Lemma normalize_blocks_mergeable (results blocks : list value) :
  Forall2 (fun r b => normalize_block r = Ok b) results blocks ->
  Forall (fun r => well_formed_block r = true) results ->
  Forall mergeable_block blocks.
Proof.
  induction 1 as [| r b results blocks Hrb _ IH]; intros Hwf; constructor.
  - inversion Hwf as [| r' l Hr _]; subst.
    destruct r as [| | p | ps | elems ps | p ps]; simpl in Hr; try discriminate.
    apply andb_prop in Hr as [_ Hslot].
    destruct (normalize_block_same_but _ _ Hrb) as [Hother Hkind].
    destruct (Hkind ps eq_refl) as [ps' ->].
    exists ps'. split; [reflexivity |].
    assert (Hlogs : get_prop (VObj ps') "logs" = get_prop (VObj ps) "logs").
    { apply Hother. simpl. intros [Hbad | [Hbad | []]]; discriminate. }
    simpl in Hlogs. injection Hlogs as ->. exact Hslot.
  - apply IH. now inversion Hwf.
Qed.

Lemma normalize_blocks_same_but (results blocks : list value) :
  map_outcome normalize_block results = Ok blocks ->
  blocks_same_but ["number"; "timestamp"]%string results blocks.
Proof.
  intros H. apply map_outcome_Forall2 in H.
  eapply Forall2_impl; [exact H |].
  intros r b. apply normalize_block_same_but.
Qed.

Lemma hash_not_normalized : ~ In "hash"%string ["number"; "timestamp"]%string.
Proof. simpl. intros [Hbad | [Hbad | []]]; discriminate. Qed.

Lemma hash_not_logs : ~ In "hash"%string ["logs"%string].
Proof. apply not_in_logs. discriminate. Qed.

(** The stages of [getBlocks_merge] behind a result. *)
Lemma getBlocks_merge_inv (fromBlock : Z) (responses blocks : list value) :
  getBlocks_merge fromBlock responses = Ok blocks ->
  exists results normalized logs,
    block_results responses = Ok results
    /\ map_outcome normalize_block results = Ok normalized
    /\ logs_result responses = Ok logs
    /\ fold_outcome (merge_log fromBlock) normalized logs = Ok blocks.
Proof.
  unfold getBlocks_merge. intros H.
  ok_inv H. ok_inv H. ok_inv H. eauto 10.
Qed.

Lemma block_results_length (responses results : list value) :
  block_results responses = Ok results ->
  length results = (length responses - 1)%nat.
Proof.
  unfold block_results. intros H. apply map_outcome_Forall2 in H.
  rewrite <- (Forall2_length _ _ _ H), length_take. lia.
Qed.

Lemma block_results_lookup (responses results : list value) (k : nat) (b : value) :
  block_results responses = Ok results ->
  results !! k = Some b ->
  exists res, responses !! k = Some res /\ get_prop res "result" = Ok b.
Proof.
  unfold block_results. intros H Hk. apply map_outcome_Forall2 in H.
  destruct (Forall2_lookup_r _ _ _ _ _ H Hk) as (res & Hres & Hget).
  exists res. split; [| exact Hget].
  apply lookup_take_Some in Hres. tauto.
Qed.

(** With well-formed blocks and logs that all match, the merge
    succeeds. *)
Lemma getBlocks_merge_total (fromBlock : Z) (responses results logs : list value) :
  block_results responses = Ok results ->
  Forall (fun b => well_formed_block b = true) results ->
  logs_result responses = Ok logs ->
  Forall (fun log => log_matches fromBlock results log = Ok true) logs ->
  exists blocks, getBlocks_merge fromBlock responses = Ok blocks.
Proof.
  intros Hresults Hwf Hlogs Hmatch.
  destruct (map_outcome_total normalize_block results) as [normalized Hnorm].
  { eapply Forall_impl; [exact Hwf |]. intros b Hb.
    destruct (normalize_block_well_formed b Hb) as [ps' Hps']. eauto. }
  unfold getBlocks_merge. rewrite Hresults. cbn [obind].
  rewrite Hnorm. cbn [obind]. rewrite Hlogs. cbn [obind].
  pose proof (normalize_blocks_same_but _ _ Hnorm) as Hsame.
  destruct (fold_outcome_total (merge_log fromBlock)
              (fun s => Forall mergeable_block s
                        /\ forall log, log_matches fromBlock s log
                                       = log_matches fromBlock results log)
              logs) with (s := normalized) as (blocks & Hblocks & _).
  - intros s log [Hs Hsame_s] Hin.
    assert (Hlog : log_matches fromBlock s log = Ok true).
    { rewrite Hsame_s. apply (proj1 (Forall_forall _ logs) Hmatch log).
      now apply list_elem_of_In. }
    destruct (merge_log_total fromBlock s log Hlog Hs) as (s' & Hs' & Hall').
    exists s'. split; [exact Hs' |]. split; [exact Hall' |].
    intros log'. rewrite <- Hsame_s.
    apply (log_matches_same_but ["logs"%string]); [| exact hash_not_logs].
    now apply merge_log_same_but in Hs'.
  - split.
    + apply (normalize_blocks_mergeable results); [| exact Hwf].
      now apply map_outcome_Forall2.
    + intros log.
      apply (log_matches_same_but ["number"; "timestamp"]%string);
        [exact Hsame | exact hash_not_normalized].
  - eauto.
Qed.

(** ** [getBlocks]: the requests *)

(** C2.  For [fromBlock <= toBlock] the batch [getBlocks] builds holds
    [(toBlock - fromBlock) + 1] requests: one [eth_getBlockByNumber]
    request with full transaction objects per block number of
    [fromBlock, ..., toBlock - 1], in ascending order, followed by one
    [eth_getLogs] request whose options are [fromBlock] and
    [toBlock - 1]; and that batch is the one thing it sends. *)
Theorem getBlocks_batch_requests
    (tr : transport) (fromBlock toBlock : Z) (h : list event) :
  fromBlock <= toBlock ->
  getBlocks_batch fromBlock toBlock
  = map (fun i => {| method := "eth_getBlockByNumber";
                     params := [VStr ("0x" ++ number_toString 16 i); VBool true] |})
        (seqZ fromBlock (toBlock - fromBlock))
    ++ [{| method := "eth_getLogs";
           params :=
             [VObj [("fromBlock"%string, VStr ("0x" ++ number_toString 16 fromBlock));
                    ("toBlock"%string,
                     VStr ("0x" ++ number_toString 16 (toBlock - 1)))]] |}]
  /\ Z.of_nat (length (getBlocks_batch fromBlock toBlock)) = toBlock - fromBlock + 1
  /\ snd (getBlocks tr fromBlock toBlock h)
     = h ++ [BatchSent (getBlocks_batch fromBlock toBlock)].
Proof.
  intros Hle. split; [| split].
  - apply getBlocks_batch_spec.
  - now apply getBlocks_batch_length.
  - apply getBlocks_trace.
Qed.

Lemma getBlocks_batch_requests_witness :
  getBlocks_batch 10 12
  = map (fun i => {| method := "eth_getBlockByNumber";
                     params := [VStr ("0x" ++ number_toString 16 i); VBool true] |})
        (seqZ 10 (12 - 10))
    ++ [{| method := "eth_getLogs";
           params :=
             [VObj [("fromBlock"%string, VStr ("0x" ++ number_toString 16 10));
                    ("toBlock"%string, VStr ("0x" ++ number_toString 16 (12 - 1)))]] |}]
  /\ Z.of_nat (length (getBlocks_batch 10 12)) = 12 - 10 + 1
  /\ snd (getBlocks (fixed_transport sample_responses) 10 12 [])
     = [] ++ [BatchSent (getBlocks_batch 10 12)].
Proof.
  apply (getBlocks_batch_requests (fixed_transport sample_responses) 10 12 []).
  lia.
Defined.

(** ** [getBlocks]: the result *)

Lemma getBlocks_answered (tr : transport) (fromBlock toBlock : Z) (h : list event)
      (responses : list value) :
  batch_answer tr (getBlocks_batch fromBlock toBlock) = Ok responses ->
  fst (getBlocks tr fromBlock toBlock h) = getBlocks_merge fromBlock responses.
Proof.
  intros H. rewrite getBlocks_outcome, H. reflexivity.
Qed.

(** C1.  For [0 <= fromBlock <= toBlock] and a transport that answers
    each request in submission order, [getBlocks(fromBlock, toBlock)]
    returns [toBlock - fromBlock] blocks, the one at position [k]
    numbered [fromBlock + k] (none when [fromBlock = toBlock]); and it
    does return when the blocks are well formed and every log matches
    its block. *)
Theorem getBlocks_count_and_order
    (tr : transport) (fromBlock toBlock : Z) (h : list event) (responses : list value) :
  0 <= fromBlock <= toBlock ->
  batch_answer tr (getBlocks_batch fromBlock toBlock) = Ok responses ->
  answers_in_order fromBlock toBlock responses ->
  (forall blocks,
      fst (getBlocks tr fromBlock toBlock h) = Ok blocks ->
      Z.of_nat (length blocks) = toBlock - fromBlock
      /\ forall (k : nat) (block : value),
           blocks !! k = Some block ->
           get_prop block "number" = Ok (VInt (fromBlock + Z.of_nat k)))
  /\ (forall results logs,
         block_results responses = Ok results ->
         Forall (fun b => well_formed_block b = true) results ->
         logs_result responses = Ok logs ->
         Forall (fun log => log_matches fromBlock results log = Ok true) logs ->
         exists blocks, fst (getBlocks tr fromBlock toBlock h) = Ok blocks).
Proof.
  intros Hrange Hanswer [Hlen Horder].
  rewrite (getBlocks_answered tr fromBlock toBlock h responses Hanswer).
  split.
  - intros blocks H.
    apply getBlocks_merge_inv in H.
    destruct H as (results & normalized & logs & Hresults & Hnorm & Hlogs & Hfold).
    pose proof (merge_logs_same_but _ _ _ _ Hfold) as Hsame.
    pose proof (proj1 (map_outcome_Forall2 _ _ _) Hnorm) as Hnorm2.
    pose proof (getBlocks_batch_length fromBlock toBlock (proj2 Hrange)) as Hbatch.
    assert (Hcount : Z.of_nat (length blocks) = toBlock - fromBlock).
    { rewrite <- (Forall2_length _ _ _ Hsame), <- (Forall2_length _ _ _ Hnorm2).
      rewrite (block_results_length _ _ Hresults). lia. }
    split; [exact Hcount |].
    intros k block Hk.
    destruct (Forall2_lookup_r _ _ _ _ _ Hsame Hk) as (nb & Hnb & [Hother _]).
    rewrite (Hother "number"%string) by (apply not_in_logs; discriminate).
    destruct (Forall2_lookup_r _ _ _ _ _ Hnorm2 Hnb) as (r & Hr & Hnormalize).
    destruct (normalize_block_fields _ _ Hnormalize)
      as (vn & n & vt & t & Hvn & Hpn & _ & _ & Hnumber & _).
    rewrite Hnumber.
    destruct (block_results_lookup _ _ _ _ Hresults Hr) as (res & Hres & Hget).
    assert (Hk' : Z.of_nat k < toBlock - fromBlock).
    { apply lookup_lt_Some in Hk. lia. }
    destruct (Horder k res Hk' Hres) as (block0 & Hget0 & Hnum0).
    rewrite Hget in Hget0. injection Hget0 as <-.
    rewrite Hvn in Hnum0. injection Hnum0 as ->.
    rewrite parseInt16_hex_literal in Hpn by lia.
    injection Hpn as <-. reflexivity.
  - intros results logs Hresults Hwf Hlogs Hmatch.
    now apply (getBlocks_merge_total fromBlock responses results logs).
Qed.

(** Checks a property that computes, element by element, on a list
    written out. *)
Ltac forall_by_computation :=
  repeat (constructor; try reflexivity).

Lemma sample_answers_in_order : answers_in_order 10 12 sample_responses.
Proof.
  split; [reflexivity |].
  intros k res Hk Hres.
  destruct k as [| [| k]]; [| | lia];
    simpl in Hres; injection Hres as <-; eexists; split; reflexivity.
Defined.

Lemma getBlocks_count_and_order_witness :
  exists blocks,
    fst (getBlocks (fixed_transport sample_responses) 10 12 []) = Ok blocks
    /\ Z.of_nat (length blocks) = 12 - 10
    /\ forall (k : nat) (block : value),
         blocks !! k = Some block ->
         get_prop block "number" = Ok (VInt (10 + Z.of_nat k)).
Proof.
  destruct (getBlocks_count_and_order
              (fixed_transport sample_responses) 10 12 [] sample_responses)
    as [Hshape Hreturns].
  - lia.
  - reflexivity.
  - exact sample_answers_in_order.
  - destruct (Hreturns [sample_block 10 "0xaa"; sample_block 11 "0xbb"] sample_logs)
      as [blocks Hblocks].
    + reflexivity.
    + forall_by_computation.
    + reflexivity.
    + forall_by_computation.
    + exists blocks. split; [exact Hblocks |]. apply Hshape. exact Hblocks.
Defined.

(** C3.  When some log of the response carries a [blockHash] that
    differs from the [hash] of the block its index designates,
    [getBlocks] rejects: it returns no block list, partial or other. *)
Theorem getBlocks_rejects_on_hash_mismatch
    (tr : transport) (fromBlock toBlock : Z) (h : list event)
    (responses results logs : list value) (log : value) :
  batch_answer tr (getBlocks_batch fromBlock toBlock) = Ok responses ->
  block_results responses = Ok results ->
  logs_result responses = Ok logs ->
  In log logs ->
  log_matches fromBlock results log = Ok false ->
  (exists e, fst (getBlocks tr fromBlock toBlock h) = Throw e)
  /\ forall blocks, fst (getBlocks tr fromBlock toBlock h) <> Ok blocks.
Proof.
  intros Hanswer Hresults Hlogs Hin Hmis.
  assert (Hthrow : exists e, fst (getBlocks tr fromBlock toBlock h) = Throw e).
  { rewrite (getBlocks_answered tr fromBlock toBlock h responses Hanswer).
    unfold getBlocks_merge. rewrite Hresults. cbn [obind].
    destruct (map_outcome normalize_block results) as [normalized | e] eqn:Hnorm;
      cbn [obind]; [| eauto].
    rewrite Hlogs. cbn [obind].
    apply (merge_logs_mismatch fromBlock logs normalized log Hin).
    rewrite <- Hmis.
    apply (log_matches_same_but ["number"; "timestamp"]%string);
      [now apply normalize_blocks_same_but | exact hash_not_normalized]. }
  split; [exact Hthrow |].
  intros blocks Hok. destruct Hthrow as [e He]. congruence.
Qed.

Lemma getBlocks_rejects_on_hash_mismatch_witness :
  (exists e, fst (getBlocks (fixed_transport mismatching_responses) 10 12 []) = Throw e)
  /\ forall blocks,
       fst (getBlocks (fixed_transport mismatching_responses) 10 12 []) <> Ok blocks.
Proof.
  apply (getBlocks_rejects_on_hash_mismatch
           (fixed_transport mismatching_responses) 10 12 [] mismatching_responses
           [sample_block 10 "0xaa"; sample_block 11 "0xbb"]
           [sample_log 11 "0xbb" "first";
            sample_log 10 "0xee" "second";
            sample_log 11 "0xbb" "third"]
           (sample_log 10 "0xee" "second")).
  - reflexivity.
  - reflexivity.
  - reflexivity.
  - simpl. right. left. reflexivity.
  - reflexivity.
Defined.

Lemma at_index_unique (fromBlock : Z) (k k' : nat) (log : value) :
  at_index fromBlock k log = true -> at_index fromBlock k' log = true -> k = k'.
Proof.
  unfold at_index.
  destruct (log_block_number log) as [[| m] | e]; try discriminate.
  intros Hk Hk'. apply Z.eqb_eq in Hk, Hk'. lia.
Qed.

Lemma normalize_blocks_logs_at (results blocks : list value) (k : nat) :
  map_outcome normalize_block results = Ok blocks ->
  logs_at blocks k = logs_at results k.
Proof.
  intros H. apply normalize_blocks_same_but in H.
  unfold logs_at, block_logs.
  pose proof (blocks_same_but_index _ _ _ "logs"%string (Int (Z.of_nat k)) H) as Hk.
  simpl in Hk. rewrite Nat2Z.id in Hk.
  destruct (Z.of_nat k <? 0) eqn:Hneg; [apply Z.ltb_lt in Hneg; lia |].
  rewrite Hk; [reflexivity |].
  simpl. intros [Hbad | [Hbad | []]]; discriminate.
Qed.

(** C4.  When [getBlocks] returns, every log of the response was
    appended to the [logs] of exactly one block, the one at index
    [parseInt16(log.blockNumber) - fromBlock], whose hash it matches:
    the [logs] of the block at [k] are those it arrived with, if any,
    followed by the logs of index [k] in their order of arrival.  And
    it does return when the blocks are well formed and every log
    matches its block. *)
Theorem getBlocks_attaches_logs
    (tr : transport) (fromBlock toBlock : Z) (h : list event)
    (responses results logs : list value) :
  batch_answer tr (getBlocks_batch fromBlock toBlock) = Ok responses ->
  block_results responses = Ok results ->
  logs_result responses = Ok logs ->
  (forall blocks,
      fst (getBlocks tr fromBlock toBlock h) = Ok blocks ->
      (forall k, logs_at blocks k
                 = logs_at results k ++ List.filter (at_index fromBlock k) logs)
      /\ (forall log, In log logs ->
            exists k, (k < length blocks)%nat
                      /\ at_index fromBlock k log = true
                      /\ (forall k', at_index fromBlock k' log = true -> k' = k)
                      /\ log_matches fromBlock results log = Ok true))
  /\ (Forall (fun b => well_formed_block b = true) results ->
      Forall (fun log => log_matches fromBlock results log = Ok true) logs ->
      exists blocks, fst (getBlocks tr fromBlock toBlock h) = Ok blocks).
Proof.
  intros Hanswer Hresults Hlogs.
  rewrite (getBlocks_answered tr fromBlock toBlock h responses Hanswer).
  split.
  - intros blocks H.
    apply getBlocks_merge_inv in H.
    destruct H as (results' & normalized & logs' & Hresults' & Hnorm & Hlogs' & Hfold).
    rewrite Hresults in Hresults'. injection Hresults' as <-.
    rewrite Hlogs in Hlogs'. injection Hlogs' as <-.
    split.
    + intros k. rewrite (merge_logs_logs_at _ _ _ _ Hfold k).
      now rewrite (normalize_blocks_logs_at _ _ k Hnorm).
    + intros log Hin.
      destruct (merge_logs_in_range _ _ _ _ Hfold log Hin) as (k & Hk & Hat & Hmatch).
      exists k.
      rewrite <- (Forall2_length _ _ _ (merge_logs_same_but _ _ _ _ Hfold)).
      split; [exact Hk |]. split; [exact Hat |]. split.
      * intros k' Hat'. now apply (at_index_unique fromBlock k' k log).
      * rewrite <- Hmatch. symmetry.
        apply (log_matches_same_but ["number"; "timestamp"]%string);
          [now apply normalize_blocks_same_but | exact hash_not_normalized].
  - intros Hwf Hmatch.
    now apply (getBlocks_merge_total fromBlock responses results logs).
Qed.

Lemma getBlocks_attaches_logs_witness :
  exists blocks,
    fst (getBlocks (fixed_transport sample_responses) 10 12 []) = Ok blocks
    /\ logs_at blocks 0 = [sample_log 10 "0xaa" "second"]
    /\ logs_at blocks 1 = [sample_log 11 "0xbb" "first"; sample_log 11 "0xbb" "third"].
Proof.
  destruct (getBlocks_attaches_logs
              (fixed_transport sample_responses) 10 12 [] sample_responses
              [sample_block 10 "0xaa"; sample_block 11 "0xbb"] sample_logs)
    as [Hshape Hreturns].
  - reflexivity.
  - reflexivity.
  - reflexivity.
  - destruct Hreturns as [blocks Hblocks].
    + forall_by_computation.
    + forall_by_computation.
    + exists blocks. split; [exact Hblocks |].
      destruct (Hshape blocks Hblocks) as [Hlogs _].
      split; rewrite Hlogs; reflexivity.
Defined.

(** C10.  When the transport has answered each request and some log of
    the response carries a [blockNumber] outside
    [fromBlock, ..., toBlock - 1], the index computed for it designates
    no block: the callback raises a [TypeError] on reading the missing
    block's [hash], and [getBlocks] rejects instead of dropping the log
    or attaching it to a block.  A call that returns had every log's
    [blockNumber] in range. *)
Theorem getBlocks_rejects_log_out_of_range
    (tr : transport) (fromBlock toBlock : Z) (h : list event)
    (responses logs : list value) (log : value) (m : Z) :
  fromBlock <= toBlock ->
  batch_answer tr (getBlocks_batch fromBlock toBlock) = Ok responses ->
  length responses = length (getBlocks_batch fromBlock toBlock) ->
  logs_result responses = Ok logs ->
  In log logs ->
  log_block_number log = Ok (Int m) ->
  m < fromBlock \/ toBlock <= m ->
  (forall blocks, Z.of_nat (length blocks) = toBlock - fromBlock ->
                  merge_log fromBlock blocks log = Throw TypeError)
  /\ (exists e, fst (getBlocks tr fromBlock toBlock h) = Throw e)
  /\ forall blocks, fst (getBlocks tr fromBlock toBlock h) <> Ok blocks.
Proof.
  intros Hle Hanswer Hlen Hlogs Hin Hm Hout.
  pose proof (getBlocks_batch_length fromBlock toBlock Hle) as Hbatch.
  assert (Hstep : forall blocks, Z.of_nat (length blocks) = toBlock - fromBlock ->
                                 merge_log fromBlock blocks log = Throw TypeError).
  { intros blocks Hblocks. apply (merge_log_out_of_range fromBlock blocks log m Hm). lia. }
  assert (Hthrow : exists e, fst (getBlocks tr fromBlock toBlock h) = Throw e).
  { rewrite (getBlocks_answered tr fromBlock toBlock h responses Hanswer).
    unfold getBlocks_merge.
    destruct (block_results responses) as [results | e] eqn:Hresults;
      cbn [obind]; [| eauto].
    destruct (map_outcome normalize_block results) as [normalized | e] eqn:Hnorm;
      cbn [obind]; [| eauto].
    rewrite Hlogs. cbn [obind].
    apply (merge_logs_out_of_range fromBlock logs normalized log m Hin Hm).
    apply map_outcome_Forall2 in Hnorm.
    rewrite <- (Forall2_length _ _ _ Hnorm), (block_results_length _ _ Hresults).
    lia. }
  split; [exact Hstep |]. split; [exact Hthrow |].
  intros blocks Hok. destruct Hthrow as [e He]. congruence.
Qed.

Lemma getBlocks_rejects_log_out_of_range_witness :
  (forall blocks, Z.of_nat (length blocks) = 12 - 10 ->
                  merge_log 10 blocks (sample_log 12 "0xbb" "late") = Throw TypeError)
  /\ (exists e, fst (getBlocks (fixed_transport stray_responses) 10 12 []) = Throw e)
  /\ forall blocks, fst (getBlocks (fixed_transport stray_responses) 10 12 []) <> Ok blocks.
Proof.
  apply (getBlocks_rejects_log_out_of_range
           (fixed_transport stray_responses) 10 12 [] stray_responses
           [sample_log 11 "0xbb" "first"; sample_log 12 "0xbb" "late"]
           (sample_log 12 "0xbb" "late") 12).
  - lia.
  - reflexivity.
  - reflexivity.
  - reflexivity.
  - simpl. right. left. reflexivity.
  - reflexivity.
  - lia.
Defined.

(** ** [getBlocks]: the objects of the response *)

Lemma read_insert_eq (s : store) (l : loc) (b : value) :
  (l < length s)%nat -> read (<[l := b]> s) l = b.
Proof. intros Hl. unfold read. now rewrite list_lookup_insert_eq. Qed.

Lemma read_insert_ne (s : store) (l l' : loc) (b : value) :
  l <> l' -> read (<[l := b]> s) l' = read s l'.
Proof. intros Hne. unfold read. now rewrite list_lookup_insert_ne. Qed.

Lemma read_app_l (s t : store) (l : loc) :
  (l < length s)%nat -> read (s ++ t) l = read s l.
Proof. intros Hl. unfold read. now rewrite lookup_app_l. Qed.

Lemma read_app_fresh (s : store) (b : value) : read (s ++ [b]) (length s) = b.
Proof. unfold read. now rewrite list_lookup_middle. Qed.

Lemma normalize_block_read (s : store) (l : loc) (b : value) :
  normalize_block (read s l) = Ok b -> (l < length s)%nat.
Proof.
  unfold read. intros H. destruct (s !! l) eqn:Hl.
  - eapply lookup_lt_Some. exact Hl.
  - discriminate.
Qed.

Lemma distinct_NoDup (ls : list loc) : distinct ls = true -> NoDup ls.
Proof.
  induction ls as [| l rest IH]; simpl; intros H; constructor.
  - apply andb_prop in H as [H _]. apply negb_true_iff in H.
    intros Hin. apply list_elem_of_In in Hin.
    assert (Hex : existsb (Nat.eqb l) rest = true).
    { apply existsb_exists. exists l. split; [exact Hin | apply Nat.eqb_refl]. }
    congruence.
  - apply IH. now apply andb_prop in H as [_ H].
Qed.

Lemma separate_inv (s : store) (responses : list element) :
  separate s responses = true ->
  NoDup (shared_locs responses)
  /\ forall l, In l (shared_locs responses) -> (l < length s)%nat.
Proof.
  unfold separate. intros H. apply andb_prop in H as [Hd Hv]. split.
  - now apply distinct_NoDup.
  - intros l Hl. rewrite forallb_forall in Hv. specialize (Hv l Hl).
    now apply Nat.ltb_lt in Hv.
Qed.

Lemma shared_locs_app (xs ys : list element) :
  shared_locs (xs ++ ys) = shared_locs xs ++ shared_locs ys.
Proof.
  induction xs as [| [l | v] rest IH]; simpl; [reflexivity | now rewrite IH | exact IH].
Qed.

(** *** One block *)

Lemma assign_in_place_throw (a : answer) (s s1 : store) (e : error) :
  assign_in_place a s = (Throw e, s1) ->
  s1 = s /\ normalize_block (content s a) = Throw e.
Proof.
  destruct a as [l | v]; simpl.
  - destruct (normalize_block (read s l)); intros H; inversion H; auto.
  - destruct (normalize_block v); intros H; inversion H; auto.
Qed.

Lemma assign_in_place_ok (a : answer) (s s1 : store) (l : loc) :
  assign_in_place a s = (Ok l, s1) ->
  normalize_block (content s a) = Ok (read s1 l)
  /\ (l < length s1)%nat
  /\ (length s <= length s1)%nat
  /\ (forall l', (l' < length s)%nat -> l' <> l -> read s1 l' = read s l')
  /\ (a = At l /\ (l < length s)%nat \/ (exists v, a = Own v) /\ l = length s).
Proof.
  destruct a as [l0 | v]; simpl.
  - destruct (normalize_block (read s l0)) as [b |] eqn:Hb; intros H; inversion H; subst.
    pose proof (normalize_block_read _ _ _ Hb) as Hl.
    rewrite length_insert, read_insert_eq by exact Hl.
    repeat split; auto.
    intros l' _ Hne. apply read_insert_ne. congruence.
  - destruct (normalize_block v) as [b |] eqn:Hb; intros H; inversion H; subst.
    rewrite length_app, read_app_fresh. simpl.
    repeat split; [lia | lia | | right; eauto].
    intros l' Hl' _. now apply read_app_l.
Qed.

Lemma in_at_locs (answers : list answer) (l : loc) :
  In (At l) answers -> In l (at_locs answers).
Proof.
  induction answers as [| [l0 | v] rest IH]; simpl; [tauto | |].
  - intros [H | H]; [left; congruence | right; auto].
  - intros [H | H]; [discriminate | auto].
Qed.

(** *** All blocks *)

Lemma normalize_in_place_frame (answers : list answer) :
  forall (s s1 : store) (o : outcome (list loc)),
    normalize_in_place answers s = (o, s1) ->
    (length s <= length s1)%nat
    /\ (forall l', (l' < length s)%nat -> ~ In l' (at_locs answers) ->
                   read s1 l' = read s l')
    /\ forall ls, o = Ok ls ->
         (forall l, In l ls -> In l (at_locs answers) \/ (length s <= l)%nat)
         /\ (forall l, In l ls -> (l < length s1)%nat)
         /\ (forall k l, answers !! k = Some (At l) -> ls !! k = Some l).
Proof.
  induction answers as [| a rest IH]; intros s s1 o H; simpl in H.
  - inversion H; subst. split; [lia |]. split; [reflexivity |].
    intros ls Hls. inversion Hls; subst. split; [| split].
    + intros l [].
    + intros l [].
    + intros k l Hk. now rewrite lookup_nil in Hk.
  - destruct (assign_in_place a s) as [[l | e] s0] eqn:Ha.
    + destruct (assign_in_place_ok _ _ _ _ Ha) as (_ & Hl & Hlen & Hframe & Hwhich).
      assert (Hat : forall l', (l' < length s)%nat -> ~ In l' (at_locs (a :: rest)) ->
                               l' <> l /\ ~ In l' (at_locs rest)).
      { intros l' Hl' Hnot.
        destruct Hwhich as [[-> _] | [[v ->] ->]]; simpl in Hnot; [intuition congruence |].
        split; [lia | exact Hnot]. }
      destruct (normalize_in_place rest s0) as [[ls' | e] s2] eqn:Hr;
        inversion H; subst;
        destruct (IH _ _ _ Hr) as (Hlen' & Hframe' & Hok).
      * split; [lia |]. split.
        { intros l' Hl' Hnot. destruct (Hat l' Hl' Hnot) as [Hne Hrest].
          rewrite Hframe' by (lia || assumption). now apply Hframe. }
        intros ls Hls. inversion Hls; subst.
        destruct (Hok ls' eq_refl) as (Hin & Hvalid & Hpos).
        split; [| split].
        { intros l0 [<- | Hl0].
          - destruct Hwhich as [[-> _] | [_ ->]]; [left; now left | right; lia].
          - destruct (Hin l0 Hl0) as [Hl1 | Hl1]; [left | right; lia].
            destruct a; simpl; auto. }
        { intros l0 [<- | Hl0]; [lia | now apply Hvalid]. }
        { intros [| k] l0 Hk; simpl in Hk |- *.
          - inversion Hk; subst. destruct Hwhich as [[Heq _] | [[v Heq] _]]; congruence.
          - now apply Hpos. }
      * split; [lia |]. split; [| discriminate].
        intros l' Hl' Hnot. destruct (Hat l' Hl' Hnot) as [Hne Hrest].
        rewrite Hframe' by (lia || assumption). now apply Hframe.
    + inversion H; subst.
      destruct (assign_in_place_throw _ _ _ _ Ha) as [-> _].
      split; [lia |]. split; [reflexivity | discriminate].
Qed.

Lemma normalize_in_place_sim (answers : list answer) :
  forall (s s1 : store) (o : outcome (list loc)),
    NoDup (at_locs answers) ->
    (forall l, In l (at_locs answers) -> (l < length s)%nat) ->
    normalize_in_place answers s = (o, s1) ->
    match o with
    | Ok ls =>
        map_outcome normalize_block (map (content s) answers) = Ok (map (read s1) ls)
        /\ NoDup ls
    | Throw e => map_outcome normalize_block (map (content s) answers) = Throw e
    end.
Proof.
  induction answers as [| a rest IH]; intros s s1 o Hnodup Hvalid H; simpl in H.
  - inversion H; subst. simpl. split; [reflexivity | constructor].
  - destruct (assign_in_place a s) as [[l | e] s0] eqn:Ha.
    + destruct (assign_in_place_ok _ _ _ _ Ha) as (Hnorm & Hl & Hlen & Hframe & Hwhich).
      assert (Hfresh : ~ In l (at_locs rest)).
      { destruct Hwhich as [[-> _] | [[v ->] ->]]; simpl in Hnodup, Hvalid.
        - inversion Hnodup; subst. now rewrite <- list_elem_of_In.
        - intros Hin. specialize (Hvalid _ Hin). lia. }
      assert (Hrest_nodup : NoDup (at_locs rest)).
      { destruct a; simpl in Hnodup; [now inversion Hnodup | exact Hnodup]. }
      assert (Hrest_valid : forall l', In l' (at_locs rest) -> (l' < length s)%nat).
      { intros l' Hl'. apply Hvalid. destruct a; simpl; auto. }
      assert (Hsame : map (content s0) rest = map (content s) rest).
      { apply map_ext_in. intros [l' | v] Hin; simpl; [| reflexivity].
        apply in_at_locs in Hin. apply Hframe; [now apply Hrest_valid |].
        intros ->. contradiction. }
      simpl map. cbn [map_outcome]. rewrite Hnorm. cbn [obind]. rewrite <- Hsame.
      destruct (normalize_in_place rest s0) as [[ls' | e] s2] eqn:Hr;
        inversion H; subst;
        destruct (normalize_in_place_frame _ _ _ _ Hr) as (_ & Hframe' & Hok);
        specialize (IH s0 _ _ Hrest_nodup
                      (fun l' Hl' => Nat.lt_le_trans _ _ _ (Hrest_valid l' Hl') Hlen) Hr);
        cbn beta iota in IH.
      * destruct IH as [IH Hnd]. rewrite IH. cbn [obind map].
        rewrite (Hframe' l Hl Hfresh). split; [reflexivity |].
        constructor; [| exact Hnd].
        rewrite list_elem_of_In. intros Hin.
        destruct (Hok ls' eq_refl) as (Hmem & _ & _).
        destruct (Hmem l Hin) as [Hbad | Hbad]; [contradiction | lia].
      * rewrite IH. reflexivity.
    + inversion H; subst.
      destruct (assign_in_place_throw _ _ _ _ Ha) as [_ Hthrow].
      simpl. now rewrite Hthrow.
Qed.

(** *** One log *)

Lemma array_index_map_read (s : store) (blocks : list loc) (i : number) :
  array_index (map (read s) blocks) i
  = match block_at blocks i with
    | Some l => read s l
    | None => VUndef
    end.
Proof.
  destruct i as [| z]; simpl; [reflexivity |].
  destruct (z <? 0); [reflexivity |].
  change (map (read s) blocks) with (read s <$> blocks).
  rewrite list_lookup_fmap. now destruct (blocks !! Z.to_nat z).
Qed.

Lemma map_read_insert (s : store) (blocks : list loc) (k : nat) (l : loc) (b : value) :
  NoDup blocks -> blocks !! k = Some l -> (l < length s)%nat ->
  map (read (<[l := b]> s)) blocks = <[k := b]> (map (read s) blocks).
Proof.
  intros Hnodup Hk Hl.
  change (read (<[l := b]> s) <$> blocks = <[k := b]> (read s <$> blocks)).
  apply list_eq. intros i. rewrite list_lookup_fmap.
  destruct (decide (i = k)) as [-> | Hne].
  - rewrite list_lookup_insert_eq
      by (rewrite length_fmap; eapply lookup_lt_Some; exact Hk).
    rewrite Hk. simpl. now rewrite read_insert_eq.
  - rewrite list_lookup_insert_ne by congruence. rewrite list_lookup_fmap.
    destruct (blocks !! i) as [l' |] eqn:Hi; simpl; [| reflexivity].
    rewrite read_insert_ne; [reflexivity |].
    intros ->. apply Hne. symmetry. eapply NoDup_lookup; eassumption.
Qed.

Lemma block_at_some (blocks : list loc) (i : number) (l : loc) :
  block_at blocks i = Some l ->
  exists z, i = Int z /\ 0 <= z /\ blocks !! Z.to_nat z = Some l.
Proof.
  destruct i as [| z]; simpl; [discriminate |].
  destruct (z <? 0) eqn:Hz; [discriminate |].
  apply Z.ltb_ge in Hz. eauto.
Qed.

Lemma get_prop_read (s : store) (l : loc) (key : string) (v : value) :
  get_prop (read s l) key = Ok v -> (l < length s)%nat.
Proof.
  unfold read. intros H. destruct (s !! l) eqn:Hl.
  - eapply lookup_lt_Some. exact Hl.
  - discriminate.
Qed.

Lemma merge_log_in_place_frame (fromBlock : Z) (blocks : list loc) (s s1 : store)
      (log : value) :
  merge_log_in_place fromBlock blocks s log = Ok s1 ->
  length s1 = length s
  /\ forall l', ~ In l' blocks -> read s1 l' = read s l'.
Proof.
  unfold merge_log_in_place. intros H.
  ok_inv H. cbv zeta in H. ok_inv H. ok_inv H.
  destruct (negb (strict_eq a0 a1)).
  - destruct (to_string a0); cbn [obind] in H; [| discriminate].
    destruct (to_string a1); discriminate.
  - ok_inv H. injection H as <-.
    destruct (block_at blocks (number_sub a fromBlock)) as [l |] eqn:Hat;
      [| split; reflexivity].
    split; [apply length_insert |].
    intros l' Hnot. apply read_insert_ne. intros ->. apply Hnot.
    destruct (block_at_some _ _ _ Hat) as (z & _ & _ & Hz).
    apply list_elem_of_In. eapply list_elem_of_lookup_2. exact Hz.
Qed.

Lemma merge_log_in_place_sim (fromBlock : Z) (blocks : list loc) (s : store)
      (log : value) :
  NoDup blocks ->
  match merge_log_in_place fromBlock blocks s log with
  | Ok s1 => merge_log fromBlock (map (read s) blocks) log = Ok (map (read s1) blocks)
  | Throw e => merge_log fromBlock (map (read s) blocks) log = Throw e
  end.
Proof.
  intros Hnodup. unfold merge_log_in_place, merge_log.
  destruct (log_block_number log) as [n | e]; cbn [obind]; [| reflexivity].
  cbv zeta. rewrite array_index_map_read.
  destruct (get_prop log "blockHash") as [logHash | e]; cbn [obind]; [| reflexivity].
  destruct (block_at blocks (number_sub n fromBlock)) as [l |] eqn:Hat;
    [| reflexivity].
  destruct (get_prop (read s l) "hash") as [blockHash | e] eqn:Hhash;
    cbn [obind]; [| reflexivity].
  destruct (negb (strict_eq logHash blockHash)).
  - destruct (to_string logHash); cbn [obind]; [| reflexivity].
    destruct (to_string blockHash); reflexivity.
  - destruct (append_log (read s l) log) as [block' | e]; cbn [obind]; [| reflexivity].
    destruct (block_at_some _ _ _ Hat) as (z & -> & Hz & Hl).
    unfold array_update.
    destruct (z <? 0) eqn:Hneg; [apply Z.ltb_lt in Hneg; lia |].
    f_equal. symmetry. apply map_read_insert; [assumption | assumption |].
    eapply get_prop_read. exact Hhash.
Qed.

(** *** All logs *)

Lemma merge_logs_in_place_frame (fromBlock : Z) (blocks : list loc) (logs : list value) :
  forall (s s1 : store) (o : outcome (list loc)),
    merge_logs_in_place fromBlock blocks logs s = (o, s1) ->
    length s1 = length s
    /\ (forall l', ~ In l' blocks -> read s1 l' = read s l')
    /\ forall ls, o = Ok ls -> ls = blocks.
Proof.
  induction logs as [| log rest IH]; intros s s1 o H; simpl in H.
  - inversion H; subst. repeat split. intros ls Hls. congruence.
  - destruct (merge_log_in_place fromBlock blocks s log) as [s0 | e] eqn:Hlog.
    + destruct (merge_log_in_place_frame _ _ _ _ _ Hlog) as [Hlen Hframe].
      destruct (IH _ _ _ H) as (Hlen' & Hframe' & Hok).
      split; [congruence |]. split; [| exact Hok].
      intros l' Hnot. rewrite Hframe' by exact Hnot. now apply Hframe.
    + inversion H; subst. repeat split. discriminate.
Qed.

Lemma merge_logs_in_place_sim (fromBlock : Z) (blocks : list loc) (logs : list value) :
  NoDup blocks ->
  forall (s s1 : store) (o : outcome (list loc)),
    merge_logs_in_place fromBlock blocks logs s = (o, s1) ->
    yielded (o, s1) = fold_outcome (merge_log fromBlock) (map (read s) blocks) logs.
Proof.
  intros Hnodup.
  induction logs as [| log rest IH]; intros s s1 o H; simpl in H.
  - inversion H; subst. reflexivity.
  - pose proof (merge_log_in_place_sim fromBlock blocks s log Hnodup) as Hsim.
    simpl fold_outcome.
    destruct (merge_log_in_place fromBlock blocks s log) as [s0 | e].
    + rewrite Hsim. cbn [obind]. now apply IH.
    + inversion H; subst. rewrite Hsim. reflexivity.
Qed.

(** *** The whole merge *)

Lemma element_results_sim (s : store) (es : list element) :
  match map_outcome element_result es with
  | Ok answers =>
      map_outcome (fun res => get_prop res "result") (map (element_value s) es)
      = Ok (map (content s) answers)
      /\ at_locs answers = shared_locs es
      /\ forall k l, es !! k = Some (Shared l) -> answers !! k = Some (At l)
  | Throw e =>
      map_outcome (fun res => get_prop res "result") (map (element_value s) es) = Throw e
  end.
Proof.
  induction es as [| [l | v] rest IH]; cbn [map_outcome map element_result obind].
  - split; [reflexivity |]. split; [reflexivity |]. intros k l Hk.
    now rewrite lookup_nil in Hk.
  - cbn [element_value get_prop lookup_prop String.eqb Ascii.eqb Bool.eqb obind].
    destruct (map_outcome element_result rest) as [answers | e]; cbn [obind].
    + destruct IH as (-> & Hlocs & Hpos). cbn [obind map content at_locs shared_locs].
      split; [reflexivity |]. split; [now rewrite Hlocs |].
      intros [| k] l0 Hk; simpl in Hk |- *; [congruence | now apply Hpos].
    + now rewrite IH.
  - cbn [element_value].
    destruct (get_prop v "result") as [r | e]; cbn [obind]; [| reflexivity].
    destruct (map_outcome element_result rest) as [answers | e]; cbn [obind].
    + destruct IH as (-> & Hlocs & Hpos). cbn [obind map content at_locs shared_locs].
      split; [reflexivity |]. split; [exact Hlocs |].
      intros [| k] l0 Hk; simpl in Hk |- *; [discriminate | now apply Hpos].
    + now rewrite IH.
Qed.

(** A response is empty, or some elements for the blocks and one for
    the logs. *)
Lemma response_cases (responses : list element) :
  responses = []
  \/ exists init e, responses = init ++ [e]
                    /\ take (length responses - 1) responses = init
                    /\ element_at responses (Z.of_nat (length responses) - 1) = Some e.
Proof.
  induction responses as [| e init _] using rev_ind; [now left | right].
  exists init, e. split; [reflexivity |].
  rewrite length_app. simpl. split.
  - replace (length init + 1 - 1)%nat with (length init) by lia.
    now rewrite take_app_length.
  - unfold element_at.
    destruct (Z.of_nat (length init + 1) - 1 <? 0) eqn:Hneg;
      [apply Z.ltb_lt in Hneg; lia |].
    replace (Z.to_nat (Z.of_nat (length init + 1) - 1)) with (length init) by lia.
    apply list_lookup_middle. reflexivity.
Qed.

Lemma array_index_map_last (f : element -> value) (init : list element) (e : element) :
  array_index (map f (init ++ [e]))
    (Int (Z.of_nat (length (init ++ [e])) - 1))
  = f e.
Proof.
  rewrite length_app. simpl.
  destruct (Z.of_nat (length init + 1) - 1 <? 0) eqn:Hneg;
    [apply Z.ltb_lt in Hneg; lia |].
  replace (Z.to_nat (Z.of_nat (length init + 1) - 1)) with (length init) by lia.
  rewrite map_app. simpl.
  rewrite (list_lookup_middle (map f init) [] (f e) (length init))
    by (now rewrite length_map).
  reflexivity.
Qed.

(** On a response none of whose objects occurs twice, updating the
    objects in place yields what the functional reading computes from
    the response as received. *)
Lemma getBlocks_in_place_sim (fromBlock : Z) (responses : list element) (s : store) :
  separate s responses = true ->
  yielded (getBlocks_in_place fromBlock responses s)
  = getBlocks_merge fromBlock (received s responses).
Proof.
  intros Hsep. apply separate_inv in Hsep as [Hnodup Hvalid].
  destruct (response_cases responses) as [-> | (init & e & Heq & Htake & Hlast)];
    [reflexivity |].
  unfold getBlocks_in_place, logs_in_place, getBlocks_merge, block_results,
    logs_result, received.
  rewrite Htake, Hlast.
  rewrite length_map, firstn_map, Htake.
  rewrite Heq in Hnodup, Hvalid. rewrite shared_locs_app in Hnodup, Hvalid.
  apply NoDup_app in Hnodup as (Hnodup & Hapart & _).
  pose proof (element_results_sim s init) as Hres.
  destruct (map_outcome element_result init) as [answers | err]; cbn [obind];
    [| now rewrite Hres].
  destruct Hres as (-> & Hlocs & _). cbn [obind].
  destruct (normalize_in_place answers s) as [o s1] eqn:Hnorm.
  pose proof (normalize_in_place_sim answers s s1 o) as Hsim.
  rewrite Hlocs in Hsim.
  specialize (Hsim Hnodup (fun l Hl => Hvalid l (in_or_app _ _ _ (or_introl Hl))) Hnorm).
  destruct (normalize_in_place_frame _ _ _ _ Hnorm) as (_ & Hframe & _).
  rewrite Hlocs in Hframe.
  destruct o as [blocks | err]; [| now rewrite Hsim].
  destruct Hsim as [-> Hblocks]. cbn [obind].
  rewrite Heq, array_index_map_last.
  assert (Hlogs : match e with
                  | Shared l => forEach_elements (read s1 l)
                  | Tree v => logs <- get_prop v "result" ;; forEach_elements logs
                  end
                  = (logs <- get_prop (element_value s e) "result" ;;
                     forEach_elements logs)).
  { destruct e as [l | v]; [| reflexivity].
    cbn [element_value get_prop lookup_prop String.eqb Ascii.eqb Bool.eqb obind].
    rewrite Hframe; [reflexivity | |].
    - apply Hvalid, in_or_app. right. now left.
    - intros Hin. apply list_elem_of_In in Hin. apply (Hapart l Hin).
      simpl. apply list_elem_of_here. }
  rewrite Hlogs.
  destruct (logs <- get_prop (element_value s e) "result" ;; forEach_elements logs)
    as [logs | err]; cbn [obind]; [| reflexivity].
  destruct (merge_logs_in_place fromBlock blocks logs s1) as [o s2] eqn:Hmerge.
  now apply merge_logs_in_place_sim.
Qed.

(** A call changes no object but the block objects of its response. *)
Lemma getBlocks_in_place_frame (fromBlock : Z) (responses : list element) (s : store)
      (l : loc) :
  (l < length s)%nat -> ~ In l (block_locs responses) ->
  read (snd (getBlocks_in_place fromBlock responses s)) l = read s l.
Proof.
  intros Hl Hnot. unfold getBlocks_in_place, block_locs in *.
  pose proof (element_results_sim s (take (length responses - 1) responses)) as Hres.
  destruct (map_outcome element_result (take (length responses - 1) responses))
    as [answers | err]; [| reflexivity].
  destruct Hres as (_ & Hlocs & _). rewrite <- Hlocs in Hnot.
  destruct (normalize_in_place answers s) as [o s1] eqn:Hnorm.
  destruct (normalize_in_place_frame _ _ _ _ Hnorm) as (Hlen & Hframe & Hok).
  destruct o as [blocks | err]; [| now apply Hframe].
  destruct (logs_in_place responses s1) as [logs | err]; [| now apply Hframe].
  destruct (merge_logs_in_place fromBlock blocks logs s1) as [o s2] eqn:Hmerge.
  destruct (merge_logs_in_place_frame _ _ _ _ _ _ Hmerge) as (_ & Hframe' & _).
  simpl. rewrite Hframe'; [now apply Hframe |].
  intros Hin. destruct (Hok blocks eq_refl) as (Hmem & _ & _).
  destruct (Hmem l Hin) as [Hbad | Hbad]; [contradiction | lia].
Qed.

(** The blocks a call returns are the objects of the response. *)
Lemma getBlocks_in_place_returns (fromBlock : Z) (responses : list element) (s : store)
      (blocks : list loc) (k : nat) (l : loc) :
  fst (getBlocks_in_place fromBlock responses s) = Ok blocks ->
  (k < length responses - 1)%nat ->
  responses !! k = Some (Shared l) ->
  blocks !! k = Some l.
Proof.
  intros Hok Hk Hshared. unfold getBlocks_in_place in Hok.
  pose proof (element_results_sim s (take (length responses - 1) responses)) as Hres.
  destruct (map_outcome element_result (take (length responses - 1) responses))
    as [answers | err]; [| discriminate].
  destruct Hres as (_ & _ & Hpos).
  assert (Hanswer : answers !! k = Some (At l)).
  { apply Hpos. now rewrite lookup_take_lt. }
  destruct (normalize_in_place answers s) as [o s1] eqn:Hnorm.
  destruct (normalize_in_place_frame _ _ _ _ Hnorm) as (_ & _ & Hfacts).
  destruct o as [ls | err]; [| discriminate].
  destruct (Hfacts ls eq_refl) as (_ & _ & Hat).
  destruct (logs_in_place responses s1) as [logs | err]; [| discriminate].
  destruct (merge_logs_in_place fromBlock ls logs s1) as [o s2] eqn:Hmerge.
  destruct (merge_logs_in_place_frame _ _ _ _ _ _ Hmerge) as (_ & _ & Hsame).
  simpl in Hok. subst o. rewrite (Hsame blocks eq_refl). now apply Hat.
Qed.

(** C9 (as amended).  [getBlocks] keeps no state of its own: what it
    changes is the block objects of the response it was handed, and
    those are the blocks it returns.  Take two calls in a row with the
    same [fromBlock], each handed a response none of whose objects
    occurs twice in it, the second response being, as received,
    structurally identical to the first as received.  Then the second
    call yields what the first yielded, which is what the merge
    computes from the response as received, and what [getBlocks]
    returns for a transport answering with that response; the first
    call has changed no object but the block objects of its response;
    and the blocks it returned are those objects. *)
Theorem getBlocks_repeatable (fromBlock : Z) (first second : list element) (s : store) :
  separate s first = true ->
  separate (snd (getBlocks_in_place fromBlock first s)) second = true ->
  received (snd (getBlocks_in_place fromBlock first s)) second = received s first ->
  yielded (getBlocks_in_place fromBlock second
             (snd (getBlocks_in_place fromBlock first s)))
  = yielded (getBlocks_in_place fromBlock first s)
  /\ yielded (getBlocks_in_place fromBlock first s)
     = getBlocks_merge fromBlock (received s first)
  /\ (forall (tr : transport) (toBlock : Z) (h : list event),
         batch_answer tr (getBlocks_batch fromBlock toBlock) = Ok (received s first) ->
         fst (getBlocks tr fromBlock toBlock h)
         = yielded (getBlocks_in_place fromBlock first s))
  /\ (forall l, (l < length s)%nat -> ~ In l (block_locs first) ->
                read (snd (getBlocks_in_place fromBlock first s)) l = read s l)
  /\ (forall blocks k l,
         fst (getBlocks_in_place fromBlock first s) = Ok blocks ->
         (k < length first - 1)%nat ->
         first !! k = Some (Shared l) ->
         blocks !! k = Some l).
Proof.
  intros Hfirst Hsecond Hsame.
  split; [| split; [| split; [| split]]].
  - rewrite (getBlocks_in_place_sim fromBlock second _ Hsecond), Hsame.
    symmetry. now apply getBlocks_in_place_sim.
  - now apply getBlocks_in_place_sim.
  - intros tr toBlock h Hanswer.
    rewrite (getBlocks_answered tr fromBlock toBlock h _ Hanswer).
    symmetry. now apply getBlocks_in_place_sim.
  - intros l. apply getBlocks_in_place_frame.
  - intros blocks k l. apply getBlocks_in_place_returns.
Qed.

Lemma getBlocks_repeatable_witness :
  yielded (getBlocks_in_place 10 sample_shared_copy (snd first_call))
  = yielded first_call.
Proof.
  destruct (getBlocks_repeatable 10 sample_shared sample_shared_copy sample_store)
    as [Hsame _].
  - reflexivity.
  - reflexivity.
  - reflexivity.
  - exact Hsame.
Defined.

(** C9, as stated, fails on objects that are shared.  A mock that
    hands the same response objects to two calls in a row: the first
    call yields blocks numbered 10 and 11, the second finds those
    numbers where it expects hexadecimal strings and yields blocks
    numbered 16 and 17, their logs attached twice; and the blocks the
    first call returned, being the same objects, have changed with
    them.  A mocked response holding one block object in both places:
    as received it compares equal to a response holding two equal
    block objects, and the two yield different numbers. *)
Lemma getBlocks_not_repeatable :
  numbers_of (yielded first_call) = [Ok (VInt 10); Ok (VInt 11)]
  /\ numbers_of (yielded second_call) = [Ok (VInt 16); Ok (VInt 17)]
  /\ logs_of (yielded first_call)
     = [[sample_log 10 "0xaa" "second"];
        [sample_log 11 "0xbb" "first"; sample_log 11 "0xbb" "third"]]
  /\ logs_of (yielded second_call)
     = [[sample_log 10 "0xaa" "second"; sample_log 10 "0xaa" "second"];
        [sample_log 11 "0xbb" "first"; sample_log 11 "0xbb" "third";
         sample_log 11 "0xbb" "first"; sample_log 11 "0xbb" "third"]]
  /\ yielded second_call <> yielded first_call
  /\ yielded (fst first_call, snd second_call) = yielded second_call
  /\ received sample_store twice_shared = received sample_store apart_shared
  /\ numbers_of (yielded (getBlocks_in_place 10 apart_shared sample_store))
     = [Ok (VInt 10); Ok (VInt 10)]
  /\ numbers_of (yielded (getBlocks_in_place 10 twice_shared sample_store))
     = [Ok (VInt 16); Ok (VInt 16)].
Proof.
  do 4 (split; [reflexivity |]).
  split; [intros H; vm_compute in H; discriminate |].
  repeat split.
Qed.

(** ** [getBlocksFromArray]: the requests *)

(** C5.  For block numbers [b1, ..., bn], [getBlocksFromArray] sends
    one batch of [2n] requests: at [2k] the block request for the
    [k]-th number, at [2k + 1] the logs request for that number alone;
    for [[b1, b2]] these are block(b1), logs(b1), block(b2),
    logs(b2). *)
Theorem getBlocksFromArray_batch_requests
    (tr : transport) (blockNumbers : list Z) (h : list event) :
  snd (getBlocksFromArray tr blockNumbers h)
  = h ++ [BatchSent (getBlocksFromArray_batch blockNumbers)]
  /\ length (getBlocksFromArray_batch blockNumbers) = (2 * length blockNumbers)%nat
  /\ (forall (k : nat) (bn : Z),
        blockNumbers !! k = Some bn ->
        getBlocksFromArray_batch blockNumbers !! (2 * k)%nat
        = Some {| method := "eth_getBlockByNumber";
                  params := [VStr ("0x" ++ number_toString 16 bn); VBool true] |}
        /\ getBlocksFromArray_batch blockNumbers !! (2 * k + 1)%nat
           = Some {| method := "eth_getLogs";
                     params :=
                       [VObj [("fromBlock"%string, VStr ("0x" ++ number_toString 16 bn));
                              ("toBlock"%string,
                               VStr ("0x" ++ number_toString 16 bn))]] |})
  /\ forall b1 b2 : Z,
       getBlocksFromArray_batch [b1; b2]
       = [block_request b1; logs_request b1 b1; block_request b2; logs_request b2 b2].
Proof.
  split; [apply getBlocksFromArray_trace |].
  rewrite getBlocksFromArray_batch_spec.
  split; [apply paired_requests_length |].
  split; [| reflexivity].
  intros k bn Hk. now apply paired_requests_lookup.
Qed.

Lemma getBlocksFromArray_batch_requests_witness :
  snd (getBlocksFromArray (fixed_transport sample_pairs) [10; 11] [])
  = [BatchSent [block_request 10; logs_request 10 10;
                block_request 11; logs_request 11 11]].
Proof.
  destruct (getBlocksFromArray_batch_requests (fixed_transport sample_pairs) [10; 11] [])
    as (Htrace & _ & _ & Htwo).
  rewrite Htrace, (Htwo 10 11). reflexivity.
Defined.

(** ** [getBlocksFromArray]: the result *)

Lemma getBlocksFromArray_loop_spec (responses : list value) (n : nat) :
  forall (fuel : nat) (i : Z) (blocks : list value),
    (n <= fuel)%nat ->
    2 * Z.of_nat n <= Z.of_nat (length responses) - i <= 2 * Z.of_nat n + 1 ->
    getBlocksFromArray_loop fuel i responses blocks
    = (rest <- map_outcome (getBlocksFromArray_step responses) (pair_starts n i) ;;
       Ok (blocks ++ rest)).
Proof.
  induction n as [| n IH]; intros fuel i blocks Hfuel Hlen.
  - simpl. rewrite app_nil_r.
    destruct fuel as [| fuel]; [reflexivity |]. simpl.
    destruct (i <? Z.of_nat (length responses) - 1) eqn:Hlt; [| reflexivity].
    apply Z.ltb_lt in Hlt. lia.
  - destruct fuel as [| fuel]; [lia |]. simpl.
    destruct (i <? Z.of_nat (length responses) - 1) eqn:Hlt;
      [| apply Z.ltb_ge in Hlt; lia].
    destruct (getBlocksFromArray_step responses i) as [merged | e]; cbn [obind];
      [| reflexivity].
    rewrite IH by lia.
    destruct (map_outcome (getBlocksFromArray_step responses) (pair_starts n (i + 2)))
      as [rest | e]; cbn [obind]; [| reflexivity].
    now rewrite <- app_assoc.
Qed.

Lemma pair_starts_spec (n : nat) :
  forall i, pair_starts n i = map (fun k => i + 2 * Z.of_nat k) (seq 0 n).
Proof.
  induction n as [| n IH]; intros i; simpl; [reflexivity |].
  f_equal; [lia |].
  rewrite IH, <- seq_shift, map_map.
  apply map_ext. intros k. lia.
Qed.

Lemma map_outcome_map {A B C : Type} (f : B -> outcome C) (g : A -> B) (xs : list A) :
  map_outcome f (map g xs) = map_outcome (fun x => f (g x)) xs.
Proof.
  induction xs as [| x rest IH]; simpl; [reflexivity |]. now rewrite IH.
Qed.

(** The loop reads the responses two by two. *)
Lemma getBlocksFromArray_merge_spec (responses : list value) (n : nat) :
  length responses = (2 * n)%nat ->
  getBlocksFromArray_merge responses
  = map_outcome (fun k => getBlocksFromArray_step responses (2 * Z.of_nat k)) (seq 0 n).
Proof.
  intros Hlen. unfold getBlocksFromArray_merge.
  rewrite (getBlocksFromArray_loop_spec responses n) by lia.
  rewrite pair_starts_spec, map_outcome_map.
  destruct (map_outcome _ (seq 0 n)) as [rest | e]; reflexivity.
Qed.

Lemma array_index_lookup (arr : list value) (j : nat) (x : value) :
  arr !! j = Some x -> array_index arr (Int (Z.of_nat j)) = x.
Proof.
  intros H. simpl.
  destruct (Z.of_nat j <? 0) eqn:Hneg; [apply Z.ltb_lt in Hneg; lia |].
  rewrite Nat2Z.id, H. reflexivity.
Qed.

Lemma getBlocksFromArray_step_inv (responses : list value) (k : nat) (block : value) :
  getBlocksFromArray_step responses (2 * Z.of_nat k) = Ok block ->
  built_from_pair responses k block.
Proof.
  unfold getBlocksFromArray_step. intros H.
  ok_inv H. rename a into raw. ok_inv H. rename a into vn.
  ok_inv H. rename a into n. ok_inv H. rename a into vt.
  ok_inv H. rename a into t. ok_inv H. rename a into logs.
  destruct (get_prop_array_index _ _ _ _ Hstep) as (z & res & Hz & _ & Hres & Hidx).
  destruct (get_prop_array_index _ _ _ _ Hstep4) as (z' & res' & Hz' & _ & Hres' & Hidx').
  injection Hz as <-. injection Hz' as <-.
  replace (Z.to_nat (2 * Z.of_nat k)) with (2 * k)%nat in Hres by lia.
  replace (Z.to_nat (2 * Z.of_nat k + 1)) with (2 * k + 1)%nat in Hres' by lia.
  rewrite Hidx in Hstep. rewrite Hidx' in Hstep4.
  exists res, raw, res', logs, vn, n, vt, t. auto 10.
Qed.

Lemma getBlocksFromArray_step_total (responses : list value) (k : nat) :
  pair_answered responses k ->
  exists block, getBlocksFromArray_step responses (2 * Z.of_nat k) = Ok block.
Proof.
  intros (res & raw & res' & logs & Hres & Hraw & Hobj & Hres' & Hlogs).
  unfold getBlocksFromArray_step.
  replace (2 * Z.of_nat k) with (Z.of_nat (2 * k)) by lia.
  replace (Z.of_nat (2 * k) + 1) with (Z.of_nat (2 * k + 1)) by lia.
  rewrite (array_index_lookup _ _ _ Hres), (array_index_lookup _ _ _ Hres').
  rewrite Hraw, Hlogs. cbn [obind].
  destruct raw as [| | p | ps | elems ps | p ps]; simpl in Hobj; try discriminate.
  apply andb_prop in Hobj as [Hn Ht].
  destruct (parseInt16_scalar _ Hn) as [n Hpn].
  destruct (parseInt16_scalar _ Ht) as [t Hpt].
  cbn [get_prop obind]. rewrite Hpn. cbn [obind]. rewrite Hpt. cbn [obind].
  simpl. eauto.
Qed.

(** *** Nothing but a [TypeError] *)

Lemma to_string_throws :
  forall (v : value) (e : error), to_string v = Throw e -> e = TypeError.
Proof.
  fix IH 1. intros v e.
  destruct v as [| | p | ps | elems ps | p ps]; simpl; try discriminate.
  - destruct (has_prop "toString" ps); [intros H; now injection H | discriminate].
  - destruct (has_prop "toString" ps); [intros H; now injection H |].
    destruct (has_prop "join" ps); [discriminate |].
    revert e. generalize elems. clear elems.
    fix IHl 1. intros l e.
    destruct l as [| x rest]; [discriminate |].
    pose proof (IH x) as IHx. pose proof (IHl rest) as IHrest.
    clear IH IHl.
    destruct (match x with VUndef | VNull => Ok EmptyString | _ => to_string x end)
      as [s | e0] eqn:Hx.
    + cbn [obind]. destruct rest as [| y rest']; [discriminate |].
      intros H.
      match type of H with
      | obind ?m _ = _ => destruct m as [r | e1] eqn:Hr
      end; cbn [obind] in H; [discriminate |].
      injection H as <-. now apply IHrest.
    + cbn [obind]. intros H. injection H as <-.
      destruct x; try discriminate; now apply IHx.
  - destruct (has_prop "toString" ps && has_prop "valueOf" ps);
      [intros H; now injection H | discriminate].
Qed.

Lemma get_prop_throws (v : value) (key : string) (e : error) :
  get_prop v key = Throw e -> e = TypeError.
Proof. destruct v; simpl; intros H; try discriminate; now injection H. Qed.

Lemma parseInt16_throws (v : value) (e : error) :
  parseInt16 v = Throw e -> e = TypeError.
Proof.
  unfold parseInt16. destruct (to_string v) as [s | e0] eqn:Hs; simpl; [discriminate |].
  intros H. injection H as <-. now apply to_string_throws in Hs.
Qed.

Lemma object_assign_throws (v : value) (source : props) (e : error) :
  object_assign v source = Throw e -> e = TypeError.
Proof. destruct v; simpl; intros H; try discriminate; now injection H. Qed.

Lemma getBlocksFromArray_step_throws (responses : list value) (i : Z) (e : error) :
  getBlocksFromArray_step responses i = Throw e -> e = TypeError.
Proof.
  unfold getBlocksFromArray_step.
  repeat match goal with
         | |- obind ?m _ = Throw _ -> _ =>
             let H := fresh "H" in
             destruct m eqn:H; cbn [obind];
             [| let K := fresh "K" in
                intros K; injection K as <-;
                first [ now apply get_prop_throws in H
                      | now apply parseInt16_throws in H ] ]
         end.
  apply object_assign_throws.
Qed.

Lemma map_outcome_throws {A B : Type} (f : A -> outcome B) (xs : list A) (e : error) :
  map_outcome f xs = Throw e -> exists x, In x xs /\ f x = Throw e.
Proof.
  induction xs as [| x rest IH]; simpl; [discriminate |].
  destruct (f x) as [y | e0] eqn:Hx; cbn [obind].
  - destruct (map_outcome f rest) as [ys | e1]; cbn [obind]; [discriminate |].
    intros H. injection H as <-.
    destruct (IH eq_refl) as (x' & Hin & Hx'). eauto.
  - intros H. injection H as <-. eauto.
Qed.

Lemma getBlocksFromArray_answered (tr : transport) (blockNumbers : list Z)
      (h : list event) (responses : list value) :
  batch_answer tr (getBlocksFromArray_batch blockNumbers) = Ok responses ->
  fst (getBlocksFromArray tr blockNumbers h) = getBlocksFromArray_merge responses.
Proof.
  intros H. rewrite getBlocksFromArray_outcome, H. reflexivity.
Qed.

Lemma getBlocksFromArray_merge_blocks (responses blocks : list value) (n : nat) :
  length responses = (2 * n)%nat ->
  getBlocksFromArray_merge responses = Ok blocks ->
  length blocks = n
  /\ forall (k : nat) (block : value),
       blocks !! k = Some block -> built_from_pair responses k block.
Proof.
  intros Hlen H. rewrite (getBlocksFromArray_merge_spec responses n Hlen) in H.
  apply map_outcome_Forall2 in H. split.
  - rewrite <- (Forall2_length _ _ _ H). apply length_seq.
  - intros k block Hk.
    destruct (Forall2_lookup_r _ _ _ _ _ H Hk) as (j & Hj & Hstep).
    apply lookup_seq in Hj as [-> _].
    now apply getBlocksFromArray_step_inv.
Qed.

(** C6.  For [n] block numbers and a batch response of length [2n],
    [getBlocksFromArray] reads the responses two by two, response [2k]
    as the [k]-th block and response [2k + 1] as its logs; what it
    returns is one block per number, in order, each with [logs] set to
    the result of its paired response; it never throws the mismatch
    string of [getBlocks], whatever the hashes; and it does return
    when each pair holds a block object and an answer for its logs. *)
Theorem getBlocksFromArray_pairs
    (tr : transport) (blockNumbers : list Z) (h : list event) (responses : list value) :
  batch_answer tr (getBlocksFromArray_batch blockNumbers) = Ok responses ->
  length responses = (2 * length blockNumbers)%nat ->
  fst (getBlocksFromArray tr blockNumbers h)
  = map_outcome (fun k => getBlocksFromArray_step responses (2 * Z.of_nat k))
      (seq 0 (length blockNumbers))
  /\ (forall blocks,
        fst (getBlocksFromArray tr blockNumbers h) = Ok blocks ->
        length blocks = length blockNumbers
        /\ forall (k : nat) (block : value),
             blocks !! k = Some block ->
             built_from_pair responses k block
             /\ exists res' logs,
                  responses !! (2 * k + 1)%nat = Some res'
                  /\ get_prop res' "result" = Ok logs
                  /\ get_prop block "logs" = Ok logs)
  /\ (forall msg, fst (getBlocksFromArray tr blockNumbers h) <> Throw (Thrown msg))
  /\ ((forall k, (k < length blockNumbers)%nat -> pair_answered responses k) ->
      exists blocks, fst (getBlocksFromArray tr blockNumbers h) = Ok blocks).
Proof.
  intros Hanswer Hlen.
  rewrite (getBlocksFromArray_answered tr blockNumbers h responses Hanswer).
  split; [now apply getBlocksFromArray_merge_spec |].
  split; [| split].
  - intros blocks H.
    destruct (getBlocksFromArray_merge_blocks _ _ _ Hlen H) as [Hcount Hbuilt].
    split; [exact Hcount |].
    intros k block Hk. pose proof (Hbuilt k block Hk) as Hpair.
    split; [exact Hpair |].
    destruct Hpair as (res & raw & res' & logs & vn & n & vt & t
                       & _ & _ & Hres' & Hlogs & _ & _ & _ & _ & Hassign).
    exists res', logs. repeat (split; [assumption |]).
    destruct raw; cbn [object_assign] in Hassign; try discriminate;
      injection Hassign as <-; cbn [get_prop]; unfold assign_props; simpl;
      now rewrite ?lookup_prop_write_eq.
  - intros msg H.
    rewrite (getBlocksFromArray_merge_spec responses _ Hlen) in H.
    apply map_outcome_throws in H as (k & _ & Hk).
    apply getBlocksFromArray_step_throws in Hk. discriminate.
  - intros Hpairs.
    rewrite (getBlocksFromArray_merge_spec responses _ Hlen).
    apply map_outcome_total, Forall_forall. intros k Hk.
    apply getBlocksFromArray_step_total, Hpairs.
    apply list_elem_of_In, in_seq in Hk. lia.
Qed.

Lemma sample_pairs_answered (k : nat) :
  (k < 2)%nat -> pair_answered sample_pairs k.
Proof.
  intros Hk. destruct k as [| [| k]]; [| | lia];
    do 4 eexists; repeat split; reflexivity.
Defined.

Lemma getBlocksFromArray_pairs_witness :
  exists blocks,
    fst (getBlocksFromArray (fixed_transport sample_pairs) [10; 11] []) = Ok blocks
    /\ length blocks = 2%nat
    /\ forall (k : nat) (block : value),
         blocks !! k = Some block ->
         exists res' logs,
           sample_pairs !! (2 * k + 1)%nat = Some res'
           /\ get_prop res' "result" = Ok logs
           /\ get_prop block "logs" = Ok logs.
Proof.
  destruct (getBlocksFromArray_pairs (fixed_transport sample_pairs) [10; 11] [] sample_pairs)
    as (_ & Hshape & _ & Hreturns).
  - reflexivity.
  - reflexivity.
  - destruct (Hreturns sample_pairs_answered) as [blocks Hblocks].
    exists blocks. split; [exact Hblocks |].
    destruct (Hshape blocks Hblocks) as [Hcount Hbuilt].
    split; [exact Hcount |].
    intros k block Hk. exact (proj2 (Hbuilt k block Hk)).
Defined.

(** ** [call] *)

Lemma strict_eq_string (v : value) (s : string) :
  strict_eq v (VStr s) = true -> v = VStr s.
Proof.
  destruct v as [| | [b | n | s'] | ps | elems ps | p ps]; simpl; try discriminate.
  intros H. apply String.eqb_eq in H. now subst.
Qed.

(** C7.  When the block number [call] works with (its argument, or
    ['latest'] when that is [undefined]) is neither ['latest'] nor
    accepted by [utils.isHex] -- the helper answers false, or raises
    on it -- [call] rejects and sends nothing to the transport. *)
Theorem call_rejects_non_hex
    (isHex : value -> outcome bool) (encodeTxData : value -> value -> outcome value)
    (tr : transport) (methodSignature to args blockNumber : value) (h : list event) :
  default_arg blockNumber (VStr "latest") <> VStr "latest" ->
  isHex (default_arg blockNumber (VStr "latest")) <> Ok true ->
  (exists e,
      fst (call isHex encodeTxData tr methodSignature to args blockNumber h) = Throw e)
  /\ snd (call isHex encodeTxData tr methodSignature to args blockNumber h) = h.
Proof.
  intros Hlatest Hhex. unfold call, refused.
  destruct (strict_eq (default_arg blockNumber (VStr "latest")) (VStr "latest")) eqn:Heq.
  - apply strict_eq_string in Heq. contradiction.
  - cbn [negb]. unfold io_bind, io_lift, io_throw.
    destruct (isHex (default_arg blockNumber (VStr "latest"))) as [[|] | e].
    + contradiction.
    + cbn [obind negb].
      destruct (expected_hex_message (default_arg blockNumber (VStr "latest")));
        simpl; eauto.
    + simpl. eauto.
Qed.

Lemma call_rejects_non_hex_witness :
  (exists e,
      fst (call sample_isHex sample_encodeTxData (fixed_transport [])
             (VStr "balanceOf(address)") (VStr "0x00") VUndef (VInt 12) []) = Throw e)
  /\ snd (call sample_isHex sample_encodeTxData (fixed_transport [])
            (VStr "balanceOf(address)") (VStr "0x00") VUndef (VInt 12) []) = [].
Proof.
  apply (call_rejects_non_hex sample_isHex sample_encodeTxData (fixed_transport [])
           (VStr "balanceOf(address)") (VStr "0x00") VUndef (VInt 12) []).
  - discriminate.
  - discriminate.
Defined.

(** ** What is left untouched *)

Lemma same_but_object (names : list string) (ps : props) (b' : value) :
  same_but names (VObj ps) b' ->
  exists ps', b' = VObj ps'
              /\ forall key, ~ In key names -> lookup_prop key ps' = lookup_prop key ps.
Proof.
  intros [Hother Hkind]. destruct (Hkind ps eq_refl) as [ps' ->].
  exists ps'. split; [reflexivity |].
  intros key Hkey. specialize (Hother key Hkey). simpl in Hother. congruence.
Qed.

Lemma in_block_fields (key : string) :
  In key ["number"; "timestamp"]%string \/ In key ["logs"%string] ->
  In key ["number"; "timestamp"; "logs"]%string.
Proof. simpl. tauto. Qed.

Lemma assigned_fields (raw block : value) (n t : number) (rest : props) :
  object_assign raw
    (("number"%string, VNum n) :: ("timestamp"%string, VNum t) :: rest) = Ok block ->
  ~ In "number"%string (map fst rest) ->
  ~ In "timestamp"%string (map fst rest) ->
  get_prop block "number" = Ok (VNum n)
  /\ get_prop block "timestamp" = Ok (VNum t).
Proof.
  intros H Hn Ht.
  assert (Hfields : forall ps,
             lookup_prop "number"
               (assign_props ps (("number"%string, VNum n)
                                   :: ("timestamp"%string, VNum t) :: rest)) = VNum n
             /\ lookup_prop "timestamp"
                  (assign_props ps (("number"%string, VNum n)
                                      :: ("timestamp"%string, VNum t) :: rest)) = VNum t).
  { intros ps. unfold assign_props. cbn [fold_left fst snd].
    fold (assign_props (write_prop "timestamp" (VNum t) (write_prop "number" (VNum n) ps))
            rest).
    rewrite !lookup_prop_assign_other by assumption.
    rewrite lookup_prop_write_ne by discriminate.
    now rewrite !lookup_prop_write_eq. }
  destruct raw as [| | p | ps | elems ps | p ps]; cbn [object_assign] in H;
    try discriminate; injection H as <-; cbn [get_prop];
    [destruct (Hfields []) as [H1 H2] | destruct (Hfields ps) as [H1 H2] ..];
    split; f_equal; first [exact H1 | exact H2].
Qed.

(** C8.  Of a block object the transport returned, [getBlocks] and
    [getBlocksFromArray] change the properties [number], [timestamp]
    and [logs] and no other.  [number] and [timestamp] become the
    Numbers [parseInt16] reads in what was received -- for the
    hexadecimal literal of [z], [z].  Every other property of the
    returned block is the one received.  The [logs] of the block
    [getBlocks] returns at index [k] are the logs it arrived with
    followed by the logs of the response whose index is [k], as
    received and in their order; the [logs] of a block
    [getBlocksFromArray] returns is the result of the paired response,
    as received. *)
Theorem blocks_pass_through (tr : transport) (h : list event) :
  (forall (fromBlock toBlock : Z) (responses results logs blocks : list value),
      batch_answer tr (getBlocks_batch fromBlock toBlock) = Ok responses ->
      block_results responses = Ok results ->
      logs_result responses = Ok logs ->
      fst (getBlocks tr fromBlock toBlock h) = Ok blocks ->
      forall (k : nat) (ps : props),
        results !! k = Some (VObj ps) ->
        exists ps' n t,
          blocks !! k = Some (VObj ps')
          /\ parseInt16 (lookup_prop "number" ps) = Ok n
          /\ lookup_prop "number" ps' = VNum n
          /\ parseInt16 (lookup_prop "timestamp" ps) = Ok t
          /\ lookup_prop "timestamp" ps' = VNum t
          /\ (forall key, ~ In key ["number"; "timestamp"; "logs"]%string ->
                          lookup_prop key ps' = lookup_prop key ps)
          /\ block_logs (VObj ps')
             = block_logs (VObj ps) ++ List.filter (at_index fromBlock k) logs)
  /\ (forall (blockNumbers : list Z) (responses blocks : list value),
        batch_answer tr (getBlocksFromArray_batch blockNumbers) = Ok responses ->
        length responses = (2 * length blockNumbers)%nat ->
        fst (getBlocksFromArray tr blockNumbers h) = Ok blocks ->
        forall (k : nat) (block : value),
          blocks !! k = Some block ->
          exists res raw res' logs,
            responses !! (2 * k)%nat = Some res
            /\ get_prop res "result" = Ok raw
            /\ responses !! (2 * k + 1)%nat = Some res'
            /\ get_prop res' "result" = Ok logs
            /\ get_prop block "logs" = Ok logs
            /\ forall ps, raw = VObj ps ->
                 exists ps' n t,
                   block = VObj ps'
                   /\ parseInt16 (lookup_prop "number" ps) = Ok n
                   /\ lookup_prop "number" ps' = VNum n
                   /\ parseInt16 (lookup_prop "timestamp" ps) = Ok t
                   /\ lookup_prop "timestamp" ps' = VNum t
                   /\ lookup_prop "logs" ps' = logs
                   /\ forall key, ~ In key ["number"; "timestamp"; "logs"]%string ->
                                  lookup_prop key ps' = lookup_prop key ps)
  /\ (forall z : Z, 0 <= z -> parseInt16 (hex_literal z) = Ok (Int z)).
Proof.
  split; [| split].
  - intros fromBlock toBlock responses results logs blocks
           Hanswer Hresults Hlogs Hok k ps Hk.
    rewrite (getBlocks_answered tr fromBlock toBlock h responses Hanswer) in Hok.
    apply getBlocks_merge_inv in Hok.
    destruct Hok as (results' & normalized & logs' & Hresults' & Hnorm & Hlogs' & Hfold).
    rewrite Hresults in Hresults'. injection Hresults' as <-.
    rewrite Hlogs in Hlogs'. injection Hlogs' as <-.
    pose proof (proj1 (map_outcome_Forall2 _ _ _) Hnorm) as Hnorm2.
    destruct (Forall2_lookup_l _ _ _ _ _ Hnorm2 Hk) as (nb & Hnb & Hnormalize).
    pose proof (merge_logs_same_but _ _ _ _ Hfold) as Hmerged.
    destruct (Forall2_lookup_l _ _ _ _ _ Hmerged Hnb) as (block & Hblock & Hsame).
    destruct (normalize_block_fields _ _ Hnormalize)
      as (vn & n & vt & t & Hvn & Hpn & Hvt & Hpt & Hnumber & Htimestamp).
    simpl in Hvn, Hvt. injection Hvn as <-. injection Hvt as <-.
    assert (Hall : same_but ["number"; "timestamp"; "logs"]%string (VObj ps) block).
    { eapply same_but_trans.
      - eapply same_but_weaken; [| exact (normalize_block_same_but _ _ Hnormalize)].
        intros key Hkey. apply in_block_fields. now left.
      - eapply same_but_weaken; [| exact Hsame].
        intros key Hkey. apply in_block_fields. now right. }
    destruct (same_but_object _ _ _ Hall) as (ps' & -> & Hother).
    destruct Hsame as [Hlogs_only _].
    exists ps', n, t. split; [exact Hblock |]. split; [exact Hpn |]. split.
    { specialize (Hlogs_only "number"%string (not_in_logs "number" ltac:(discriminate))).
      rewrite Hnumber in Hlogs_only. simpl in Hlogs_only. congruence. }
    split; [exact Hpt |]. split.
    { specialize (Hlogs_only "timestamp"%string (not_in_logs "timestamp" ltac:(discriminate))).
      rewrite Htimestamp in Hlogs_only. simpl in Hlogs_only. congruence. }
    split; [exact Hother |].
    pose proof (merge_logs_logs_at _ _ _ _ Hfold k) as Hat.
    rewrite (normalize_blocks_logs_at _ _ k Hnorm) in Hat.
    unfold logs_at in Hat. rewrite Hblock, Hk in Hat. exact Hat.
  - intros blockNumbers responses blocks Hanswer Hlen Hok k block Hk.
    rewrite (getBlocksFromArray_answered tr blockNumbers h responses Hanswer) in Hok.
    destruct (getBlocksFromArray_merge_blocks _ _ _ Hlen Hok) as [_ Hbuilt].
    destruct (Hbuilt k block Hk)
      as (res & raw & res' & logs & vn & n & vt & t
          & Hres & Hraw & Hres' & Hlogs & Hvn & Hpn & Hvt & Hpt & Hassign).
    exists res, raw, res', logs. repeat (split; [assumption |]).
    assert (Hgot : get_prop block "logs" = Ok logs).
    { destruct raw; cbn [object_assign] in Hassign; try discriminate;
        injection Hassign as <-; cbn [get_prop]; unfold assign_props; simpl;
        now rewrite ?lookup_prop_write_eq. }
    split; [exact Hgot |].
    intros ps ->.
    destruct (assigned_fields _ _ _ _ _ Hassign) as [Hnumber Htimestamp].
    { simpl. intros [Hbad | []]. discriminate. }
    { simpl. intros [Hbad | []]. discriminate. }
    apply object_assign_same_but in Hassign.
    apply same_but_object in Hassign as (ps' & -> & Hother).
    simpl in Hvn, Hvt, Hnumber, Htimestamp, Hgot.
    injection Hvn as <-. injection Hvt as <-.
    exists ps', n, t. split; [reflexivity |]. split; [exact Hpn |].
    split; [congruence |]. split; [exact Hpt |]. split; [congruence |].
    split; [congruence | exact Hother].
  - exact parseInt16_hex_literal.
Qed.

Lemma blocks_pass_through_witness :
  (exists blocks ps',
      fst (getBlocks (fixed_transport sample_responses) 10 12 []) = Ok blocks
      /\ blocks !! 1%nat = Some (VObj ps')
      /\ lookup_prop "number" ps' = VInt 11
      /\ lookup_prop "hash" ps' = VStr "0xbb"
      /\ lookup_prop "miner" ps' = VStr "0x00"
      /\ block_logs (VObj ps')
         = [sample_log 11 "0xbb" "first"; sample_log 11 "0xbb" "third"])
  /\ (exists blocks ps',
         fst (getBlocksFromArray (fixed_transport sample_pairs) [10; 11] []) = Ok blocks
         /\ blocks !! 1%nat = Some (VObj ps')
         /\ lookup_prop "number" ps' = VInt 11
         /\ lookup_prop "timestamp" ps' = VInt 100000000
         /\ lookup_prop "hash" ps' = VStr "0xbb"
         /\ lookup_prop "logs" ps' = VArr [sample_log 11 "0xcc" "first"] []).
Proof.
  split.
  - destruct (blocks_pass_through (fixed_transport sample_responses) []) as [Hframe _].
    assert (Hrun : exists blocks,
               fst (getBlocks (fixed_transport sample_responses) 10 12 []) = Ok blocks)
      by (eexists; vm_compute; reflexivity).
    destruct Hrun as [blocks Hblocks].
    destruct (Hframe 10 12 sample_responses
                [sample_block 10 "0xaa"; sample_block 11 "0xbb"] sample_logs blocks
                eq_refl eq_refl eq_refl Hblocks 1%nat _ eq_refl)
      as (ps' & n & t & Hk & Hpn & Hnumber & _ & _ & Hother & Hlogs).
    exists blocks, ps'. split; [exact Hblocks |]. split; [exact Hk |].
    split; [| split; [| split]].
    + rewrite Hnumber. vm_compute in Hpn. congruence.
    + rewrite Hother; [reflexivity |].
      simpl. intros [Hbad | [Hbad | [Hbad | []]]]; discriminate.
    + rewrite Hother; [reflexivity |].
      simpl. intros [Hbad | [Hbad | [Hbad | []]]]; discriminate.
    + rewrite Hlogs. reflexivity.
  - destruct (blocks_pass_through (fixed_transport sample_pairs) []) as (_ & Hpairs & _).
    assert (Hrun : exists blocks block,
               fst (getBlocksFromArray (fixed_transport sample_pairs) [10; 11] [])
               = Ok blocks
               /\ blocks !! 1%nat = Some block)
      by (do 2 eexists; split; vm_compute; reflexivity).
    destruct Hrun as (blocks & block & Hblocks & Hk).
    destruct (Hpairs [10; 11] sample_pairs blocks eq_refl eq_refl Hblocks 1%nat block Hk)
      as (res & raw & res' & logs & Hres & Hraw & Hres' & Hlogs & _ & Hobject).
    simpl in Hres, Hres'. injection Hres as <-. injection Hres' as <-.
    simpl in Hraw, Hlogs. injection Hraw as <-. injection Hlogs as <-.
    destruct (Hobject _ eq_refl)
      as (ps' & n & t & -> & Hpn & Hnumber & Hpt & Htimestamp & Hgot & Hother).
    exists blocks, ps'. split; [exact Hblocks |]. split; [exact Hk |].
    split; [| split; [| split]].
    + rewrite Hnumber. vm_compute in Hpn. congruence.
    + rewrite Htimestamp. vm_compute in Hpt. congruence.
    + rewrite Hother; [reflexivity |].
      simpl. intros [Hbad | [Hbad | [Hbad | []]]]; discriminate.
    + exact Hgot.
Defined.

(** ** Further checks *)

(** The normalisation example of the specification: [number: "0x1a"]
    and [timestamp: "0x5f5e100"] become [26] and [100000000]. *)
Example normalize_block_example :
  normalize_block
    (VObj [("number"%string, VStr "0x1a"); ("timestamp"%string, VStr "0x5f5e100")])
  = Ok (VObj [("number"%string, VInt 26); ("timestamp"%string, VInt 100000000)]).
Proof. reflexivity. Qed.

(** With [fromBlock = toBlock] the batch is the one logs request, and
    an empty answer to it gives the empty list. *)
Lemma getBlocks_empty_range (tr : transport) (n : Z) (h : list event) :
  getBlocks_batch n n = [logs_request n (n - 1)]
  /\ (batch_answer tr (getBlocks_batch n n) = Ok [envelope (VArr [] [])] ->
      fst (getBlocks tr n n h) = Ok []).
Proof.
  split.
  - unfold getBlocks_batch. now rewrite Z.sub_diag.
  - intros Hanswer.
    now rewrite (getBlocks_answered tr n n h _ Hanswer).
Qed.

(** With [fromBlock = toBlock = 0] the logs request asks up to block
    [-1]. *)
Example getBlocks_batch_zero :
  getBlocks_batch 0 0
  = [{| method := "eth_getLogs";
        params := [VObj [("fromBlock"%string, VStr "0x0");
                         ("toBlock"%string, VStr "0x-1")]] |}].
Proof. reflexivity. Qed.

(** The blocks [getBlocks] returns are the objects of the response,
    updated in place.  A response whose blocks went through a call is
    therefore another response: its numbers are integers, read again
    as hexadecimal, and its blocks carry their logs already. *)
Example getBlocks_merge_on_merged_blocks :
  exists blocks blocks',
    getBlocks_merge 10 sample_responses = Ok blocks
    /\ getBlocks_merge 10 (map envelope blocks ++ [envelope (VArr sample_logs [])])
       = Ok blocks'
    /\ get_prop (default VUndef (blocks !! 0%nat)) "number" = Ok (VInt 10)
    /\ get_prop (default VUndef (blocks' !! 0%nat)) "number" = Ok (VInt 16)
    /\ logs_at blocks 0 = [sample_log 10 "0xaa" "second"]
    /\ logs_at blocks' 0 = [sample_log 10 "0xaa" "second"; sample_log 10 "0xaa" "second"].
Proof.
  do 2 eexists. split; [reflexivity |]. split; [reflexivity |].
  repeat split.
Qed.

(** * Further properties of the module *)

(** ** Hexadecimal literals, both ways *)

(** X1.  The options [formatLogOptions] builds read back: for
    non-negative [fromBlock] and [toBlock], [parseInt16] of each
    field is the number it was built from. *)
Theorem formatLogOptions_round_trip (fromBlock toBlock : Z) :
  0 <= fromBlock -> 0 <= toBlock ->
  (f <- get_prop (formatLogOptions fromBlock toBlock) "fromBlock" ;; parseInt16 f)
  = Ok (Int fromBlock)
  /\ (t <- get_prop (formatLogOptions fromBlock toBlock) "toBlock" ;; parseInt16 t)
     = Ok (Int toBlock).
Proof.
  intros Hfrom Hto. unfold formatLogOptions. cbn [get_prop lookup_prop].
  simpl String.eqb. cbn [obind].
  split; now apply parseInt16_hex_literal.
Qed.

Lemma formatLogOptions_round_trip_witness :
  (f <- get_prop (formatLogOptions 10 11) "fromBlock" ;; parseInt16 f) = Ok (Int 10)
  /\ (t <- get_prop (formatLogOptions 10 11) "toBlock" ;; parseInt16 t) = Ok (Int 11).
Proof.
  apply (formatLogOptions_round_trip 10 11); lia.
Defined.

(** X2.  A negative number does not survive the literal: its sign
    comes after [0x], where [parseInt16] expects a digit, and the
    result is [NaN]. *)
Theorem hex_literal_negative (n : Z) :
  n < 0 -> parseInt16 (hex_literal n) = Ok Nan.
Proof.
  intros Hn. unfold parseInt16, hex_literal, number_toString.
  destruct (n <? 0) eqn:Hneg; [| apply Z.ltb_ge in Hneg; lia].
  reflexivity.
Qed.

Lemma hex_literal_negative_witness : parseInt16 (hex_literal (-1)) = Ok Nan.
Proof. apply (hex_literal_negative (-1)). lia. Defined.

(** ** [blockNumber] *)

(** X3.  When the node answers the literal of [n >= 0],
    [blockNumber] fulfils with [n], after one [eth_blockNumber] call
    without parameters. *)
Theorem blockNumber_reads_literal (tr : transport) (n : Z) (h : list event) :
  0 <= n ->
  rpc_answer tr "eth_blockNumber" [] = Ok (hex_literal n) ->
  blockNumber tr h = (Ok (Int n), h ++ [RpcCall "eth_blockNumber" []]).
Proof.
  intros Hn Hanswer. unfold blockNumber, io_bind, rpc, io_lift.
  rewrite Hanswer. now rewrite parseInt16_hex_literal.
Qed.

Lemma blockNumber_reads_literal_witness :
  blockNumber (node_transport (fun _ _ => Ok (hex_literal 26)) []) []
  = (Ok (Int 26), [] ++ [RpcCall "eth_blockNumber" []]).
Proof.
  apply (blockNumber_reads_literal (node_transport (fun _ _ => Ok (hex_literal 26)) []) 26 []).
  - lia.
  - reflexivity.
Defined.

(** X4.  [blockNumber] does not reject an answer that is no number:
    on any scalar answer it fulfils, and on [null] or a missing result
    it fulfils with [NaN]. *)
Theorem blockNumber_never_rejects_scalar
    (tr : transport) (answer : value) (h : list event) :
  rpc_answer tr "eth_blockNumber" [] = Ok answer ->
  is_scalar answer = true ->
  (exists n, fst (blockNumber tr h) = Ok n)
  /\ (answer = VNull \/ answer = VUndef -> fst (blockNumber tr h) = Ok Nan).
Proof.
  intros Hanswer Hscalar. unfold blockNumber, io_bind, rpc, io_lift.
  rewrite Hanswer. simpl fst. split.
  - now apply parseInt16_scalar.
  - intros [-> | ->]; reflexivity.
Qed.

Lemma blockNumber_never_rejects_scalar_witness :
  (exists n, fst (blockNumber (node_transport (fun _ _ => Ok VNull) []) []) = Ok n)
  /\ (VNull = VNull \/ VNull = VUndef ->
      fst (blockNumber (node_transport (fun _ _ => Ok VNull) []) []) = Ok Nan).
Proof.
  apply (blockNumber_never_rejects_scalar (node_transport (fun _ _ => Ok VNull) []) VNull []);
    reflexivity.
Defined.

(** ** [getBlock] *)

Lemma getBlock_run (tr : transport) (n : Z) (h : list event) :
  getBlock tr n h
  = (block <- rpc_answer tr "eth_getBlockByNumber" [hex_literal n; VBool true] ;;
     getBlock_then block,
     h ++ [RpcCall "eth_getBlockByNumber" [hex_literal n; VBool true]]).
Proof.
  unfold getBlock, io_bind, rpc, io_lift.
  destruct (rpc_answer tr "eth_getBlockByNumber" [hex_literal n; VBool true]);
    reflexivity.
Qed.

(** On anything but a primitive, the two assignments of [getBlock] and
    the [Object.assign] of [getBlocks] come to the same. *)
Lemma getBlock_then_normalize (block : value) :
  (forall p, block <> VPrim p) ->
  getBlock_then block = normalize_block block.
Proof.
  intros Hprim. unfold getBlock_then, normalize_block.
  destruct block as [| | p | ps | elems ps | p ps];
    try reflexivity; [now destruct (Hprim p) | | |];
    cbn [get_prop obind];
    (destruct (parseInt16 (lookup_prop "number" ps)) as [n | e];
     cbn [obind set_prop get_prop]; [| reflexivity]);
    rewrite lookup_prop_write_ne by discriminate;
    (destruct (parseInt16 (lookup_prop "timestamp" ps)) as [t | e];
     cbn [obind]; reflexivity).
Qed.

(** X5.  When the node answers [getBlock(n)], [n >= 0], with a block
    object whose [number] is the literal of [n] and whose [timestamp]
    is a scalar, [getBlock] fulfils with that object, [number] set to
    [n], [timestamp] parsed and every other property as received,
    after one [eth_getBlockByNumber] call for the literal of [n] with
    full transactions. *)
Theorem getBlock_returns_block
    (tr : transport) (n : Z) (h : list event) (ps : props) :
  0 <= n ->
  rpc_answer tr "eth_getBlockByNumber" [hex_literal n; VBool true] = Ok (VObj ps) ->
  lookup_prop "number" ps = hex_literal n ->
  is_scalar (lookup_prop "timestamp" ps) = true ->
  exists ps' t,
    getBlock tr n h
    = (Ok (VObj ps'),
       h ++ [RpcCall "eth_getBlockByNumber" [hex_literal n; VBool true]])
    /\ lookup_prop "number" ps' = VInt n
    /\ parseInt16 (lookup_prop "timestamp" ps) = Ok t
    /\ lookup_prop "timestamp" ps' = VNum t
    /\ forall key, ~ In key ["number"; "timestamp"]%string ->
                   lookup_prop key ps' = lookup_prop key ps.
Proof.
  intros Hn Hanswer Hnumber Hts.
  destruct (parseInt16_scalar _ Hts) as [t Ht].
  rewrite getBlock_run, Hanswer. cbn [obind].
  unfold getBlock_then. cbn [get_prop obind].
  rewrite Hnumber, parseInt16_hex_literal by exact Hn.
  cbn [obind set_prop get_prop].
  rewrite lookup_prop_write_ne by discriminate. rewrite Ht. cbn [obind].
  eexists. exists t. split; [reflexivity |].
  split; [| split; [reflexivity | split]].
  - rewrite lookup_prop_write_ne by discriminate. apply lookup_prop_write_eq.
  - apply lookup_prop_write_eq.
  - intros key Hkey. simpl in Hkey.
    rewrite !lookup_prop_write_ne; [reflexivity | |]; intros ->; tauto.
Qed.

Lemma getBlock_returns_block_witness :
  exists ps',
    fst (getBlock (node_transport (fun _ _ => Ok (sample_block 11 "0xbb")) []) 11 [])
    = Ok (VObj ps')
    /\ lookup_prop "number" ps' = VInt 11
    /\ lookup_prop "hash" ps' = VStr "0xbb".
Proof.
  destruct (getBlock_returns_block
              (node_transport (fun _ _ => Ok (sample_block 11 "0xbb")) []) 11 []
              [("number"%string, hex_literal 11);
               ("hash"%string, VStr "0xbb");
               ("timestamp"%string, VStr "0x5f5e100");
               ("miner"%string, VStr "0x00")])
    as (ps' & t & Hrun & Hnumber & _ & _ & Hother).
  - lia.
  - reflexivity.
  - reflexivity.
  - reflexivity.
  - exists ps'. rewrite Hrun. split; [reflexivity |]. split; [exact Hnumber |].
    rewrite Hother; [reflexivity |].
    simpl. intros [Hbad | [Hbad | []]]; discriminate.
Defined.

(** X6.  When the node knows no such block and answers [null], or
    answers without a result, [getBlock] rejects with a [TypeError]
    after its one call. *)
Theorem getBlock_missing_block
    (tr : transport) (n : Z) (h : list event) (answer : value) :
  rpc_answer tr "eth_getBlockByNumber" [hex_literal n; VBool true] = Ok answer ->
  answer = VNull \/ answer = VUndef ->
  getBlock tr n h
  = (Throw TypeError,
     h ++ [RpcCall "eth_getBlockByNumber" [hex_literal n; VBool true]]).
Proof.
  intros Hanswer Hnull. rewrite getBlock_run, Hanswer.
  destruct Hnull as [-> | ->]; reflexivity.
Qed.

Lemma getBlock_missing_block_witness :
  getBlock (node_transport (fun _ _ => Ok VNull) []) 99 []
  = (Throw TypeError,
     [] ++ [RpcCall "eth_getBlockByNumber" [hex_literal 99; VBool true]]).
Proof.
  apply (getBlock_missing_block (node_transport (fun _ _ => Ok VNull) []) 99 [] VNull).
  - reflexivity.
  - left. reflexivity.
Defined.

(** X7.  [getBlock] and [getBlocks] prepare a block the same way, up
    to primitives: on an object, an array, [null] or [undefined] the
    assignments of [getBlock] and the [Object.assign] of [getBlocks]
    have the same outcome; on a primitive answer [getBlock] raises a
    [TypeError] where [getBlocks] goes on with a wrapper object. *)
Theorem getBlock_agrees_with_getBlocks (block : value) :
  match block with
  | VPrim p =>
      getBlock_then block = Throw TypeError
      /\ exists ps, normalize_block block = Ok (VBox p ps)
  | _ => getBlock_then block = normalize_block block
  end.
Proof.
  destruct block as [| | p | ps | elems ps | p ps];
    try (apply getBlock_then_normalize; discriminate).
  split; [reflexivity |]. eexists. reflexivity.
Qed.

(** X8.  Over one block without logs the batch call gives what the
    single call gives: when the node answers the block request of
    [getBlocks(n, n + 1)] and the call of [getBlock(n)] with the same
    block, not a primitive, and the logs request with no log,
    [getBlocks] fulfils with the one block [getBlock] fulfils with, or
    rejects as it does. *)
Theorem getBlocks_single_is_getBlock
    (tr : transport) (n : Z) (h h' : list event) (res res' block : value) :
  batch_answer tr (getBlocks_batch n (n + 1)) = Ok [res; res'] ->
  get_prop res "result" = Ok block ->
  get_prop res' "result" = Ok (VArr [] []) ->
  rpc_answer tr "eth_getBlockByNumber" [hex_literal n; VBool true] = Ok block ->
  (forall p, block <> VPrim p) ->
  getBlocks_batch n (n + 1)
  = [client_request "eth_getBlockByNumber" [hex_literal n; VBool true];
     logs_request n n]
  /\ fst (getBlocks tr n (n + 1) h)
     = (b <- fst (getBlock tr n h') ;; Ok [b]).
Proof.
  intros Hbatch Hres Hres' Hrpc Hprim. split.
  - rewrite getBlocks_batch_spec.
    replace (n + 1 - n) with 1 by lia. replace (n + 1 - 1) with n by lia.
    reflexivity.
  - rewrite (getBlocks_answered tr n (n + 1) h _ Hbatch).
    rewrite getBlock_run, Hrpc. cbn [fst obind].
    rewrite (getBlock_then_normalize block Hprim).
    unfold getBlocks_merge, block_results, logs_result.
    cbn [length Nat.sub take map_outcome]. rewrite Hres. cbn [obind map_outcome].
    destruct (normalize_block block) as [b | e]; cbn [obind]; [| reflexivity].
    change (array_index [res; res'] (Int (Z.of_nat 2 - 1))) with res'.
    rewrite Hres'. reflexivity.
Qed.

Lemma getBlocks_single_is_getBlock_witness :
  fst (getBlocks (node_transport (fun _ _ => Ok (sample_block 11 "0xbb"))
                    [envelope (sample_block 11 "0xbb"); envelope (VArr [] [])])
         11 (11 + 1) [])
  = (b <- fst (getBlock (node_transport (fun _ _ => Ok (sample_block 11 "0xbb"))
                           [envelope (sample_block 11 "0xbb"); envelope (VArr [] [])])
                 11 []) ;;
     Ok [b]).
Proof.
  apply (getBlocks_single_is_getBlock
           (node_transport (fun _ _ => Ok (sample_block 11 "0xbb"))
              [envelope (sample_block 11 "0xbb"); envelope (VArr [] [])])
           11 [] [] (envelope (sample_block 11 "0xbb")) (envelope (VArr [] []))
           (sample_block 11 "0xbb")).
  - reflexivity.
  - reflexivity.
  - reflexivity.
  - reflexivity.
  - discriminate.
Defined.

(** ** [getLogs] *)

(** X9.  [getLogs] takes an inclusive range where [getBlocks] takes a
    half-open one: the logs request at the end of the batch of
    [getBlocks(fromBlock, toBlock)] carries the method and the
    parameters of the one call of [getLogs(fromBlock, toBlock - 1)],
    and [getLogs] hands back the node's answer as it is. *)
Theorem getLogs_is_the_logs_request
    (tr : transport) (fromBlock toBlock : Z) (h : list event) :
  exists m ps,
    last (getBlocks_batch fromBlock toBlock) = Some {| method := m; params := ps |}
    /\ getLogs tr fromBlock (toBlock - 1) h
       = (rpc_answer tr m ps, h ++ [RpcCall m ps]).
Proof.
  exists "eth_getLogs"%string, [formatLogOptions fromBlock (toBlock - 1)].
  split; [| reflexivity].
  rewrite getBlocks_batch_spec. apply last_snoc.
Qed.

(** ** [getBlocks]: how it fails *)

Lemma set_prop_throws (v x : value) (key : string) (e : error) :
  set_prop v key x = Throw e -> e = TypeError.
Proof. destruct v; simpl; intros H; try discriminate; now injection H. Qed.

Lemma array_push_throws (arr x : value) (e : error) :
  array_push arr x = Throw e -> e = TypeError.
Proof.
  destruct arr as [| | p | ps | elems ps | p ps]; simpl;
    try (intros H; now injection H).
  destruct (has_prop "push" ps); [intros H; now injection H | discriminate].
Qed.

Lemma forEach_elements_throws (arr : value) (e : error) :
  forEach_elements arr = Throw e -> e = TypeError.
Proof.
  destruct arr as [| | p | ps | elems ps | p ps]; simpl;
    try (intros H; now injection H).
  destruct (has_prop "forEach" ps); [intros H; now injection H | discriminate].
Qed.

(** Peels the steps of a chain of binds that ends in an exception,
    closing each step that can only raise a [TypeError]. *)
Ltac throws_type_error :=
  repeat match goal with
         | |- obind ?m _ = Throw _ -> _ =>
             let H := fresh "H" in
             destruct m eqn:H; cbn [obind];
             [| let K := fresh "K" in
                intros K; injection K as <-;
                first [ now apply get_prop_throws in H
                      | now apply parseInt16_throws in H
                      | now apply set_prop_throws in H
                      | now apply array_push_throws in H
                      | now apply forEach_elements_throws in H
                      | now apply to_string_throws in H ] ]
         end.

Lemma normalize_block_throws (block : value) (e : error) :
  normalize_block block = Throw e -> e = TypeError.
Proof.
  unfold normalize_block. throws_type_error. apply object_assign_throws.
Qed.

Lemma append_log_throws (block log : value) (e : error) :
  append_log block log = Throw e -> e = TypeError.
Proof.
  unfold append_log.
  destruct (get_prop block "logs") as [blockLogs | e0] eqn:Hlogs; cbn [obind];
    [| intros H; injection H as <-; now apply get_prop_throws in Hlogs].
  destruct (truthy blockLogs); [throws_type_error |]; apply set_prop_throws.
Qed.

Lemma merge_log_throws (fromBlock : Z) (blocks : list value) (log : value) (e : error) :
  merge_log fromBlock blocks log = Throw e ->
  e = TypeError \/ exists s1 s2, e = Thrown (mismatch_message s1 s2).
Proof.
  unfold merge_log, log_block_number.
  destruct (get_prop log "blockNumber") as [bn | e0] eqn:Hbn; cbn [obind];
    [| intros H; injection H as <-; left; now apply get_prop_throws in Hbn].
  destruct (parseInt16 bn) as [n | e0] eqn:Hn; cbn [obind];
    [| intros H; injection H as <-; left; now apply parseInt16_throws in Hn].
  destruct (get_prop log "blockHash") as [lh | e0] eqn:Hlh; cbn [obind];
    [| intros H; injection H as <-; left; now apply get_prop_throws in Hlh].
  destruct (get_prop (array_index blocks (number_sub n fromBlock)) "hash")
    as [bh | e0] eqn:Hbh; cbn [obind];
    [| intros H; injection H as <-; left; now apply get_prop_throws in Hbh].
  destruct (negb (strict_eq lh bh)).
  - destruct (to_string lh) as [s1 | e0] eqn:H1; cbn [obind];
      [| intros H; injection H as <-; left; now apply to_string_throws in H1].
    destruct (to_string bh) as [s2 | e0] eqn:H2; cbn [obind];
      [| intros H; injection H as <-; left; now apply to_string_throws in H2].
    intros H. injection H as <-. right. eauto.
  - destruct (append_log (array_index blocks (number_sub n fromBlock)) log)
      as [b | e0] eqn:Happ; cbn [obind]; [discriminate |].
    intros H. injection H as <-. left. now apply append_log_throws in Happ.
Qed.

Lemma fold_outcome_throws {A S : Type} (f : S -> A -> outcome S) (xs : list A) (e : error) :
  forall s, fold_outcome f s xs = Throw e ->
            exists s' x, In x xs /\ f s' x = Throw e.
Proof.
  induction xs as [| x rest IH]; intros s; simpl; [discriminate |].
  destruct (f s x) as [s1 | e0] eqn:Hx; cbn [obind].
  - intros H. destruct (IH s1 H) as (s' & y & Hin & Hy). eauto 6.
  - intros H. injection H as <-. eauto 6.
Qed.

Lemma block_results_throws (responses : list value) (e : error) :
  block_results responses = Throw e -> e = TypeError.
Proof.
  unfold block_results. intros H.
  apply map_outcome_throws in H as (res & _ & H). now apply get_prop_throws in H.
Qed.

Lemma logs_result_throws (responses : list value) (e : error) :
  logs_result responses = Throw e -> e = TypeError.
Proof.
  unfold logs_result. throws_type_error. apply forEach_elements_throws.
Qed.

Lemma getBlocks_merge_throws (fromBlock : Z) (responses : list value) (e : error) :
  getBlocks_merge fromBlock responses = Throw e ->
  e = TypeError \/ exists s1 s2, e = Thrown (mismatch_message s1 s2).
Proof.
  unfold getBlocks_merge.
  destruct (block_results responses) as [results | e0] eqn:Hresults; cbn [obind];
    [| intros H; injection H as <-; left; now apply block_results_throws in Hresults].
  destruct (map_outcome normalize_block results) as [blocks | e0] eqn:Hnorm; cbn [obind].
  - destruct (logs_result responses) as [logs | e0] eqn:Hlogs; cbn [obind];
      [| intros H; injection H as <-; left; now apply logs_result_throws in Hlogs].
    intros H. apply fold_outcome_throws in H as (s & log & _ & H).
    now apply merge_log_throws in H.
  - intros H. injection H as <-. left.
    apply map_outcome_throws in Hnorm as (b & _ & Hb).
    now apply normalize_block_throws in Hb.
Qed.

(** X10.  Every rejection of [getBlocks] is one of three: the
    rejection of the transport, handed on as it is; a [TypeError];
    or the string that reports two differing hashes. *)
Theorem getBlocks_rejections
    (tr : transport) (fromBlock toBlock : Z) (h : list event) (e : error) :
  fst (getBlocks tr fromBlock toBlock h) = Throw e ->
  batch_answer tr (getBlocks_batch fromBlock toBlock) = Throw e
  \/ e = TypeError
  \/ exists s1 s2, e = Thrown (mismatch_message s1 s2).
Proof.
  rewrite getBlocks_outcome.
  destruct (batch_answer tr (getBlocks_batch fromBlock toBlock)) as [responses | e0];
    cbn [obind].
  - intros H. right. now apply getBlocks_merge_throws in H.
  - intros H. left. exact H.
Qed.

Lemma getBlocks_rejections_witness :
  batch_answer (fixed_transport mismatching_responses) (getBlocks_batch 10 12)
  = Throw (Thrown (mismatch_message "0xee" "0xaa"))
  \/ Thrown (mismatch_message "0xee" "0xaa") = TypeError
  \/ exists s1 s2,
       Thrown (mismatch_message "0xee" "0xaa") = Thrown (mismatch_message s1 s2).
Proof.
  apply (getBlocks_rejections (fixed_transport mismatching_responses) 10 12 []).
  reflexivity.
Defined.

(** X11.  A block the node does not have makes the whole call fail:
    when one of the block results is [null] or missing, [getBlocks]
    rejects with a [TypeError], whatever the other blocks and the
    logs. *)
Theorem getBlocks_missing_block
    (tr : transport) (fromBlock toBlock : Z) (h : list event)
    (responses results : list value) (missing : value) :
  batch_answer tr (getBlocks_batch fromBlock toBlock) = Ok responses ->
  block_results responses = Ok results ->
  In missing results ->
  missing = VNull \/ missing = VUndef ->
  fst (getBlocks tr fromBlock toBlock h) = Throw TypeError.
Proof.
  intros Hanswer Hresults Hin Hmissing.
  rewrite (getBlocks_answered tr fromBlock toBlock h responses Hanswer).
  unfold getBlocks_merge. rewrite Hresults. cbn [obind].
  destruct (map_outcome normalize_block results) as [blocks | e] eqn:Hnorm; cbn [obind].
  - apply map_outcome_Forall2 in Hnorm.
    apply list_elem_of_In, list_elem_of_lookup in Hin as [k Hk].
    destruct (Forall2_lookup_l _ _ _ _ _ Hnorm Hk) as (b & _ & Hb).
    destruct Hmissing as [-> | ->]; discriminate.
  - apply map_outcome_throws in Hnorm as (b & _ & Hb).
    apply normalize_block_throws in Hb. now subst.
Qed.

Lemma getBlocks_missing_block_witness :
  fst (getBlocks (fixed_transport
                    [envelope (sample_block 10 "0xaa"); envelope VNull;
                     envelope (VArr [] [])]) 10 12 [])
  = Throw TypeError.
Proof.
  apply (getBlocks_missing_block
           (fixed_transport
              [envelope (sample_block 10 "0xaa"); envelope VNull; envelope (VArr [] [])])
           10 12 []
           [envelope (sample_block 10 "0xaa"); envelope VNull; envelope (VArr [] [])]
           [sample_block 10 "0xaa"; VNull] VNull).
  - reflexivity.
  - reflexivity.
  - simpl. right. left. reflexivity.
  - left. reflexivity.
Defined.

Lemma array_index_last (arr : list value) (x : value) :
  last arr = Some x ->
  array_index arr (Int (Z.of_nat (length arr) - 1)) = x.
Proof.
  intros Hlast. rewrite last_lookup in Hlast.
  assert (Hlen : (0 < length arr)%nat).
  { destruct arr; [discriminate | simpl; lia]. }
  replace (Z.of_nat (length arr) - 1) with (Z.of_nat (pred (length arr))) by lia.
  now apply array_index_lookup.
Qed.

(** X12.  When the logs request was not answered with an array (the
    response is empty, or its last element carries an error and no
    result, or a result that is no array), [getBlocks] rejects with a
    [TypeError]: the blocks it has read are not returned and the
    node's error is not handed on. *)
Theorem getBlocks_logs_not_answered
    (tr : transport) (fromBlock toBlock : Z) (h : list event) (responses : list value) :
  batch_answer tr (getBlocks_batch fromBlock toBlock) = Ok responses ->
  responses = []
  \/ (exists res v, last responses = Some res
                    /\ get_prop res "result" = Ok v
                    /\ forall elems ps, v <> VArr elems ps) ->
  fst (getBlocks tr fromBlock toBlock h) = Throw TypeError.
Proof.
  intros Hanswer Hlogs.
  rewrite (getBlocks_answered tr fromBlock toBlock h responses Hanswer).
  assert (Hthrow : exists e, logs_result responses = Throw e).
  { unfold logs_result. destruct Hlogs as [-> | (res & v & Hlast & Hget & Hv)].
    - eexists. reflexivity.
    - rewrite (array_index_last _ _ Hlast), Hget. cbn [obind].
      destruct v as [| | p | ps | elems ps | p ps]; try (eexists; reflexivity).
      now destruct (Hv elems ps). }
  destruct Hthrow as [e He].
  destruct (getBlocks_merge fromBlock responses) as [blocks | e'] eqn:Hmerge.
  - apply getBlocks_merge_inv in Hmerge.
    destruct Hmerge as (_ & _ & logs & _ & _ & Hok & _). congruence.
  - f_equal. unfold getBlocks_merge in Hmerge.
    destruct (block_results responses) as [results | e0] eqn:Hresults;
      cbn [obind] in Hmerge;
      [| injection Hmerge as <-; now apply block_results_throws in Hresults].
    destruct (map_outcome normalize_block results) as [blocks | e0] eqn:Hnorm;
      cbn [obind] in Hmerge.
    + rewrite He in Hmerge. cbn [obind] in Hmerge. injection Hmerge as <-.
      now apply logs_result_throws in He.
    + injection Hmerge as <-.
      apply map_outcome_throws in Hnorm as (b & _ & Hb).
      now apply normalize_block_throws in Hb.
Qed.

Lemma getBlocks_logs_not_answered_witness :
  fst (getBlocks (fixed_transport
                    [envelope (sample_block 10 "0xaa");
                     VObj [("error"%string, VStr "query returned more than 10000 results")]])
         10 11 [])
  = Throw TypeError.
Proof.
  apply (getBlocks_logs_not_answered
           (fixed_transport
              [envelope (sample_block 10 "0xaa");
               VObj [("error"%string, VStr "query returned more than 10000 results")]])
           10 11 []
           [envelope (sample_block 10 "0xaa");
            VObj [("error"%string, VStr "query returned more than 10000 results")]]).
  - reflexivity.
  - right. exists (VObj [("error"%string, VStr "query returned more than 10000 results")]), VUndef.
    repeat split; discriminate.
Defined.

(** ** [getBlocks]: ranges and counts *)

Lemma merge_log_no_blocks (fromBlock : Z) (log : value) :
  merge_log fromBlock [] log = Throw TypeError.
Proof.
  unfold merge_log.
  destruct (log_block_number log) as [n | e] eqn:Hn; cbn [obind].
  - assert (Hidx : array_index [] (number_sub n fromBlock) = VUndef).
    { destruct n as [| z]; simpl; [reflexivity |]. now destruct (z - fromBlock <? 0). }
    rewrite Hidx.
    destruct (get_prop log "blockHash") as [lh | e] eqn:Hlh; cbn [obind]; [reflexivity |].
    apply get_prop_throws in Hlh. now subst.
  - f_equal. unfold log_block_number in Hn. revert Hn. throws_type_error.
    apply parseInt16_throws.
Qed.

(** X13.  [getBlocks] does not check its range.  With
    [toBlock <= fromBlock] it asks for no block and sends the one logs
    request, from [fromBlock] to [toBlock - 1]; answered with no log
    it fulfils with the empty list, and answered with any log it
    rejects with a [TypeError], there being no block to attach it
    to. *)
Theorem getBlocks_empty_or_reversed_range
    (tr : transport) (fromBlock toBlock : Z) (h : list event)
    (res : value) (logs : list value) :
  toBlock <= fromBlock ->
  batch_answer tr (getBlocks_batch fromBlock toBlock) = Ok [res] ->
  get_prop res "result" = Ok (VArr logs []) ->
  getBlocks_batch fromBlock toBlock = [logs_request fromBlock (toBlock - 1)]
  /\ fst (getBlocks tr fromBlock toBlock h)
     = match logs with
       | [] => Ok []
       | _ :: _ => Throw TypeError
       end.
Proof.
  intros Hle Hanswer Hres. split.
  - rewrite getBlocks_batch_spec. unfold seqZ.
    replace (Z.to_nat (toBlock - fromBlock)) with O by lia. reflexivity.
  - rewrite (getBlocks_answered tr fromBlock toBlock h _ Hanswer).
    unfold getBlocks_merge, block_results, logs_result.
    cbn [length Nat.sub take map_outcome obind].
    change (array_index [res] (Int (Z.of_nat 1 - 1))) with res.
    rewrite Hres. cbn [obind forEach_elements has_prop].
    destruct logs as [| log rest]; [reflexivity |].
    cbn [fold_outcome]. now rewrite merge_log_no_blocks.
Qed.

Lemma getBlocks_empty_or_reversed_range_witness :
  getBlocks_batch 12 10 = [logs_request 12 (10 - 1)]
  /\ fst (getBlocks (fixed_transport [envelope (VArr [] [])]) 12 10 [])
     = Ok [].
Proof.
  apply (getBlocks_empty_or_reversed_range
           (fixed_transport [envelope (VArr [] [])]) 12 10 []
           (envelope (VArr [] [])) []).
  - lia.
  - reflexivity.
  - reflexivity.
Defined.

(** X14.  [getBlocks] returns as many blocks as the response has
    elements before its last, whatever range it asked for: a transport
    that answers with fewer or more elements is not noticed by the
    count. *)
Theorem getBlocks_count_follows_response
    (tr : transport) (fromBlock toBlock : Z) (h : list event)
    (responses blocks : list value) :
  batch_answer tr (getBlocks_batch fromBlock toBlock) = Ok responses ->
  fst (getBlocks tr fromBlock toBlock h) = Ok blocks ->
  length blocks = (length responses - 1)%nat.
Proof.
  intros Hanswer Hok.
  rewrite (getBlocks_answered tr fromBlock toBlock h responses Hanswer) in Hok.
  apply getBlocks_merge_inv in Hok.
  destruct Hok as (results & normalized & logs & Hresults & Hnorm & _ & Hfold).
  apply merge_logs_same_but, Forall2_length in Hfold.
  apply map_outcome_Forall2, Forall2_length in Hnorm.
  rewrite <- Hfold, <- Hnorm. now apply block_results_length.
Qed.

Lemma getBlocks_count_follows_response_witness :
  exists blocks,
    fst (getBlocks (fixed_transport [envelope (sample_block 10 "0xaa");
                                     envelope (VArr [] [])]) 10 15 [])
    = Ok blocks
    /\ length blocks = 1%nat.
Proof.
  assert (Hrun : exists blocks,
             fst (getBlocks (fixed_transport [envelope (sample_block 10 "0xaa");
                                              envelope (VArr [] [])]) 10 15 [])
             = Ok blocks)
    by (vm_compute; eexists; reflexivity).
  destruct Hrun as [blocks Hok].
  exists blocks. split; [exact Hok |].
  apply (getBlocks_count_follows_response
           (fixed_transport [envelope (sample_block 10 "0xaa"); envelope (VArr [] [])])
           10 15 []
           [envelope (sample_block 10 "0xaa"); envelope (VArr [] [])] blocks).
  - reflexivity.
  - exact Hok.
Defined.

Lemma merge_logs_untouched (fromBlock : Z) (k : nat) (logs : list value) :
  forall blocks blocks',
    fold_outcome (merge_log fromBlock) blocks logs = Ok blocks' ->
    List.filter (at_index fromBlock k) logs = [] ->
    blocks' !! k = blocks !! k.
Proof.
  induction logs as [| log rest IH]; intros blocks blocks' H Hnone; simpl in H.
  - now injection H as <-.
  - ok_inv H. rename a into blocks1.
    simpl in Hnone. destruct (at_index fromBlock k log) eqn:Hat; [discriminate |].
    rewrite (IH _ _ H Hnone).
    apply merge_log_inv in Hstep.
    destruct Hstep as (m & block & block' & Hm & Hpos & _ & _ & _ & ->).
    apply list_lookup_insert_ne.
    unfold at_index in Hat. rewrite Hm in Hat. apply Z.eqb_neq in Hat. lia.
Qed.

(** X15.  A block no log belongs to is returned without a [logs]
    sequence of its own making: when no log of the response has index
    [k], the [logs] property of the block at [k] is the one it arrived
    with, [undefined] for a block that arrived with none (not an empty
    list). *)
Theorem getBlocks_block_without_logs
    (tr : transport) (fromBlock toBlock : Z) (h : list event)
    (responses results logs blocks : list value) (k : nat) (r block : value) :
  batch_answer tr (getBlocks_batch fromBlock toBlock) = Ok responses ->
  block_results responses = Ok results ->
  logs_result responses = Ok logs ->
  fst (getBlocks tr fromBlock toBlock h) = Ok blocks ->
  List.filter (at_index fromBlock k) logs = [] ->
  results !! k = Some r ->
  blocks !! k = Some block ->
  get_prop block "logs" = get_prop r "logs".
Proof.
  intros Hanswer Hresults Hlogs Hok Hnone Hr Hblock.
  rewrite (getBlocks_answered tr fromBlock toBlock h responses Hanswer) in Hok.
  apply getBlocks_merge_inv in Hok.
  destruct Hok as (results' & normalized & logs' & Hresults' & Hnorm & Hlogs' & Hfold).
  rewrite Hresults in Hresults'. injection Hresults' as <-.
  rewrite Hlogs in Hlogs'. injection Hlogs' as <-.
  rewrite (merge_logs_untouched _ _ _ _ _ Hfold Hnone) in Hblock.
  apply map_outcome_Forall2 in Hnorm.
  pose proof (Forall2_lookup_lr _ _ _ _ _ _ Hnorm Hr Hblock) as Hnormalize.
  apply normalize_block_same_but in Hnormalize as [Hother _].
  apply Hother. simpl. intros [Hbad | [Hbad | []]]; discriminate.
Qed.

Lemma getBlocks_block_without_logs_witness :
  exists blocks block,
    fst (getBlocks (fixed_transport
                      [envelope (sample_block 10 "0xaa");
                       envelope (sample_block 11 "0xbb");
                       envelope (VArr [sample_log 11 "0xbb" "first"] [])]) 10 12 [])
    = Ok blocks
    /\ blocks !! 0%nat = Some block
    /\ get_prop block "logs" = Ok VUndef.
Proof.
  assert (Hrun : exists blocks block,
             fst (getBlocks (fixed_transport
                               [envelope (sample_block 10 "0xaa");
                                envelope (sample_block 11 "0xbb");
                                envelope (VArr [sample_log 11 "0xbb" "first"] [])])
                    10 12 [])
             = Ok blocks
             /\ blocks !! 0%nat = Some block)
    by (vm_compute; do 2 eexists; split; reflexivity).
  destruct Hrun as (blocks & block & Hok & Hblock).
  exists blocks, block. split; [exact Hok |]. split; [exact Hblock |].
  apply (getBlocks_block_without_logs
           (fixed_transport
              [envelope (sample_block 10 "0xaa");
               envelope (sample_block 11 "0xbb");
               envelope (VArr [sample_log 11 "0xbb" "first"] [])]) 10 12 []
           [envelope (sample_block 10 "0xaa");
            envelope (sample_block 11 "0xbb");
            envelope (VArr [sample_log 11 "0xbb" "first"] [])]
           [sample_block 10 "0xaa"; sample_block 11 "0xbb"]
           [sample_log 11 "0xbb" "first"] blocks 0%nat
           (sample_block 10 "0xaa") block);
    try reflexivity; assumption.
Defined.

(** ** [getBlocks]: what the mismatch reports *)

Lemma fold_outcome_app {A S : Type} (f : S -> A -> outcome S) (xs ys : list A) :
  forall s, fold_outcome f s (xs ++ ys)
            = (s' <- fold_outcome f s xs ;; fold_outcome f s' ys).
Proof.
  induction xs as [| x rest IH]; intros s; simpl; [reflexivity |].
  destruct (f s x) as [s1 | e]; cbn [obind]; [apply IH | reflexivity].
Qed.

(** Logs that all match are all merged, and leave blocks that can be
    merged into. *)
Lemma merge_logs_good (fromBlock : Z) (logs : list value) :
  forall blocks,
    Forall mergeable_block blocks ->
    Forall (fun log => log_matches fromBlock blocks log = Ok true) logs ->
    exists blocks',
      fold_outcome (merge_log fromBlock) blocks logs = Ok blocks'
      /\ Forall mergeable_block blocks'
      /\ blocks_same_but ["logs"%string] blocks blocks'.
Proof.
  induction logs as [| log rest IH]; intros blocks Hall Hmatch.
  - exists blocks. split; [reflexivity |]. split; [assumption |].
    apply blocks_same_but_refl.
  - inversion Hmatch as [| x l Hlog Hrest]; subst.
    destruct (merge_log_total fromBlock blocks log Hlog Hall) as (blocks1 & Hstep & Hall1).
    pose proof (merge_log_same_but _ _ _ _ Hstep) as Hsame.
    destruct (IH blocks1 Hall1) as (blocks' & Hfold & Hall' & Hsame').
    + eapply Forall_impl; [exact Hrest |]. intros log' Hlog'. simpl in Hlog'.
      rewrite <- Hlog'.
      apply (log_matches_same_but ["logs"%string]); [exact Hsame | exact hash_not_logs].
    + exists blocks'. simpl. rewrite Hstep. cbn [obind].
      split; [exact Hfold |]. split; [exact Hall' |].
      now apply (blocks_same_but_trans _ blocks blocks1 blocks').
Qed.

(** X16.  The first log whose hash differs from its block's decides
    the rejection: after logs that all match, a log with hash [lh] for
    a block with hash [bh], two different strings, makes [getBlocks]
    reject with the string that names [lh] and [bh], whatever logs
    follow. *)
Theorem getBlocks_mismatch_report
    (tr : transport) (fromBlock toBlock : Z) (h : list event)
    (responses results good rest : list value) (log r : value)
    (m : Z) (lh bh : string) :
  batch_answer tr (getBlocks_batch fromBlock toBlock) = Ok responses ->
  block_results responses = Ok results ->
  Forall (fun b => well_formed_block b = true) results ->
  logs_result responses = Ok (good ++ log :: rest) ->
  Forall (fun l => log_matches fromBlock results l = Ok true) good ->
  log_block_number log = Ok (Int m) ->
  0 <= m - fromBlock ->
  results !! Z.to_nat (m - fromBlock) = Some r ->
  get_prop log "blockHash" = Ok (VStr lh) ->
  get_prop r "hash" = Ok (VStr bh) ->
  lh <> bh ->
  fst (getBlocks tr fromBlock toBlock h) = Throw (Thrown (mismatch_message lh bh)).
Proof.
  intros Hanswer Hresults Hwf Hlogs Hgood Hm Hpos Hr Hlh Hbh Hne.
  rewrite (getBlocks_answered tr fromBlock toBlock h responses Hanswer).
  destruct (map_outcome_total normalize_block results) as [normalized Hnorm].
  { eapply Forall_impl; [exact Hwf |]. intros b Hb.
    destruct (normalize_block_well_formed b Hb) as [ps' Hps']. eauto. }
  unfold getBlocks_merge. rewrite Hresults. cbn [obind].
  rewrite Hnorm. cbn [obind]. rewrite Hlogs. cbn [obind].
  pose proof (normalize_blocks_same_but _ _ Hnorm) as Hsame.
  destruct (merge_logs_good fromBlock good normalized) as (blocks1 & Hfold & _ & Hsame1).
  { apply (normalize_blocks_mergeable results); [| exact Hwf].
    now apply map_outcome_Forall2. }
  { eapply Forall_impl; [exact Hgood |]. intros l Hl. simpl in Hl. rewrite <- Hl.
    apply (log_matches_same_but ["number"; "timestamp"]%string);
      [exact Hsame | exact hash_not_normalized]. }
  rewrite fold_outcome_app, Hfold. cbn [obind fold_outcome].
  assert (Hhash : get_prop (array_index blocks1 (Int (m - fromBlock))) "hash"
                  = Ok (VStr bh)).
  { rewrite (blocks_same_but_index _ _ _ "hash"%string _ Hsame1 hash_not_logs).
    rewrite (blocks_same_but_index _ _ _ "hash"%string _ Hsame hash_not_normalized).
    replace (m - fromBlock) with (Z.of_nat (Z.to_nat (m - fromBlock))) by lia.
    now rewrite (array_index_lookup _ _ _ Hr). }
  unfold merge_log. rewrite Hm. cbn [obind number_sub].
  rewrite Hlh. cbn [obind]. rewrite Hhash. cbn [obind].
  apply String.eqb_neq in Hne. simpl strict_eq. rewrite Hne. reflexivity.
Qed.

Lemma getBlocks_mismatch_report_witness :
  fst (getBlocks (fixed_transport mismatching_responses) 10 12 [])
  = Throw (Thrown (mismatch_message "0xee" "0xaa")).
Proof.
  apply (getBlocks_mismatch_report
           (fixed_transport mismatching_responses) 10 12 [] mismatching_responses
           [sample_block 10 "0xaa"; sample_block 11 "0xbb"]
           [sample_log 11 "0xbb" "first"] [sample_log 11 "0xbb" "third"]
           (sample_log 10 "0xee" "second") (sample_block 10 "0xaa") 10).
  - reflexivity.
  - reflexivity.
  - forall_by_computation.
  - reflexivity.
  - forall_by_computation.
  - reflexivity.
  - lia.
  - reflexivity.
  - reflexivity.
  - reflexivity.
  - discriminate.
Defined.

(** ** [getBlocksFromArray]: edges *)

(** X17.  A block the node does not have makes [getBlocksFromArray]
    fail as a whole: when the result of one of the block responses is
    [null] or missing, it rejects with a [TypeError] and returns none
    of the other blocks. *)
Theorem getBlocksFromArray_missing_block
    (tr : transport) (blockNumbers : list Z) (h : list event)
    (responses : list value) (k : nat) (res missing : value) :
  batch_answer tr (getBlocksFromArray_batch blockNumbers) = Ok responses ->
  length responses = (2 * length blockNumbers)%nat ->
  (k < length blockNumbers)%nat ->
  responses !! (2 * k)%nat = Some res ->
  get_prop res "result" = Ok missing ->
  missing = VNull \/ missing = VUndef ->
  fst (getBlocksFromArray tr blockNumbers h) = Throw TypeError.
Proof.
  intros Hanswer Hlen Hk Hres Hget Hmissing.
  rewrite (getBlocksFromArray_answered tr blockNumbers h responses Hanswer).
  destruct (getBlocksFromArray_merge responses) as [blocks | e] eqn:Hmerge.
  - destruct (getBlocksFromArray_merge_blocks _ _ _ Hlen Hmerge) as [Hcount Hbuilt].
    destruct (lookup_lt_is_Some_2 blocks k) as [block Hblock]; [lia |].
    destruct (Hbuilt k block Hblock)
      as (res0 & raw & _ & _ & vn & _ & _ & _ & Hres0 & Hraw & _ & _ & Hvn & _).
    rewrite Hres in Hres0. injection Hres0 as <-.
    rewrite Hget in Hraw. injection Hraw as <-.
    destruct Hmissing as [-> | ->]; discriminate.
  - f_equal. rewrite (getBlocksFromArray_merge_spec responses _ Hlen) in Hmerge.
    apply map_outcome_throws in Hmerge as (j & _ & Hj).
    now apply getBlocksFromArray_step_throws in Hj.
Qed.

Lemma getBlocksFromArray_missing_block_witness :
  fst (getBlocksFromArray
         (fixed_transport [envelope (sample_block 10 "0xaa"); envelope (VArr [] []);
                           envelope VNull; envelope (VArr [] [])])
         [10; 99] [])
  = Throw TypeError.
Proof.
  apply (getBlocksFromArray_missing_block
           (fixed_transport [envelope (sample_block 10 "0xaa"); envelope (VArr [] []);
                             envelope VNull; envelope (VArr [] [])])
           [10; 99] []
           [envelope (sample_block 10 "0xaa"); envelope (VArr [] []);
            envelope VNull; envelope (VArr [] [])]
           1%nat (envelope VNull) VNull).
  - reflexivity.
  - reflexivity.
  - simpl. lia.
  - reflexivity.
  - reflexivity.
  - left. reflexivity.
Defined.

Lemma map_outcome_ext_in {A B : Type} (f g : A -> outcome B) (xs : list A) :
  (forall x, In x xs -> f x = g x) -> map_outcome f xs = map_outcome g xs.
Proof.
  induction xs as [| x rest IH]; intros Hext; simpl; [reflexivity |].
  rewrite (Hext x (or_introl eq_refl)), IH; [reflexivity |].
  intros y Hy. apply Hext. now right.
Qed.

Lemma array_index_app_l (arr more : list value) (z : Z) :
  0 <= z < Z.of_nat (length arr) ->
  array_index (arr ++ more) (Int z) = array_index arr (Int z).
Proof.
  intros Hz. simpl. destruct (z <? 0); [reflexivity |].
  rewrite lookup_app_l by lia. reflexivity.
Qed.

(** X18.  [getBlocksFromArray] reads whole pairs only: a response
    left over after the last pair is ignored, so that a response with
    one element, like an empty one, gives the empty list. *)
Theorem getBlocksFromArray_ignores_unpaired
    (responses : list value) (extra : value) (n : nat) :
  length responses = (2 * n)%nat ->
  getBlocksFromArray_merge (responses ++ [extra]) = getBlocksFromArray_merge responses
  /\ getBlocksFromArray_merge [extra] = Ok []
  /\ getBlocksFromArray_merge [] = Ok [].
Proof.
  intros Hlen. split; [| split; reflexivity].
  unfold getBlocksFromArray_merge.
  rewrite (getBlocksFromArray_loop_spec (responses ++ [extra]) n)
    by (rewrite ?length_app; simpl; lia).
  rewrite (getBlocksFromArray_loop_spec responses n) by lia.
  rewrite (map_outcome_ext_in (getBlocksFromArray_step (responses ++ [extra]))
             (getBlocksFromArray_step responses)); [reflexivity |].
  intros i Hi. rewrite pair_starts_spec in Hi.
  apply in_map_iff in Hi as (j & <- & Hj). apply in_seq in Hj.
  unfold getBlocksFromArray_step.
  rewrite !array_index_app_l by lia. reflexivity.
Qed.

Lemma getBlocksFromArray_ignores_unpaired_witness :
  getBlocksFromArray_merge (sample_pairs ++ [envelope VNull])
  = getBlocksFromArray_merge sample_pairs
  /\ getBlocksFromArray_merge [envelope VNull] = Ok []
  /\ getBlocksFromArray_merge [] = Ok [].
Proof.
  apply (getBlocksFromArray_ignores_unpaired sample_pairs (envelope VNull) 2).
  reflexivity.
Defined.

(** ** [call], when it goes through *)

(** X19.  When the block number [call] works with is ['latest'] (also
    by default) or accepted by [utils.isHex], [call] encodes the
    call, sends one [eth_call] request with the receiver, the encoded
    data and that block number, and hands back the node's answer; if
    the encoding fails it rejects with that failure and sends
    nothing. *)
Theorem call_sends_one_request
    (isHex : value -> outcome bool) (encodeTxData : value -> value -> outcome value)
    (tr : transport) (methodSignature to args blockNumber : value) (h : list event) :
  default_arg blockNumber (VStr "latest") = VStr "latest"
  \/ isHex (default_arg blockNumber (VStr "latest")) = Ok true ->
  call isHex encodeTxData tr methodSignature to args blockNumber h
  = match encodeTxData methodSignature (default_arg args (VArr [] [])) with
    | Ok data =>
        (rpc_answer tr "eth_call"
           [VObj [("to"%string, to); ("data"%string, data)];
            default_arg blockNumber (VStr "latest")],
         h ++ [RpcCall "eth_call"
                 [VObj [("to"%string, to); ("data"%string, data)];
                  default_arg blockNumber (VStr "latest")]])
    | Throw e => (Throw e, h)
    end.
Proof.
  intros Hok. unfold call.
  assert (Hgate : refused isHex (default_arg blockNumber (VStr "latest")) = Ok false).
  { unfold refused. destruct Hok as [-> | ->]; [reflexivity |].
    now destruct (strict_eq (default_arg blockNumber (VStr "latest")) (VStr "latest")). }
  unfold io_bind, io_lift, rpc. rewrite Hgate.
  destruct (encodeTxData methodSignature (default_arg args (VArr [] []))); reflexivity.
Qed.

Lemma call_sends_one_request_witness :
  call sample_isHex sample_encodeTxData (fixed_transport [])
    (VStr "balanceOf(address)") (VStr "0x00") VUndef VUndef []
  = (Ok VNull,
     [] ++ [RpcCall "eth_call"
              [VObj [("to"%string, VStr "0x00"); ("data"%string, VStr "0x")];
               VStr "latest"]]).
Proof.
  apply (call_sends_one_request sample_isHex sample_encodeTxData (fixed_transport [])
           (VStr "balanceOf(address)") (VStr "0x00") VUndef VUndef []).
  left. reflexivity.
Defined.

(** X20.  What [call] rejects with for a primitive block number it
    refuses.  When [utils.isHex] answers false, a string, not an error
    object: ["Expected hex, got: "], the block number as text, and its
    [typeof].  When [utils.isHex] raises on the block number, the
    helper's exception as it is.  Nothing is sent either way. *)
Theorem call_rejection_message
    (isHex : value -> outcome bool) (encodeTxData : value -> value -> outcome value)
    (tr : transport) (methodSignature to args : value) (p : prim) (h : list event) :
  VPrim p <> VStr "latest" ->
  isHex (VPrim p) <> Ok true ->
  call isHex encodeTxData tr methodSignature to args (VPrim p) h
  = (Throw match isHex (VPrim p) with
           | Ok _ => Thrown ("Expected hex, got: " ++ prim_to_string p
                               ++ " (type " ++ type_of (VPrim p) ++ ")")
           | Throw e => e
           end, h).
Proof.
  intros Hlatest Hhex. unfold call, refused. cbn [default_arg].
  destruct (strict_eq (VPrim p) (VStr "latest")) eqn:Heq.
  - apply strict_eq_string in Heq. contradiction.
  - cbn [negb]. unfold io_bind, io_lift.
    destruct (isHex (VPrim p)) as [[|] | e]; [contradiction | reflexivity | reflexivity].
Qed.

Lemma call_rejection_message_witness :
  call sample_isHex sample_encodeTxData (fixed_transport [])
    (VStr "balanceOf(address)") (VStr "0x00") VUndef (VStr "zz") []
  = (Throw (Thrown "Expected hex, got: zz (type string)"), [])
  /\ call sample_isHex sample_encodeTxData (fixed_transport [])
       (VStr "balanceOf(address)") (VStr "0x00") VUndef (VInt 12) []
     = (Throw TypeError, []).
Proof.
  split.
  - apply (call_rejection_message sample_isHex sample_encodeTxData (fixed_transport [])
             (VStr "balanceOf(address)") (VStr "0x00") VUndef (PStr "zz") []).
    + discriminate.
    + discriminate.
  - apply (call_rejection_message sample_isHex sample_encodeTxData (fixed_transport [])
             (VStr "balanceOf(address)") (VStr "0x00") VUndef (PNum (Int 12)) []).
    + discriminate.
    + discriminate.
Defined.

(** A string of hexadecimal digits goes through without [0x]: the
    request carries it as given. *)
Example call_unprefixed_block_number :
  call sample_isHex sample_encodeTxData (fixed_transport [])
    (VStr "balanceOf(address)") (VStr "0x00") VUndef (VStr "12") []
  = (Ok VNull,
     [RpcCall "eth_call"
        [VObj [("to"%string, VStr "0x00"); ("data"%string, VStr "0x")]; VStr "12"]]).
Proof. reflexivity. Qed.

(** ** [transaction] *)

Section TransactionProperties.

Variable encodeTxData : value -> value -> outcome value.
Variable privateToAddress : value -> outcome value.
Variable isBuffer : value -> bool.
Variable bufferFromHex : value -> outcome value.
Variable signAndSerialize : value -> value -> outcome value.

Abbreviation transaction' :=
  (transaction encodeTxData privateToAddress isBuffer bufferFromHex signAndSerialize).

(** X22.  With data, a key that is a buffer, a nonce and a gas price
    all given, [transaction] asks the node nothing: it signs the
    fields as given, [gas] and [value] by default [DEFAULT_GAS_LIMIT]
    and ['0x'], and sends one [eth_sendRawTransaction] with the signed
    bytes; when signing fails it sends nothing. *)
Theorem transaction_all_given
    (tr : transport)
    (methodSignature to args privateKey nonce value_ gas gasPrice_ data : value)
    (h : list event) :
  truthy data = true ->
  isBuffer privateKey = true ->
  truthy nonce = true ->
  truthy gasPrice_ = true ->
  transaction' tr methodSignature to args privateKey nonce value_ gas gasPrice_ data h
  = match signAndSerialize
            (VObj [("to"%string, to);
                   ("data"%string, data);
                   ("nonce"%string, nonce);
                   ("gas"%string, if truthy gas then gas else VStr "0x6691b7");
                   ("gasPrice"%string, gasPrice_);
                   ("value"%string, if truthy value_ then value_ else VStr "0x")])
            privateKey with
    | Ok raw =>
        (rpc_answer tr "eth_sendRawTransaction" [raw],
         h ++ [RpcCall "eth_sendRawTransaction" [raw]])
    | Throw e => (Throw e, h)
    end.
Proof.
  intros Hdata Hkey Hnonce Hprice.
  unfold transaction, io_bind, io_ret, io_lift, rpc.
  rewrite Hdata, Hkey, Hnonce, Hprice.
  unfold tx_fields, js_or, DEFAULT_GAS_LIMIT.
  destruct (signAndSerialize _ privateKey); reflexivity.
Qed.

(** X23.  Without a nonce and a gas price, [transaction] asks the
    node for both before it signs, in this order: the transaction
    count of the key's address at ['latest'], then the gas price; it
    signs with the two answers and sends the result last.  When the
    count is refused, the gas price is not asked for and nothing is
    sent. *)
Theorem transaction_looks_up
    (tr : transport)
    (methodSignature to args privateKey nonce value_ gas gasPrice_ data : value)
    (h : list event) (address : value) :
  truthy data = true ->
  isBuffer privateKey = true ->
  truthy nonce = false ->
  truthy gasPrice_ = false ->
  privateToAddress privateKey = Ok address ->
  transaction' tr methodSignature to args privateKey nonce value_ gas gasPrice_ data h
  = match rpc_answer tr "eth_getTransactionCount" [address; VStr "latest"] with
    | Throw e =>
        (Throw e, h ++ [RpcCall "eth_getTransactionCount" [address; VStr "latest"]])
    | Ok count =>
        match rpc_answer tr "eth_gasPrice" [] with
        | Throw e =>
            (Throw e,
             (h ++ [RpcCall "eth_getTransactionCount" [address; VStr "latest"]])
               ++ [RpcCall "eth_gasPrice" []])
        | Ok price =>
            match signAndSerialize (tx_fields to data count gas price value_)
                    privateKey with
            | Throw e =>
                (Throw e,
                 (h ++ [RpcCall "eth_getTransactionCount" [address; VStr "latest"]])
                   ++ [RpcCall "eth_gasPrice" []])
            | Ok raw =>
                (rpc_answer tr "eth_sendRawTransaction" [raw],
                 ((h ++ [RpcCall "eth_getTransactionCount" [address; VStr "latest"]])
                    ++ [RpcCall "eth_gasPrice" []])
                   ++ [RpcCall "eth_sendRawTransaction" [raw]])
            end
        end
    end.
Proof.
  intros Hdata Hkey Hnonce Hprice Haddress.
  unfold transaction, getTransactionCount, gasPrice, io_bind, io_ret, io_lift, rpc.
  rewrite Hdata, Hkey, Hnonce, Hprice, Haddress. cbn [default_arg].
  destruct (rpc_answer tr "eth_getTransactionCount" [address; VStr "latest"]);
    [| reflexivity].
  destruct (rpc_answer tr "eth_gasPrice" []); [| reflexivity].
  destruct (signAndSerialize _ privateKey); reflexivity.
Qed.

Lemma js_or_omitted (v dflt : value) :
  js_or (omitted_if_falsy v) dflt = js_or v dflt.
Proof.
  unfold js_or, omitted_if_falsy. destruct (truthy v) eqn:Hv; [now rewrite Hv |].
  reflexivity.
Qed.

Lemma truthy_omitted (v : value) :
  truthy (omitted_if_falsy v) = truthy v.
Proof.
  unfold omitted_if_falsy. destruct (truthy v) eqn:Hv; [exact Hv | reflexivity].
Qed.

(** X24.  A falsy argument counts as one left out: a nonce, gas
    price, gas, value or data that is [0], [""], [null], [false] or
    [NaN] has the effect of [undefined], so that a nonce of [0] given
    as a number is replaced by the node's transaction count. *)
Theorem transaction_falsy_is_omitted
    (tr : transport)
    (methodSignature to args privateKey nonce value_ gas gasPrice_ data : value)
    (h : list event) :
  transaction' tr methodSignature to args privateKey nonce value_ gas gasPrice_ data h
  = transaction' tr methodSignature to args privateKey
      (omitted_if_falsy nonce) (omitted_if_falsy value_) (omitted_if_falsy gas)
      (omitted_if_falsy gasPrice_) (omitted_if_falsy data) h.
Proof.
  unfold transaction, tx_fields.
  rewrite !truthy_omitted, !js_or_omitted.
  unfold omitted_if_falsy.
  destruct (truthy data) eqn:Hdata, (truthy nonce) eqn:Hnonce,
    (truthy gasPrice_) eqn:Hprice; reflexivity.
Qed.

(** X25.  [transaction] reaches the transport only once the call is
    encoded and the key decoded: when there is no data and the
    encoding fails, or when the key is no buffer and cannot be read as
    hexadecimal, it rejects with that failure and sends nothing. *)
Theorem transaction_fails_before_sending
    (tr : transport)
    (methodSignature to args privateKey nonce value_ gas gasPrice_ data : value)
    (h : list event) (e : error) :
  (truthy data = false
   /\ encodeTxData methodSignature (default_arg args (VArr [] [])) = Throw e)
  \/ ((truthy data = true
       \/ exists d, encodeTxData methodSignature (default_arg args (VArr [] [])) = Ok d)
      /\ isBuffer privateKey = false
      /\ bufferFromHex privateKey = Throw e) ->
  transaction' tr methodSignature to args privateKey nonce value_ gas gasPrice_ data h
  = (Throw e, h).
Proof.
  unfold transaction, io_bind, io_ret, io_lift.
  intros [[Hdata Hencode] | (Hdata & Hkey & Hbuffer)].
  - now rewrite Hdata, Hencode.
  - rewrite Hkey, Hbuffer.
    destruct Hdata as [Hdata | [d Hd]].
    + now rewrite Hdata.
    + destruct (truthy data); [reflexivity |]. now rewrite Hd.
Qed.

(** X26.  Whatever its arguments and whatever the node answers,
    [transaction] makes at most three requests, and
    [eth_sendRawTransaction], if it is made at all, is the last of
    them. *)
Theorem transaction_requests
    (tr : transport)
    (methodSignature to args privateKey nonce value_ gas gasPrice_ data : value)
    (h : list event) :
  exists events,
    snd (transaction' tr methodSignature to args privateKey nonce value_ gas
           gasPrice_ data h)
    = h ++ events
    /\ (length events <= 3)%nat
    /\ forall (i : nat) (ps : list value),
         events !! i = Some (RpcCall "eth_sendRawTransaction" ps) ->
         S i = length events.
Proof.
  unfold transaction, getTransactionCount, gasPrice, io_bind, io_ret, io_lift, rpc.
  cbn [default_arg].
  repeat match goal with
         | |- context [match ?m with Ok _ => _ | Throw _ => _ end] =>
             destruct m; cbn [fst snd]
         | |- context [if ?b then _ else _] => destruct b; cbn [fst snd]
         end;
    rewrite <- ?app_assoc; cbn [app];
    first [ eexists; split; [reflexivity |]
          | exists []; split; [now rewrite app_nil_r |] ];
    (split; [simpl; lia |]);
    intros [| [| [| i]]] ps Hi; simpl in Hi; try discriminate; reflexivity.
Qed.

End TransactionProperties.

Lemma transaction_all_given_witness :
  transaction sample_encodeTxData sample_privateToAddress sample_isBuffer
    sample_bufferFromHex sample_signAndSerialize (node_transport sample_node_answer [])
    (VStr "mint(uint256)") (VStr "0xc0") VUndef (VArr [VStr "key"] [])
    (VStr "0x1") VUndef VUndef (VStr "0x2") (VStr "0xdd") []
  = (Ok (VStr "0xf00d"),
     [RpcCall "eth_sendRawTransaction"
        [VArr [VObj [("to"%string, VStr "0xc0");
                     ("data"%string, VStr "0xdd");
                     ("nonce"%string, VStr "0x1");
                     ("gas"%string, VStr "0x6691b7");
                     ("gasPrice"%string, VStr "0x2");
                     ("value"%string, VStr "0x")];
               VArr [VStr "key"] []] []]]).
Proof.
  apply (transaction_all_given sample_encodeTxData sample_privateToAddress
           sample_isBuffer sample_bufferFromHex sample_signAndSerialize
           (node_transport sample_node_answer [])
           (VStr "mint(uint256)") (VStr "0xc0") VUndef (VArr [VStr "key"] [])
           (VStr "0x1") VUndef VUndef (VStr "0x2") (VStr "0xdd") []);
    reflexivity.
Defined.

Lemma transaction_looks_up_witness :
  transaction sample_encodeTxData sample_privateToAddress sample_isBuffer
    sample_bufferFromHex sample_signAndSerialize (node_transport sample_node_answer [])
    (VStr "mint(uint256)") (VStr "0xc0") VUndef (VArr [VStr "key"] [])
    (VInt 0) VUndef VUndef VUndef (VStr "0xdd") []
  = (Ok (VStr "0xf00d"),
     [RpcCall "eth_getTransactionCount" [VStr "0xa1"; VStr "latest"];
      RpcCall "eth_gasPrice" [];
      RpcCall "eth_sendRawTransaction"
        [VArr [VObj [("to"%string, VStr "0xc0");
                     ("data"%string, VStr "0xdd");
                     ("nonce"%string, VStr "0x7");
                     ("gas"%string, VStr "0x6691b7");
                     ("gasPrice"%string, VStr "0x3b9aca00");
                     ("value"%string, VStr "0x")];
               VArr [VStr "key"] []] []]]).
Proof.
  apply (transaction_looks_up sample_encodeTxData sample_privateToAddress
           sample_isBuffer sample_bufferFromHex sample_signAndSerialize
           (node_transport sample_node_answer [])
           (VStr "mint(uint256)") (VStr "0xc0") VUndef (VArr [VStr "key"] [])
           (VInt 0) VUndef VUndef VUndef (VStr "0xdd") [] (VStr "0xa1"));
    reflexivity.
Defined.

Lemma transaction_fails_before_sending_witness :
  transaction sample_encodeTxData sample_privateToAddress sample_isBuffer
    sample_bufferFromHex sample_signAndSerialize (node_transport sample_node_answer [])
    (VStr "mint(uint256)") (VStr "0xc0") VUndef VUndef
    VUndef VUndef VUndef VUndef VUndef []
  = (Throw TypeError, []).
Proof.
  apply (transaction_fails_before_sending sample_encodeTxData sample_privateToAddress
           sample_isBuffer sample_bufferFromHex sample_signAndSerialize
           (node_transport sample_node_answer [])
           (VStr "mint(uint256)") (VStr "0xc0") VUndef VUndef
           VUndef VUndef VUndef VUndef VUndef [] TypeError).
  right. split; [right; eexists; reflexivity |]. split; reflexivity.
Defined.

(** ** [getBlocksFromArray]: a failed logs request *)

(** X27.  [getBlocksFromArray] lets a failed logs request pass: when
    every pair holds a block object and the logs response of the
    [k]-th carries no result, it still fulfils, and the [k]-th block
    has [logs] [undefined]. *)
Theorem getBlocksFromArray_logs_not_answered
    (tr : transport) (blockNumbers : list Z) (h : list event)
    (responses : list value) (k : nat) (res' : value) :
  batch_answer tr (getBlocksFromArray_batch blockNumbers) = Ok responses ->
  length responses = (2 * length blockNumbers)%nat ->
  (forall j, (j < length blockNumbers)%nat -> pair_answered responses j) ->
  (k < length blockNumbers)%nat ->
  responses !! (2 * k + 1)%nat = Some res' ->
  get_prop res' "result" = Ok VUndef ->
  exists blocks block,
    fst (getBlocksFromArray tr blockNumbers h) = Ok blocks
    /\ blocks !! k = Some block
    /\ get_prop block "logs" = Ok VUndef.
Proof.
  intros Hanswer Hlen Hpairs Hk Hres' Hget.
  rewrite (getBlocksFromArray_answered tr blockNumbers h responses Hanswer).
  destruct (map_outcome_total
              (fun j => getBlocksFromArray_step responses (2 * Z.of_nat j))
              (seq 0 (length blockNumbers))) as [blocks Hblocks].
  { apply Forall_forall. intros j Hj.
    apply getBlocksFromArray_step_total, Hpairs.
    apply list_elem_of_In, in_seq in Hj. lia. }
  rewrite <- (getBlocksFromArray_merge_spec responses _ Hlen) in Hblocks.
  destruct (getBlocksFromArray_merge_blocks _ _ _ Hlen Hblocks) as [Hcount Hbuilt].
  destruct (lookup_lt_is_Some_2 blocks k) as [block Hblock]; [lia |].
  exists blocks, block. split; [exact Hblocks |]. split; [exact Hblock |].
  destruct (Hbuilt k block Hblock)
    as (res & raw & res0 & logs & vn & n & vt & t
        & _ & _ & Hres0 & Hlogs & _ & _ & _ & _ & Hassign).
  rewrite Hres' in Hres0. injection Hres0 as <-.
  rewrite Hget in Hlogs. injection Hlogs as <-.
  destruct raw; cbn [object_assign] in Hassign; try discriminate;
    injection Hassign as <-; cbn [get_prop]; unfold assign_props; simpl;
    now rewrite ?lookup_prop_write_eq.
Qed.

Lemma failed_logs_pairs_answered (j : nat) :
  (j < 1)%nat ->
  pair_answered
    [envelope (sample_block 10 "0xaa"); VObj [("error"%string, VStr "timeout")]] j.
Proof.
  intros Hj. destruct j as [| j]; [| lia].
  do 4 eexists. repeat split; reflexivity.
Defined.

Lemma getBlocksFromArray_logs_not_answered_witness :
  exists blocks block,
    fst (getBlocksFromArray
           (fixed_transport [envelope (sample_block 10 "0xaa");
                             VObj [("error"%string, VStr "timeout")]]) [10] [])
    = Ok blocks
    /\ blocks !! 0%nat = Some block
    /\ get_prop block "logs" = Ok VUndef.
Proof.
  apply (getBlocksFromArray_logs_not_answered
           (fixed_transport [envelope (sample_block 10 "0xaa");
                             VObj [("error"%string, VStr "timeout")]]) [10] []
           [envelope (sample_block 10 "0xaa"); VObj [("error"%string, VStr "timeout")]]
           0%nat (VObj [("error"%string, VStr "timeout")])).
  - reflexivity.
  - reflexivity.
  - exact failed_logs_pairs_answered.
  - simpl. lia.
  - reflexivity.
  - reflexivity.
Defined.

(** ** [parseInt16] reads a prefix *)

Lemma radix_digits_app (fuel : nat) (radix : Z) :
  forall (n : Z) (acc more : string),
    (radix_digits fuel radix n acc ++ more)%string
    = radix_digits fuel radix n (acc ++ more)%string.
Proof.
  induction fuel as [| fuel IH]; intros n acc more; simpl; [reflexivity |].
  destruct (n / radix =? 0); [reflexivity |]. now rewrite IH.
Qed.

(** X28.  [parseInt16] does not refuse a number followed by something
    else: after the literal of [n >= 0], text that starts with a
    character that is no hexadecimal digit is ignored, and the result
    is [n]. *)
Theorem parseInt16_ignores_rest (n : Z) (c : ascii) (rest : string) :
  0 <= n ->
  hex_digit_value c = None ->
  parseInt16 (VStr ("0x" ++ number_toString 16 n ++ String c rest)) = Ok (Int n).
Proof.
  intros Hn Hc. unfold parseInt16, number_toString.
  destruct (n <? 0) eqn:Hneg; [apply Z.ltb_lt in Hneg; lia |].
  rewrite radix_digits_app. cbn [String.append].
  destruct (radix_digits_head (Z.to_nat (Z.log2 n)) n (String c rest) Hn)
    as (d & tail & Hd & Hshape).
  destruct (parse_radix_digits (digits_fuel n) n (String c rest)
              (digits_fuel_enough n Hn)) as (k & Hk & Hparse).
  specialize (Hparse 0).
  unfold digits_fuel in *. rewrite Hshape in *.
  cbn [to_string prim_to_string obind].
  change (String "0" (String "x" (String (digit_char d) tail)))
    with ("0x" ++ String (digit_char d) tail)%string.
  rewrite (parseInt_hex_prefixed _ _ d) by (apply hex_digit_value_digit_char; exact Hd).
  rewrite Hparse. cbn [parse_hex_digits]. rewrite Hc.
  rewrite Z.mul_0_l, Z.add_0_l. reflexivity.
Qed.

Lemma parseInt16_ignores_rest_witness :
  parseInt16 (VStr ("0x" ++ number_toString 16 26 ++ String "z" "zz")) = Ok (Int 26).
Proof.
  apply (parseInt16_ignores_rest 26 "z" "zz").
  - lia.
  - reflexivity.
Defined.
